(** * pretty-print-object: the renderer [prettyPrint] of src/index.ts

    A shallow embedding of the recursive value-to-text serializer and of the
    pieces of the JavaScript runtime it relies on (string replacement with a
    global regular expression, own-property enumeration, the module-level
    [seen] stack), followed by the properties of the renderer. *)

From Stdlib Require Import String Ascii List ZArith Lia Bool Arith.
Import ListNotations.
Open Scope string_scope.

(** ** Characters and strings

    A JavaScript string is a sequence of code units; the model keeps the
    code units below 256, one [ascii] each, so [String.length] is [.length]. *)

Definition LF : ascii := "010"%char.
Definition CR : ascii := "013"%char.
Definition TAB : ascii := "009"%char.
Definition DQUOTE : ascii := "034"%char.
Definition SQUOTE : ascii := "'"%char.
Definition BACKSLASH : ascii := "\"%char.
Definition DOLLAR : ascii := "$"%char.

Definition str (c : ascii) : string := String c EmptyString.

Fixpoint isPrefix (p s : string) : bool :=
  match p with
  | EmptyString => true
  | String a p' =>
      match s with
      | EmptyString => false
      | String b s' => Ascii.eqb a b && isPrefix p' s'
      end
  end.

Fixpoint dropChars (n : nat) (s : string) : string :=
  match n with
  | O => s
  | S k => match s with
           | EmptyString => EmptyString
           | String _ s' => dropChars k s'
           end
  end.

(** [includes t s]: [t] occurs in [s] (String.prototype.includes). *)
Fixpoint includes (t s : string) : bool :=
  isPrefix t s ||
  match s with
  | EmptyString => false
  | String _ s' => includes t s'
  end.

(** ** String.prototype.replace with a global regular expression

    Every pattern the program builds is a finite alternation of non-empty
    literal texts (a double quote; CR or LF; a single quote with or without
    a backslash before it; the sentinel tokens, which hold no
    regular-expression operator).  The alternatives are tried
    in order at each position; after a match the scan resumes behind it. *)

Fixpoint firstMatch (alts : list string) (s : string) : option string :=
  match alts with
  | [] => None
  | p :: alts' => if isPrefix p s then Some p else firstMatch alts' s
  end.

(** The replacement text of one match.  [matched] is the text matched,
    [before] the subject up to the match and [after] the subject behind it. *)
Definition replacer := string -> string -> string -> string.

(** GetSubstitution for a replacement given as a string, for a pattern with
    no capture group: [$$] is a dollar, [$&] the match, [$`] the text before
    it, [$'] the text after it; a dollar before anything else stands for
    itself. *)
Fixpoint getSubstitution (template matched before after : string) : string :=
  match template with
  | EmptyString => EmptyString
  | String c t =>
      if Ascii.eqb c DOLLAR then
        match t with
        | EmptyString => str DOLLAR
        | String d t' =>
            if Ascii.eqb d DOLLAR then
              str DOLLAR ++ getSubstitution t' matched before after
            else if Ascii.eqb d "&"%char then
              matched ++ getSubstitution t' matched before after
            else if Ascii.eqb d "`"%char then
              before ++ getSubstitution t' matched before after
            else if Ascii.eqb d SQUOTE then
              after ++ getSubstitution t' matched before after
            else String c (getSubstitution t matched before after)
        end
      else String c (getSubstitution t matched before after)
  end.

Definition byTemplate (template : string) : replacer :=
  fun matched before after => getSubstitution template matched before after.

(** The scan: [before] is the part of the subject already passed, [skip] the
    number of characters of the current match still to pass. *)
Fixpoint replaceFrom (alts : list string) (r : replacer)
         (before : string) (skip : nat) (s : string) : string :=
  match s with
  | EmptyString => EmptyString
  | String c s' =>
      match skip with
      | S k => replaceFrom alts r (before ++ str c) k s'
      | O =>
          match firstMatch alts s with
          | Some m =>
              r m before (dropChars (String.length m) s)
                ++ replaceFrom alts r (before ++ str c) (String.length m - 1) s'
          | None => String c (replaceFrom alts r (before ++ str c) 0 s')
          end
      end
  end.

Definition replace (alts : list string) (r : replacer) (s : string) : string :=
  replaceFrom alts r EmptyString 0 s.

(** ** Values

    An atom is a value the renderer only ever turns into text with
    [String(input)]; numbers, functions and regular expressions are held by
    that text.  Arrays and plain objects live in the heap and are named by
    their address, which is their reference identity. *)

Definition addr := nat.

Record symbol := { sym_id : nat; description : string }.

Inductive atom :=
| AUndefined
| ANull
| ABoolean (b : bool)
| ANumber (text : string)
| ABigInt (text : string)
| AString (s : string)
| ASymbol (s : symbol)
| AFunction (source : string)
| ARegExp (source : string).

(** A Date holds a time value or is invalid ([None]): [toISOString] gives
    the ISO text of the first and raises a RangeError on the second. *)
Inductive value :=
| VAtom (a : atom)
| VDate (iso : option string)
| VRef (a : addr).

Inductive key :=
| KString (s : string)
| KSymbol (s : symbol).

Record property := { name : key; enumerable : bool; content : value }.

(** An array is its slots, a hole being [None]; an object is its own
    properties in the order of [[OwnPropertyKeys]]. *)
Inductive object :=
| OArray (elems : list (option value))
| OObject (props : list property).

Definition heap := list object.

Definition String_ (a : atom) : string :=
  match a with
  | AUndefined => "undefined"
  | ANull => "null"
  | ABoolean true => "true"
  | ABoolean false => "false"
  | ANumber text => text
  | ABigInt text => text
  | AString s => s
  | ASymbol s => "Symbol(" ++ description s ++ ")"
  | AFunction source => source
  | ARegExp source => source
  end.

(** The test of lines 136-142: the kinds returned as [String(input)]. *)
Definition isPlain (a : atom) : bool :=
  match a with
  | ABigInt _ | AString _ => false
  | _ => true
  end.

Definition symbol_eqb (x y : symbol) : bool :=
  Nat.eqb (sym_id x) (sym_id y) && String.eqb (description x) (description y).

Definition key_eqb (x y : key) : bool :=
  match x, y with
  | KString s, KString t => String.eqb s t
  | KSymbol s, KSymbol t => symbol_eqb s t
  | _, _ => false
  end.

(** [Object.keys]: the own enumerable string-named properties, in order. *)
Fixpoint Object_keys (ps : list property) : list string :=
  match ps with
  | [] => []
  | p :: ps' =>
      match name p with
      | KString s => if enumerable p then s :: Object_keys ps'
                     else Object_keys ps'
      | KSymbol _ => Object_keys ps'
      end
  end.

Fixpoint getOwnPropertySymbols (ps : list property) : list symbol :=
  match ps with
  | [] => []
  | p :: ps' =>
      match name p with
      | KSymbol s => s :: getOwnPropertySymbols ps'
      | KString _ => getOwnPropertySymbols ps'
      end
  end.

Fixpoint propertyIsEnumerable (ps : list property) (k : key) : bool :=
  match ps with
  | [] => false
  | p :: ps' => if key_eqb (name p) k then enumerable p
                else propertyIsEnumerable ps' k
  end.

Definition getOwnEnumPropSymbols (ps : list property) : list symbol :=
  filter (fun keySymbol => propertyIsEnumerable ps (KSymbol keySymbol))
         (getOwnPropertySymbols ps).

(** [input[el]]: the value of the property, [undefined] when there is none. *)
Fixpoint getProp (ps : list property) (k : key) : value :=
  match ps with
  | [] => VAtom AUndefined
  | p :: ps' => if key_eqb (name p) k then content p else getProp ps' k
  end.

(** ** Options and hooks

    A hook is a callback of the caller: it completes with a value or
    abruptly, with an exception.  It receives the composite by reference;
    it does not change the value graph and does not call the renderer.
    A field of the options that is absent is [None]; the limit is an
    integer. *)

Inductive exn :=
| RangeError (message : string)
| Thrown (what : string).

Inductive completion (A : Type) :=
| Normal (a : A)
| Abrupt (e : exn).
Arguments Normal {A} a.
Arguments Abrupt {A} e.

Inductive prop :=
| PKey (k : key)
| PIndex (i : nat).

Module Options.
Record t := {
  indent : option string;
  singleQuotes : option bool;
  filter : option (addr -> prop -> completion bool);
  transform : option (addr -> prop -> string -> completion string);
  inlineCharacterLimit : option Z
}.
End Options.
Definition PrettyPrintOptions := Options.t.

Definition noOptions : PrettyPrintOptions :=
  {| Options.indent := None; Options.singleQuotes := None;
     Options.filter := None; Options.transform := None;
     Options.inlineCharacterLimit := None |}.

Definition defaultOptions : PrettyPrintOptions :=
  {| Options.indent := Some (str TAB); Options.singleQuotes := Some true;
     Options.filter := None; Options.transform := None;
     Options.inlineCharacterLimit := None |}.

Definition orElse {A} (x y : option A) : option A :=
  match x with Some _ => x | None => y end.

(** [{...a, ...b}]: a field of [b] wins when it is present. *)
Definition spread (a b : PrettyPrintOptions) : PrettyPrintOptions :=
  {| Options.indent := orElse (Options.indent b) (Options.indent a);
     Options.singleQuotes :=
       orElse (Options.singleQuotes b) (Options.singleQuotes a);
     Options.filter := orElse (Options.filter b) (Options.filter a);
     Options.transform := orElse (Options.transform b) (Options.transform a);
     Options.inlineCharacterLimit :=
       orElse (Options.inlineCharacterLimit b)
              (Options.inlineCharacterLimit a) |}.

(** Reading [o.indent] into a string concatenation, and [o.singleQuotes]
    into a condition. *)
Definition indentOf (o : PrettyPrintOptions) : string :=
  match Options.indent o with Some s => s | None => "undefined" end.

Definition singleQuotesOf (o : PrettyPrintOptions) : bool :=
  match Options.singleQuotes o with Some b => b | None => false end.

(** ** Tokens and the compaction pass *)

Record Tokens := {
  tok_newLine : string;
  tok_newLineOrSpace : string;
  tok_pad : string;
  tok_indent : string
}.

Definition NEW_LINE : string := "@@__PRETTY_PRINT_NEW_LINE__@@".
Definition NEW_LINE_OR_SPACE : string := "@@__PRETTY_PRINT_NEW_LINE_OR_SPACE__@@".
Definition PAD : string := "@@__PRETTY_PRINT_PAD__@@".
Definition INDENT : string := "@@__PRETTY_PRINT_INDENT__@@".

Definition tokensOf (combinedOptions : PrettyPrintOptions) (pad : string)
  : Tokens :=
  match Options.inlineCharacterLimit combinedOptions with
  | None =>
      {| tok_newLine := str LF;
         tok_newLineOrSpace := str LF;
         tok_pad := pad;
         tok_indent := pad ++ indentOf combinedOptions |}
  | Some _ =>
      {| tok_newLine := NEW_LINE;
         tok_newLineOrSpace := NEW_LINE_OR_SPACE;
         tok_pad := PAD;
         tok_indent := INDENT |}
  end.

(** The single-line candidate of [expandWhiteSpace]. *)
Definition oneLined (tokens : Tokens) (string_ : string) : string :=
  replace [tok_pad tokens; tok_indent tokens] (byTemplate EmptyString)
    (replace [tok_newLineOrSpace tokens] (byTemplate " ")
       (replace [tok_newLine tokens] (byTemplate EmptyString) string_)).

(** The multi-line text of [expandWhiteSpace]. *)
Definition multiLined (combinedOptions : PrettyPrintOptions) (tokens : Tokens)
           (pad string_ : string) : string :=
  replace [tok_indent tokens] (byTemplate (pad ++ indentOf combinedOptions))
    (replace [tok_pad tokens] (byTemplate pad)
       (replace [tok_newLine tokens; tok_newLineOrSpace tokens]
                (byTemplate (str LF)) string_)).

Definition expandWhiteSpace (combinedOptions : PrettyPrintOptions)
           (tokens : Tokens) (pad string_ : string) : string :=
  match Options.inlineCharacterLimit combinedOptions with
  | None => string_
  | Some limit =>
      if (Z.of_nat (String.length (oneLined tokens string_)) <=? limit)%Z
      then oneLined tokens string_
      else multiLined combinedOptions tokens pad string_
  end.

(** ** The text fallback (lines 206-214) *)

Definition escapeLineBreak : replacer :=
  fun x _ _ => if String.eqb x (str LF) then "\n" else "\r".

Definition textFallback (combinedOptions : PrettyPrintOptions) (s : string)
  : string :=
  let input := replace [str CR; str LF] escapeLineBreak s in
  if negb (singleQuotesOf combinedOptions) then
    str DQUOTE
      ++ replace [str DQUOTE] (byTemplate (String BACKSLASH (str DQUOTE))) input
      ++ str DQUOTE
  else
    "'" ++ replace ["\'"; "'"] (byTemplate "\'") input ++ "'".

(** [/^[a-z$_][a-z$_0-9]*$/i.test(s)] *)
Definition isLetter (c : ascii) : bool :=
  let n := nat_of_ascii c in
  (((97 <=? n) && (n <=? 122)) || ((65 <=? n) && (n <=? 90)))%nat.

Definition isDigit (c : ascii) : bool :=
  let n := nat_of_ascii c in ((48 <=? n) && (n <=? 57))%nat.

Definition isStart (c : ascii) : bool :=
  isLetter c || Ascii.eqb c DOLLAR || Ascii.eqb c "_"%char.

Definition isPart (c : ascii) : bool := isStart c || isDigit c.

Fixpoint allChars (f : ascii -> bool) (s : string) : bool :=
  match s with
  | EmptyString => true
  | String c s' => f c && allChars f s'
  end.

Definition isClassicKey (s : string) : bool :=
  match s with
  | EmptyString => false
  | String c s' => isStart c && allChars isPart s'
  end.

(** ** The [seen] stack and the monad of the renderer

    [seen] is a module-level array: every call reads and updates the same
    one.  Only arrays and objects are ever pushed, so the stack is a list of
    addresses.  A computation takes the stack and gives an outcome, the
    stack it leaves behind and the calls of [seen.push] and [seen.pop] it
    made, in order.  [OutOfFuel] is the recursion bound of the model running
    out and [Wild] a reference to no object of the heap. *)

Inductive event :=
| Push (a : addr)
| Pop.

Inductive outcome (A : Type) :=
| Ok (a : A)
| Throw (e : exn)
| OutOfFuel
| Wild.
Arguments Ok {A} a.
Arguments Throw {A} e.
Arguments OutOfFuel {A}.
Arguments Wild {A}.

Definition M (A : Type) : Type :=
  list addr -> outcome A * list addr * list event.

Definition ret {A} (a : A) : M A := fun seen => (Ok a, seen, []).
Definition throw {A} (e : exn) : M A := fun seen => (Throw e, seen, []).
Definition outOfFuel {A} : M A := fun seen => (OutOfFuel, seen, []).
Definition wild {A} : M A := fun seen => (Wild, seen, []).

Definition bind {A B} (m : M A) (k : A -> M B) : M B :=
  fun seen =>
    match m seen with
    | (Ok a, seen1, tr1) =>
        match k a seen1 with
        | (r, seen2, tr2) => (r, seen2, (tr1 ++ tr2)%list)
        end
    | (Throw e, seen1, tr1) => (Throw e, seen1, tr1)
    | (OutOfFuel, seen1, tr1) => (OutOfFuel, seen1, tr1)
    | (Wild, seen1, tr1) => (Wild, seen1, tr1)
    end.

Notation "x <- m ;; k" := (bind m (fun x => k))
  (at level 61, m at next level, right associativity).
Notation "m ;;; k" := (bind m (fun _ => k))
  (at level 61, right associativity).

Definition getSeen : M (list addr) := fun seen => (Ok seen, seen, []).
Definition seen_push (a : addr) : M unit :=
  fun seen => (Ok tt, (seen ++ [a])%list, [Push a]).
Definition seen_pop : M unit :=
  fun seen => (Ok tt, removelast seen, [Pop]).

Definition call {A} (c : completion A) : M A :=
  match c with
  | Normal a => ret a
  | Abrupt e => throw e
  end.

(** [seen.indexOf(input) !== -1]: strict equality with a pushed reference. *)
Definition indexOf (seen : list addr) (input : value) : bool :=
  match input with
  | VRef a => existsb (Nat.eqb a) seen
  | _ => false
  end.

(** [Array.prototype.map] over the slots: a hole is skipped and stays a
    hole, which [join] reads as the empty text. *)
Fixpoint mapSlots (f : value -> nat -> M string)
         (l : list (option value)) (i : nat) : M (list string) :=
  match l with
  | [] => ret []
  | None :: l' =>
      rest <- mapSlots f l' (S i) ;;
      ret (EmptyString :: rest)
  | Some el :: l' =>
      x <- f el i ;;
      rest <- mapSlots f l' (S i) ;;
      ret (x :: rest)
  end.

Fixpoint mapKeys (f : key -> nat -> M string)
         (l : list key) (i : nat) : M (list string) :=
  match l with
  | [] => ret []
  | el :: l' =>
      x <- f el i ;;
      rest <- mapKeys f l' (S i) ;;
      ret (x :: rest)
  end.

(** [Array.prototype.filter] with a callback that may raise. *)
Fixpoint filterKeys (f : key -> completion bool) (l : list key)
  : completion (list key) :=
  match l with
  | [] => Normal []
  | el :: l' =>
      match f el with
      | Abrupt e => Abrupt e
      | Normal b =>
          match filterKeys f l' with
          | Abrupt e => Abrupt e
          | Normal rest => Normal (if b then el :: rest else rest)
          end
      end
  end.

Definition join (parts : list string) : string :=
  String.concat EmptyString parts.

Definition CIRCULAR : string :=
  String DQUOTE ("[Circular]" ++ str DQUOTE).

Definition keyString (k : key) : string :=
  match k with
  | KString s => s
  | KSymbol s => String_ (ASymbol s)
  end.

(** Lines 175-179: the keys of an object, then the filter hook. *)
Definition ownKeys (props : list property) : list key :=
  (map KString (Object_keys props)
     ++ map KSymbol (getOwnEnumPropSymbols props))%list.

Definition objKeysOf (combinedOptions : PrettyPrintOptions) (a : addr)
           (props : list property) : completion (list key) :=
  match Options.filter combinedOptions with
  | Some filter => filterKeys (fun el => filter a (PKey el)) (ownKeys props)
  | None => Normal (ownKeys props)
  end.

(** ** prettyPrint

    The body of the function, its recursive calls being [self]. *)

Section Body.

(** The value graph; the renderer does not change it. *)
Variable h : heap.
Variable self : value -> PrettyPrintOptions -> string -> M string.

Definition eolOf (tokens : Tokens) (len i : nat) : string :=
  if (len - 1 =? i)%nat then tok_newLine tokens
  else "," ++ tok_newLineOrSpace tokens.

Definition applyTransform (combinedOptions : PrettyPrintOptions)
           (a : addr) (p : prop) (value0 : string) : M string :=
  match Options.transform combinedOptions with
  | Some transform => call (transform a p value0)
  | None => ret value0
  end.

(** The callback of [input.map] (lines 158-167). *)
Definition elementText (combinedOptions : PrettyPrintOptions)
           (tokens : Tokens) (pad : string) (a : addr) (len : nat)
           (el : value) (i : nat) : M string :=
  value0 <- self el combinedOptions (pad ++ indentOf combinedOptions) ;;
  value1 <- applyTransform combinedOptions a (PIndex i) value0 ;;
  ret (tok_indent tokens ++ value1 ++ eolOf tokens len i).

(** Lines 189-191: the text of a key. *)
Definition keyText (combinedOptions : PrettyPrintOptions) (el : key)
  : M string :=
  match el with
  | KSymbol _ => ret (keyString el)
  | KString s =>
      if isClassicKey s then ret s
      else self (VAtom (AString s)) combinedOptions EmptyString
  end.

(** The callback of [objKeys.map] (lines 187-199). *)
Definition entryText (combinedOptions : PrettyPrintOptions)
           (tokens : Tokens) (pad : string) (a : addr)
           (props : list property) (len : nat)
           (el : key) (i : nat) : M string :=
  key0 <- keyText combinedOptions el ;;
  value0 <- self (getProp props el) combinedOptions
                 (pad ++ indentOf combinedOptions) ;;
  value1 <- applyTransform combinedOptions a (PKey el) value0 ;;
  ret (tok_indent tokens ++ key0 ++ ": " ++ value1 ++ eolOf tokens len i).

Definition body (input : value) (options : PrettyPrintOptions)
           (pad : string) : M string :=
  let combinedOptions := spread defaultOptions options in
  let tokens := tokensOf combinedOptions pad in
  seen <- getSeen ;;
  if indexOf seen input then ret CIRCULAR
  else
    match input with
    | VAtom a =>
        if isPlain a then ret (String_ a)
        else ret (textFallback combinedOptions (String_ a))
    | VDate (Some iso) => ret ("new Date('" ++ iso ++ "')")
    | VDate None => throw (RangeError "Invalid time value")
    | VRef a =>
        match nth_error h a with
        | None => wild
        | Some (OArray elems) =>
            if (List.length elems =? 0)%nat then ret "[]"
            else
              seen_push a ;;;
              parts <- mapSlots
                         (elementText combinedOptions tokens pad a
                                      (List.length elems)) elems 0 ;;
              seen_pop ;;;
              ret (expandWhiteSpace combinedOptions tokens pad
                     ("[" ++ tok_newLine tokens ++ join parts
                          ++ tok_pad tokens ++ "]"))
        | Some (OObject props) =>
            objKeys <- call (objKeysOf combinedOptions a props) ;;
            if (List.length objKeys =? 0)%nat then ret "{}"
            else
              seen_push a ;;;
              parts <- mapKeys
                         (entryText combinedOptions tokens pad a props
                                    (List.length objKeys)) objKeys 0 ;;
              seen_pop ;;;
              ret (expandWhiteSpace combinedOptions tokens pad
                     ("{" ++ tok_newLine tokens ++ join parts
                          ++ tok_pad tokens ++ "}"))
        end
    end.

End Body.

Fixpoint prettyPrint (h : heap) (fuel : nat)
  : value -> PrettyPrintOptions -> string -> M string :=
  match fuel with
  | O => fun _ _ _ => outOfFuel
  | S fuel' => body h (prettyPrint h fuel')
  end.

(** A top-level call on a clean stack: its outcome alone. *)
Definition render (h : heap) (fuel : nat) (input : value)
           (options : PrettyPrintOptions) : outcome string :=
  fst (fst (prettyPrint h fuel input options EmptyString [])).

(** * Vocabulary of the properties *)

(** ** The stack *)

Definition onStack (s : list addr) (a : addr) : bool :=
  existsb (Nat.eqb a) s.

(** [frames m]: a computation that returns leaves the stack as it found it;
    one that raises leaves the stack it found, with what was pushed since. *)
Definition frames {A} (m : M A) : Prop :=
  forall s r s' tr,
    m s = (r, s', tr) ->
    match r with
    | Ok _ => s' = s
    | Throw _ => exists ext, s' = (s ++ ext)%list
    | _ => True
    end.

(** [rendersTo h fuel v o pad s t]: on the stack [s] the call returns the
    text [t] and leaves the stack as it found it. *)
Definition rendersTo (h : heap) (fuel : nat) (v : value)
           (o : PrettyPrintOptions) (pad : string) (s : list addr)
           (t : string) : Prop :=
  exists tr, prettyPrint h fuel v o pad s = (Ok t, s, tr).

(** [hasMembers h o a]: the composite at [a] is one that line 156 or line
    185 pushes, a non-empty array or an object with a retained key. *)
Definition hasMembers (h : heap) (o : PrettyPrintOptions) (a : addr) : bool :=
  match nth_error h a with
  | Some (OArray elems) => negb (List.length elems =? 0)%nat
  | Some (OObject props) =>
      match objKeysOf (spread defaultOptions o) a props with
      | Normal (_ :: _) => true
      | _ => false
      end
  | None => false
  end.

(** A stack as the pushes build it: composites with members only. *)
Definition stackSound (h : heap) (o : PrettyPrintOptions) (s : list addr)
  : bool :=
  forallb (hasMembers h o) s.

(** ** Well-formed inputs *)

Definition slotAll (q : value -> bool) (x : option value) : bool :=
  match x with Some v => q v | None => true end.

Definition objectAll (q : value -> bool) (o : object) : bool :=
  match o with
  | OArray elems => forallb (slotAll q) elems
  | OObject props => forallb (fun p => q (content p)) props
  end.

Definition heapAll (q : value -> bool) (h : heap) : bool :=
  forallb (objectAll q) h.

(** Every reference names an object of the heap. *)
Definition closedValue (h : heap) (v : value) : bool :=
  match v with VRef a => (a <? List.length h)%nat | _ => true end.

Definition closedHeap (h : heap) : bool := heapAll (closedValue h) h.

(** No Date is invalid. *)
Definition validValue (v : value) : bool :=
  match v with VDate None => false | _ => true end.

Definition datesValid (h : heap) : bool := heapAll validValue h.

(** The hooks of the options never raise. *)
Definition hooksTotal (o : PrettyPrintOptions) : Prop :=
  (forall f, Options.filter o = Some f ->
             forall a p, exists b, f a p = Normal b) /\
  (forall g, Options.transform o = Some g ->
             forall a p x, exists y, g a p x = Normal y).

(** The inputs on which a call is sure to return: a closed value graph
    with no invalid Date, and hooks that do not raise. *)
Definition wellFormed (h : heap) (v : value) (o : PrettyPrintOptions) : Prop :=
  closedHeap h = true /\ datesValid h = true /\
  closedValue h v = true /\ validValue v = true /\ hooksTotal o.

(** No two properties of an object have the same key. *)
Fixpoint uniqueKeys (ps : list property) : bool :=
  match ps with
  | [] => true
  | p :: ps' =>
      negb (existsb (fun q => key_eqb (name p) (name q)) ps')
      && uniqueKeys ps'
  end.

(** ** How a call ends *)

(** The objects of the heap that are not on the stack: the depth a
    rendering can still reach. *)
Definition room (h : heap) (s : list addr) : nat :=
  List.length (filter (fun a => negb (onStack s a)) (seq 0 (List.length h))).

Inductive kind := KOk | KThrow | KOutOfFuel | KWild.

Definition kindOf {A} (r : outcome A) : kind :=
  match r with
  | Ok _ => KOk
  | Throw _ => KThrow
  | OutOfFuel => KOutOfFuel
  | Wild => KWild
  end.

Definition outcomeOf {A} (x : outcome A * list addr * list event) : outcome A :=
  fst (fst x).

(** [ends P m s]: run on the stack [s], [m] ends in one of the ways [P]. *)
Definition ends (P : kind -> bool) {A} (m : M A) (s : list addr) : Prop :=
  P (kindOf (outcomeOf (m s))) = true.

Definition onlyOk (k : kind) : bool :=
  match k with KOk => true | _ => false end.

Definition okOrThrow (k : kind) : bool :=
  match k with KOk | KThrow => true | _ => false end.

(** What a call needs for each way of ending that [P] rules out. *)
Definition fit (P : kind -> bool) (h : heap) (fuel : nat) (v : value)
           (o : PrettyPrintOptions) (s : list addr) : Prop :=
  (P KOutOfFuel = false -> room h s < fuel) /\
  (P KWild = false -> closedValue h v = true) /\
  (P KThrow = false -> validValue v = true /\ hooksTotal o).

(** [extends m m']: whatever [m] ends with, short of running out of fuel,
    [m'] ends with too. *)
Definition extends {A} (m m' : M A) : Prop :=
  forall s r s' tr,
    m s = (r, s', tr) -> kindOf r <> KOutOfFuel -> m' s = (r, s', tr).

(** ** The text of a composite *)

(** The tokens of a call when [inlineCharacterLimit] is set, and those of
    a call with the default options. *)
Definition sentinels : Tokens :=
  {| tok_newLine := NEW_LINE;
     tok_newLineOrSpace := NEW_LINE_OR_SPACE;
     tok_pad := PAD;
     tok_indent := INDENT |}.

Definition plainTokens (pad : string) : Tokens :=
  tokensOf defaultOptions pad.

(** The text a composite assembles from the texts of its members, before
    [expandWhiteSpace]. *)
Definition assemble (tokens : Tokens) (opening closing : string)
           (parts : list string) : string :=
  opening ++ tok_newLine tokens ++ join parts ++ tok_pad tokens ++ closing.

(** [membersOf h fuel o pad s a opening closing parts]: [parts] are the
    texts of the members of the composite at [a], as the callbacks of
    lines 158 and 187 return them on the stack [s ++ [a]], and [opening]
    and [closing] are its delimiters. *)
Definition membersOf (h : heap) (fuel : nat) (o : PrettyPrintOptions)
           (pad : string) (s : list addr) (a : addr)
           (opening closing : string) (parts : list string) : Prop :=
  let co := spread defaultOptions o in
  match nth_error h a with
  | Some (OArray elems) =>
      opening = "[" /\ closing = "]" /\
      exists tr,
        mapSlots (elementText (prettyPrint h fuel) co (tokensOf co pad) pad a
                              (List.length elems)) elems 0 (s ++ [a])%list
        = (Ok parts, (s ++ [a])%list, tr)
  | Some (OObject props) =>
      opening = "{" /\ closing = "}" /\
      exists keys tr,
        objKeysOf co a props = Normal keys /\
        mapKeys (entryText (prettyPrint h fuel) co (tokensOf co pad) pad a
                           props (List.length keys)) keys 0 (s ++ [a])%list
        = (Ok parts, (s ++ [a])%list, tr)
  | None => False
  end.

(** The text of a key in an entry. *)
Definition keyOut (co : PrettyPrintOptions) (k : key) : string :=
  match k with
  | KSymbol _ => keyString k
  | KString s => if isClassicKey s then s
                 else textFallback (spread defaultOptions co) s
  end.

(** The members of a composite as the default options render them: for
    each slot or key, the text written before the value and the value; a
    hole has none. *)
Definition members (h : heap) (a : addr) : list (option (string * value)) :=
  match nth_error h a with
  | Some (OArray elems) =>
      map (fun slot => match slot with
                       | Some v => Some (EmptyString, v)
                       | None => None
                       end) elems
  | Some (OObject props) =>
      map (fun k => Some (keyOut defaultOptions k ++ ": ", getProp props k))
          (ownKeys props)
  | None => []
  end.

(** ** Keys, in the words of the specification *)





(** The own keys: the enumerable string-named properties in their order,
    then the enumerable symbol-named ones in theirs. *)
Definition isEnumerableString (p : property) : bool :=
  match name p with KString _ => enumerable p | KSymbol _ => false end.

Definition isEnumerableSymbol (p : property) : bool :=
  match name p with KSymbol _ => enumerable p | KString _ => false end.

Definition orderedUnion (props : list property) : list key :=
  (map name (filter isEnumerableString props)
     ++ map name (filter isEnumerableSymbol props))%list.

(** The shape of an object: its keys and their flags, values apart. *)
Definition shape (props : list property) : list (key * bool) :=
  map (fun p => (name p, enumerable p)) props.

(** ** Options of the properties *)

Definition withLimit (limit : Z) : PrettyPrintOptions :=
  {| Options.indent := None; Options.singleQuotes := None;
     Options.filter := None; Options.transform := None;
     Options.inlineCharacterLimit := Some limit |}.

Definition withQuotes (singleQuotes : bool) : PrettyPrintOptions :=
  {| Options.indent := None; Options.singleQuotes := Some singleQuotes;
     Options.filter := None; Options.transform := None;
     Options.inlineCharacterLimit := None |}.

(** The options [o] with another filter hook. *)
Definition withFilter (o : PrettyPrintOptions)
           (f : option (addr -> prop -> completion bool))
  : PrettyPrintOptions :=
  {| Options.indent := Options.indent o;
     Options.singleQuotes := Options.singleQuotes o;
     Options.filter := f;
     Options.transform := Options.transform o;
     Options.inlineCharacterLimit := Options.inlineCharacterLimit o |}.

(** The options [o] with another transform hook. *)
Definition withTransform (o : PrettyPrintOptions)
           (g : option (addr -> prop -> string -> completion string))
  : PrettyPrintOptions :=
  {| Options.indent := Options.indent o;
     Options.singleQuotes := Options.singleQuotes o;
     Options.filter := Options.filter o;
     Options.transform := g;
     Options.inlineCharacterLimit := Options.inlineCharacterLimit o |}.

(** What the filter of [o] answers for the key [k] of the object at [a];
    with no filter every key is kept. *)
Definition askFilter (o : PrettyPrintOptions) (a : addr) (k : key)
  : completion bool :=
  match Options.filter o with
  | Some f => f a (PKey k)
  | None => Normal true
  end.

(** Two filters that answer alike on the keys of the objects of [h]. *)
Definition agreeOnObjects (h : heap) (o o' : PrettyPrintOptions) : Prop :=
  forall a props k,
    nth_error h a = Some (OObject props) ->
    askFilter o' a k = askFilter o a k.

(** ** Reading a string literal back

    The value of a quoted literal under the escape rules of string
    literals, in the words of the specification (the renderer has no
    reader).  A backslash and [n], [r], [t], [b], [f], [v] or [0] is the
    control character it names, a backslash and a line break is nothing, a
    backslash and any other character but [x], [u] and a digit is that
    character; a bare line break, a quote before the end and a missing
    closing quote make the literal ill-formed. *)

Definition unescape (d : ascii) : option string :=
  if Ascii.eqb d "n" then Some (str LF)
  else if Ascii.eqb d "r" then Some (str CR)
  else if Ascii.eqb d "t" then Some (str TAB)
  else if Ascii.eqb d "b" then Some (str "008"%char)
  else if Ascii.eqb d "f" then Some (str "012"%char)
  else if Ascii.eqb d "v" then Some (str "011"%char)
  else if Ascii.eqb d "0" then Some (str "000"%char)
  else if Ascii.eqb d LF || Ascii.eqb d CR then Some EmptyString
  else if Ascii.eqb d "x" || Ascii.eqb d "u" || isDigit d then None
  else Some (str d).

Fixpoint readBody (q : ascii) (s : string) : option string :=
  match s with
  | EmptyString => None
  | String c s' =>
      if Ascii.eqb c q then
        match s' with EmptyString => Some EmptyString | _ => None end
      else if Ascii.eqb c BACKSLASH then
        match s' with
        | EmptyString => None
        | String d s'' =>
            match unescape d, readBody q s'' with
            | Some x, Some rest => Some (x ++ rest)
            | _, _ => None
            end
        end
      else if Ascii.eqb c LF || Ascii.eqb c CR then None
      else
        match readBody q s' with
        | Some rest => Some (String c rest)
        | None => None
        end
  end.

Definition quoteOf (singleQuotes : bool) : ascii :=
  if singleQuotes then SQUOTE else DQUOTE.

Definition readLiteral (singleQuotes : bool) (literal : string)
  : option string :=
  match literal with
  | EmptyString => None
  | String c body =>
      if Ascii.eqb c (quoteOf singleQuotes)
      then readBody (quoteOf singleQuotes) body
      else None
  end.

Definition hasBackslash (s : string) : bool :=
  negb (allChars (fun c => negb (Ascii.eqb c BACKSLASH)) s).

(** The escaping of one character: a line break by its two-character
    form, the quote [q] by a backslash and itself. *)
Definition escapeLine (c : ascii) : string :=
  if Ascii.eqb c CR then "\r"
  else if Ascii.eqb c LF then "\n"
  else str c.

Definition escapeQuote (q c : ascii) : string :=
  if Ascii.eqb c q then String BACKSLASH (str q) else str c.

Fixpoint mapChars (g : ascii -> string) (s : string) : string :=
  match s with
  | EmptyString => EmptyString
  | String c s' => g c ++ mapChars g s'
  end.

(** No backslash of [s] stands before a single quote. *)
Fixpoint tame (s : string) : bool :=
  match s with
  | EmptyString => true
  | String c s' =>
      negb (Ascii.eqb c BACKSLASH && isPrefix "'" s') && tame s'
  end.

(** * Inputs of the examples *)

Definition num (text : string) : value := VAtom (ANumber text).
Definition txt (s : string) : value := VAtom (AString s).
Definition field (k : string) (v : value) : property :=
  {| name := KString k; enumerable := true; content := v |}.

Definition nl : string := str LF.
Definition tab : string := str TAB.

(** [{id: 8, name: 'Jane'}] *)
Definition heapJane : heap :=
  [OObject [field "id" (num "8"); field "name" (txt "Jane")]].

(** [[]] at 0 and [{}] at 1, and [[ [], {} ]] at 2. *)
Definition heapEmpties : heap :=
  [OArray []; OObject []; OArray [Some (VRef 0); Some (VRef 1)]].

(** [[u]]: an array of one string. *)
Definition heapText (u : string) : heap := [OArray [Some (txt u)]].

(** An object with an enumerable and a non-enumerable symbol key, as in
    the test of the repository, and a string key after them. *)
Definition symEnum : symbol :=
  {| sym_id := 1; description := "for enumerable key" |}.
Definition symHidden : symbol :=
  {| sym_id := 2; description := "for non-enumerable key" |}.
Definition heapSymbols : heap :=
  [OObject [ {| name := KSymbol symEnum; enumerable := true;
                content := VAtom AUndefined |};
             {| name := KSymbol symHidden; enumerable := false;
                content := VAtom AUndefined |};
             field "last" (num "1") ]].

(** [[1, 2, 3]] at 0 and [{a: 1}] at 1. *)
Definition heapNumbers : heap :=
  [OArray [Some (num "1"); Some (num "2"); Some (num "3")];
   OObject [field "a" (num "1")]].

(** [a = []; b = [a]; a[0] = a]: [a] at 0 and [b] at 1. *)
Definition heapSelf : heap :=
  [OArray [Some (VRef 0)]; OArray [Some (VRef 0)]].

(** The circular arrays of the tests: [array] at 0 holds the array at 1,
    which holds the array at 2 and [array]; the array at 2 holds [array]
    and 10. *)
Definition heapKnot : heap :=
  [OArray [Some (VRef 1)];
   OArray [Some (VRef 2); Some (VRef 0)];
   OArray [Some (VRef 0); Some (num "10")]].

(** [[new Date(NaN)]] *)
Definition heapBadDate : heap := [OArray [Some (VDate None)]].

(** [v = {val: 10}; obj = {foo: v, bar: v}]: [v] at 0 and [obj] at 1. *)
Definition heapReused : heap :=
  [OObject [field "val" (num "10")];
   OObject [field "foo" (VRef 0); field "bar" (VRef 0)]].

(** [{foo: {val: 10}, bar: 9, baz: [8]}] at 0. *)
Definition heapTransform : heap :=
  [OObject [field "foo" (VRef 1); field "bar" (num "9");
            field "baz" (VRef 2)];
   OObject [field "val" (num "10")];
   OArray [Some (num "8")]].

(** [{arr: [1, 2, 3], nested: {hello: 'world'}}] at 0. *)
Definition heapNested : heap :=
  [OObject [field "arr" (VRef 1); field "nested" (VRef 2)];
   OArray [Some (num "1"); Some (num "2"); Some (num "3")];
   OObject [field "hello" (txt "world")]].

(** [{foo: 'a ' b ' c \' d'}] at 0. *)
Definition heapQuotes : heap := [OObject [field "foo" (txt "a ' b ' c \' d")]].

(** An array with a hole between two numbers. *)
Definition heapSparse : heap := [OArray [Some (num "1"); None; Some (num "3")]].

(** A text with a single quote, a line break and a double quote. *)
Definition sampleText : string := "it's " ++ str LF ++ str DQUOTE.

(** A filter that rejects whatever it is asked. *)
Definition rejectAll : addr -> prop -> completion bool :=
  fun _ _ => Normal false.

(** A transform hook that raises. *)
Definition raising : addr -> prop -> string -> completion string :=
  fun _ _ _ => Abrupt (Thrown "hook").

(** A transform hook that appends a mark to the text of each member. *)
Definition marking : addr -> prop -> string -> completion string :=
  fun _ _ x => Normal (x ++ "!").

(** The transform hook of the test on [heapTransform]: [val] is
    incremented, [bar] is quoted with a suffix, the element 8 becomes
    [LOL]. *)
Definition testTransform : addr -> prop -> string -> completion string :=
  fun obj p result =>
    match p with
    | PKey (KString k) =>
        if String.eqb k "val" then Normal "11"
        else if String.eqb k "bar" then Normal ("'" ++ result ++ "L'")
        else Normal result
    | PIndex 0 => if Nat.eqb obj 2 then Normal "LOL" else Normal result
    | _ => Normal result
    end.

(** The filter hook of the test: every key but [foo]. *)
Definition testFilter : addr -> prop -> completion bool :=
  fun _ p =>
    match p with
    | PKey (KString k) => Normal (negb (String.eqb k "foo"))
    | _ => Normal true
    end.

(** * Vocabulary of the further properties *)

(** ** Texts *)

Definition isLineBreak (c : ascii) : bool :=
  Ascii.eqb c CR || Ascii.eqb c LF.

(** [s] holds no line break. *)
Definition oneLine (s : string) : bool :=
  allChars (fun c => negb (isLineBreak c)) s.

(** [s] holds no line break and no quote [q]: nothing the text fallback
    escapes. *)
Definition nothingToEscape (q : ascii) (s : string) : bool :=
  allChars (fun c => negb (isLineBreak c) && negb (Ascii.eqb c q)) s.

(** What the replacement of line 213 makes of a text: a single quote gets
    a backslash, unless one stands before it already. *)
Fixpoint escapeSingle (s : string) : string :=
  match s with
  | EmptyString => EmptyString
  | String c s' =>
      if Ascii.eqb c BACKSLASH then
        match s' with
        | EmptyString => String c EmptyString
        | String d s'' =>
            if Ascii.eqb d SQUOTE
            then String c (String d (escapeSingle s''))
            else String c (escapeSingle s')
        end
      else if Ascii.eqb c SQUOTE
      then String BACKSLASH (String SQUOTE (escapeSingle s'))
      else String c (escapeSingle s')
  end.

(** ** Hooks *)

(** What the transform of [o] makes of the text [x] of the member [p] of
    the composite at [a]; with no transform the text is kept. *)
Definition askTransform (o : PrettyPrintOptions) (a : addr) (p : prop)
           (x : string) : completion string :=
  match Options.transform o with
  | Some g => g a p x
  | None => Normal x
  end.

(** The options [o] without hooks. *)
Definition withoutHooks (o : PrettyPrintOptions) : PrettyPrintOptions :=
  withTransform (withFilter o None) None.

(** Hooks that do nothing: the filter accepts every key and the transform
    returns the text it is given. *)
Definition hooksIdle (o : PrettyPrintOptions) : Prop :=
  (forall a k, askFilter o a k = Normal true) /\
  (forall a p x, askTransform o a p x = Normal x).

(** A filter that accepts whatever it is asked, and a transform that
    returns the text it is given. *)
Definition acceptAll : addr -> prop -> completion bool :=
  fun _ _ => Normal true.

Definition keepResult : addr -> prop -> string -> completion string :=
  fun _ _ x => Normal x.

(** The answer of the filter of [o] read as a condition: a key is kept
    when the hook returns true for it. *)
Definition accepts (o : PrettyPrintOptions) (a : addr) (k : key) : bool :=
  match askFilter o a k with
  | Normal b => b
  | Abrupt _ => false
  end.

(** The options of the filter test, and options with idle hooks. *)
Definition optionsTestFilter : PrettyPrintOptions :=
  withFilter noOptions (Some testFilter).

Definition optionsIdle : PrettyPrintOptions :=
  withTransform (withFilter noOptions (Some acceptAll)) (Some keepResult).

(** A filter that raises on the key [boom], and [{boom: 1}]. *)
Definition raisingFilter : addr -> prop -> completion bool :=
  fun _ p =>
    match p with
    | PKey (KString k) =>
        if String.eqb k "boom" then Abrupt (Thrown "filter")
        else Normal true
    | _ => Normal true
    end.

Definition heapBoom : heap := [OObject [field "boom" (num "1")]].

(** ** Acyclic value graphs *)

(** [descends rank n v]: a reference [v] names an object of rank below
    [n]. *)
Definition descends (rank : addr -> nat) (n : nat) (v : value) : bool :=
  match v with VRef b => (rank b <? n)%nat | _ => true end.

(** [acyclicBy rank h]: every reference an object of [h] holds names an
    object of smaller rank, so no object reaches itself. *)
Definition acyclicBy (rank : addr -> nat) (h : heap) : bool :=
  forallb (fun a => match nth_error h a with
                    | Some obj => objectAll (descends rank (rank a)) obj
                    | None => true
                    end)
          (seq 0 (List.length h)).

(** [below rank s v]: the value is of rank below every entry of [s]. *)
Definition below (rank : addr -> nat) (s : list addr) (v : value) : bool :=
  forallb (fun b => descends rank (rank b) v) s.

(** [lifts s m]: what [m] does on a stack it does on that stack with [s]
    under it. *)
Definition lifts (s : list addr) {A} (m : M A) : Prop :=
  forall t r t' tr,
    m t = (r, t', tr) -> m (s ++ t)%list = (r, (s ++ t')%list, tr).

(** A rank for [heapReused]. *)
Definition rankReused (a : addr) : nat := if Nat.eqb a 0 then 0 else 1.

(** ** Indentation *)

(** [shift p t]: the text [t] with [p] put after each of its line breaks. *)
Definition shiftChar (p : string) (c : ascii) : string :=
  if Ascii.eqb c LF then String LF p else str c.

Definition shift (p : string) (t : string) : string :=
  mapChars (shiftChar p) t.

(** [s] holds no line feed. *)
Definition noLF (s : string) : bool :=
  allChars (fun c => negb (Ascii.eqb c LF)) s.

(** The texts the renderer writes as they are hold no line feed: the text
    of a number, function, symbol or regular expression, the ISO text of a
    Date, the description of a symbol key. *)
Definition flatValue (v : value) : bool :=
  match v with
  | VAtom a => if isPlain a then noLF (String_ a) else true
  | VDate (Some iso) => noLF iso
  | VDate None => true
  | VRef _ => true
  end.

Definition flatKey (k : key) : bool :=
  match k with
  | KString _ => true
  | KSymbol s => noLF (description s)
  end.

Definition flatObject (o : object) : bool :=
  match o with
  | OArray elems => forallb (slotAll flatValue) elems
  | OObject props =>
      forallb (fun p => flatValue (content p) && flatKey (name p)) props
  end.

Definition flatHeap (h : heap) : bool := forallb flatObject h.

(** [carries R m m']: when [m] returns, [m'] returns on the same stack a
    value related to the one of [m] by [R], with the same pushes and
    pops. *)
Definition carries {A} (R : A -> A -> Prop) (m m' : M A) : Prop :=
  forall s x s1 tr,
    m s = (Ok x, s1, tr) -> exists y, m' s = (Ok y, s1, tr) /\ R x y.

(** A part of a composite at the pad [q] and the same part at the pad
    [p ++ q]. *)
Definition shiftedPart (p : string) (x y : string) : Prop :=
  p ++ shift p x = y ++ p.

(** ** The compaction pass on clean texts *)

Definition noAt (s : string) : bool :=
  allChars (fun c => negb (Ascii.eqb c "@")) s.

Definition noDollar (s : string) : bool :=
  allChars (fun c => negb (Ascii.eqb c DOLLAR)) s.

(** [String.prototype.replace] when the replacement text holds no dollar:
    each match is replaced by the text itself. *)
Fixpoint substFrom (alts : list string) (text : string) (skip : nat)
         (s : string) : string :=
  match s with
  | EmptyString => EmptyString
  | String c s' =>
      match skip with
      | S k => substFrom alts text k s'
      | O =>
          match firstMatch alts s with
          | Some m => text ++ substFrom alts text (String.length m - 1) s'
          | None => String c (substFrom alts text 0 s')
          end
      end
  end.

Definition sentinelList : list string :=
  [NEW_LINE; NEW_LINE_OR_SPACE; PAD; INDENT].

(** The characters between the [@@] of a sentinel: capital letters and
    underscores. *)
Definition coreChar (c : ascii) : bool :=
  let n := nat_of_ascii c in
  ((65 <=? n) && (n <=? 90))%nat || Ascii.eqb c "_".

(** The text of a member as it stands between two tokens: it holds no
    [@], and it is empty or holds a character that is neither a capital
    letter nor an underscore, so it is not the inside of a sentinel. *)
Definition cleanBody (b : string) : bool :=
  noAt b && (String.eqb b EmptyString || negb (allChars coreChar b)).

(** A member of a composite in the assembled text: a hole, or a body and
    whether it is the last member. *)
Definition piece : Type := option (string * bool).

Definition cleanPiece (p : piece) : bool :=
  match p with
  | None => true
  | Some (b, _) => cleanBody b
  end.

(** The part of a member with the sentinels, on one line, and on a line
    of its own after the indentation [ind]. *)
Definition tokPart (p : piece) : string :=
  match p with
  | None => EmptyString
  | Some (b, true) => INDENT ++ b ++ NEW_LINE
  | Some (b, false) => INDENT ++ b ++ "," ++ NEW_LINE_OR_SPACE
  end.

Definition inlinePart (p : piece) : string :=
  match p with
  | None => EmptyString
  | Some (b, true) => b
  | Some (b, false) => b ++ ", "
  end.

Definition linePart (ind : string) (p : piece) : string :=
  match p with
  | None => EmptyString
  | Some (b, true) => ind ++ b ++ str LF
  | Some (b, false) => ind ++ b ++ "," ++ str LF
  end.

(** [rest] begins with a sentinel, or with a character that is neither
    [@] nor a character of the inside of a sentinel. *)
Definition safeHead (rest : string) : bool :=
  existsb (fun t => isPrefix t rest) sentinelList
  || match rest with
     | EmptyString => false
     | String c _ => negb (Ascii.eqb c "@") && negb (coreChar c)
     end.

(** No sentinel begins at the last two characters of a token that stands
    before [rest]. *)
Definition calm (rest : string) : bool :=
  forallb (fun alt => negb (isPrefix (dropChars 2 alt) rest)
                      && negb (isPrefix (dropChars 1 alt) rest))
          sentinelList.


(** The parts between the passes of [expandWhiteSpace]: after the new
    lines are taken out, after the spaces are put in, and after the line
    breaks are put in. *)
Definition afterNewLine (p : piece) : string :=
  match p with
  | None => EmptyString
  | Some (b, true) => INDENT ++ b
  | Some (b, false) => INDENT ++ b ++ "," ++ NEW_LINE_OR_SPACE
  end.

Definition afterSpace (p : piece) : string :=
  match p with
  | None => EmptyString
  | Some (b, true) => INDENT ++ b
  | Some (b, false) => INDENT ++ b ++ ", "
  end.

Definition afterBreaks (p : piece) : string :=
  match p with
  | None => EmptyString
  | Some (b, true) => INDENT ++ b ++ str LF
  | Some (b, false) => INDENT ++ b ++ "," ++ str LF
  end.

(** The options [o] with no [inlineCharacterLimit]. *)
Definition withoutLimit (o : PrettyPrintOptions) : PrettyPrintOptions :=
  {| Options.indent := Options.indent o;
     Options.singleQuotes := Options.singleQuotes o;
     Options.filter := Options.filter o;
     Options.transform := Options.transform o;
     Options.inlineCharacterLimit := None |}.

(** Values and keys whose text cannot be taken for a sentinel: no text
    holds an [@], and a text written without quotes is not made of capital
    letters and underscores only. *)
Definition cleanValue (v : value) : bool :=
  match v with
  | VAtom a => if isPlain a then cleanBody (String_ a) else noAt (String_ a)
  | VDate (Some iso) => noAt iso
  | VDate None => true
  | VRef _ => true
  end.

Definition cleanKey (k : key) : bool := noAt (keyString k).

Definition cleanObject (o : object) : bool :=
  match o with
  | OArray elems => forallb (slotAll cleanValue) elems
  | OObject props =>
      forallb (fun p => cleanValue (content p) && cleanKey (name p)) props
  end.

Definition cleanHeap (h : heap) : bool := forallb cleanObject h.

(** A part with the sentinels and the same part written at the
    indentation [ind]. *)
Definition partPair (ind : string) (x y : string) : Prop :=
  exists p, cleanPiece p = true /\ x = tokPart p /\ y = linePart ind p.

(** * Properties *)

(** ** Computations: running a bind *)

Lemma bind_ok {A B} (m : M A) (k : A -> M B) s a s1 tr1 :
  m s = (Ok a, s1, tr1) ->
  bind m k s =
    (fst (fst (k a s1)), snd (fst (k a s1)), (tr1 ++ snd (k a s1))%list).
Proof.
  intros E. unfold bind. rewrite E.
  destruct (k a s1) as [[r s2] tr2]. reflexivity.
Qed.

Lemma bind_Ok_inv {A B} (m : M A) (k : A -> M B) s b s' tr :
  bind m k s = (Ok b, s', tr) ->
  exists a s1 tr1 tr2,
    m s = (Ok a, s1, tr1) /\ k a s1 = (Ok b, s', tr2) /\
    tr = (tr1 ++ tr2)%list.
Proof.
  unfold bind. destruct (m s) as [[r s1] tr1]. destruct r; try discriminate.
  destruct (k a s1) as [[r2 s2] tr2] eqn:E. intros H. inversion H; subst.
  exists a, s1, tr1, tr2. auto.
Qed.

Lemma frames_ret {A} (a : A) : frames (ret a).
Proof. intros s r s' tr H. inversion H; subst. reflexivity. Qed.

Lemma frames_throw {A} e : frames (@throw A e).
Proof.
  intros s r s' tr H. inversion H; subst. exists []. now rewrite app_nil_r.
Qed.

Lemma frames_outOfFuel {A} : frames (@outOfFuel A).
Proof. intros s r s' tr H. inversion H; subst. exact I. Qed.

Lemma frames_wild {A} : frames (@wild A).
Proof. intros s r s' tr H. inversion H; subst. exact I. Qed.

Lemma frames_call {A} (c : completion A) : frames (call c).
Proof. destruct c; [apply frames_ret | apply frames_throw]. Qed.

Lemma frames_bind {A B} (m : M A) (k : A -> M B) :
  frames m -> (forall a, frames (k a)) -> frames (bind m k).
Proof.
  intros Hm Hk s r s' tr. unfold bind.
  destruct (m s) as [[r1 s1] tr1] eqn:E1. specialize (Hm _ _ _ _ E1).
  destruct r1.
  - destruct (k a s1) as [[r2 s2] tr2] eqn:E2. subst s1.
    intros H. inversion H; subst. exact (Hk _ _ _ _ _ E2).
  - intros H. inversion H; subst. exact Hm.
  - intros H. inversion H; subst. exact I.
  - intros H. inversion H; subst. exact I.
Qed.

Lemma frames_getSeen {A} (k : list addr -> M A) :
  (forall s, frames (k s)) -> frames (bind getSeen k).
Proof.
  intros Hk. apply frames_bind; [| exact Hk].
  intros s r s' tr H. inversion H; subst. reflexivity.
Qed.

(** A push, a computation that frames, a pop: the whole frames too. *)
Lemma frames_scoped {A B} (a : addr) (m : M A) (g : A -> B) :
  frames m ->
  frames (seen_push a ;;; x <- m ;; seen_pop ;;; ret (g x)).
Proof.
  intros Hm s r s' tr. unfold bind at 1. cbn [seen_push].
  unfold bind at 1.
  destruct (m (s ++ [a])%list) as [[r1 s1] tr1] eqn:E1.
  specialize (Hm _ _ _ _ E1). destruct r1; cbn.
  - subst s1. intros H. inversion H; subst. apply removelast_last.
  - intros H. inversion H; subst. destruct Hm as [ext ->].
    exists (a :: ext). now rewrite <- app_assoc.
  - intros H. inversion H; subst. exact I.
  - intros H. inversion H; subst. exact I.
Qed.

Lemma frames_mapSlots f l :
  (forall v i, frames (f v i)) -> forall i, frames (mapSlots f l i).
Proof.
  intros Hf. induction l as [| [v |] l IH]; intros i; cbn [mapSlots].
  - apply frames_ret.
  - apply frames_bind; [apply Hf |]. intros x.
    apply frames_bind; [apply IH |]. intros rest. apply frames_ret.
  - apply frames_bind; [apply IH |]. intros rest. apply frames_ret.
Qed.

Lemma frames_mapKeys f l :
  (forall k i, frames (f k i)) -> forall i, frames (mapKeys f l i).
Proof.
  intros Hf. induction l as [| k l IH]; intros i; cbn [mapKeys].
  - apply frames_ret.
  - apply frames_bind; [apply Hf |]. intros x.
    apply frames_bind; [apply IH |]. intros rest. apply frames_ret.
Qed.

Section BodyFrames.
Variable h : heap.
Variable self : value -> PrettyPrintOptions -> string -> M string.
Hypothesis self_frames : forall v o p, frames (self v o p).

Lemma frames_applyTransform co a p x : frames (applyTransform co a p x).
Proof.
  unfold applyTransform. destruct (Options.transform co).
  - apply frames_call.
  - apply frames_ret.
Qed.

Lemma frames_elementText co tokens pad a len el i :
  frames (elementText self co tokens pad a len el i).
Proof.
  unfold elementText. apply frames_bind; [apply self_frames |]. intros x.
  apply frames_bind; [apply frames_applyTransform |]. intros y.
  apply frames_ret.
Qed.

Lemma frames_keyText co el : frames (keyText self co el).
Proof.
  destruct el as [s | s]; cbn [keyText].
  - destruct (isClassicKey s); [apply frames_ret | apply self_frames].
  - apply frames_ret.
Qed.

Lemma frames_entryText co tokens pad a props len el i :
  frames (entryText self co tokens pad a props len el i).
Proof.
  unfold entryText. apply frames_bind; [apply frames_keyText |]. intros k.
  apply frames_bind; [apply self_frames |]. intros x.
  apply frames_bind; [apply frames_applyTransform |]. intros y.
  apply frames_ret.
Qed.

Lemma frames_body input options pad : frames (body h self input options pad).
Proof.
  unfold body. apply frames_getSeen. intros seen.
  destruct (indexOf seen input); [apply frames_ret |].
  destruct input as [a | [iso |] | a].
  - destruct (isPlain a); apply frames_ret.
  - apply frames_ret.
  - apply frames_throw.
  - destruct (nth_error h a) as [[elems | props] |].
    + destruct (List.length elems =? 0)%nat; [apply frames_ret |].
      apply (frames_scoped a
               (mapSlots (elementText self _ _ pad a (List.length elems))
                         elems 0)).
      apply frames_mapSlots. intros v i. apply frames_elementText.
    + apply frames_bind; [apply frames_call |]. intros objKeys.
      destruct (List.length objKeys =? 0)%nat; [apply frames_ret |].
      apply (frames_scoped a
               (mapKeys (entryText self _ _ pad a props
                                   (List.length objKeys)) objKeys 0)).
      apply frames_mapKeys. intros k i. apply frames_entryText.
    + apply frames_wild.
Qed.
End BodyFrames.

Lemma frames_prettyPrint h fuel :
  forall v o p, frames (prettyPrint h fuel v o p).
Proof.
  induction fuel as [| fuel IH]; intros v o p; cbn [prettyPrint].
  - apply frames_outOfFuel.
  - apply frames_body. exact IH.
Qed.

(** ** Well-formed value graphs *)

Lemma heapAll_slot q h a elems v :
  heapAll q h = true -> nth_error h a = Some (OArray elems) ->
  In (Some v) elems -> q v = true.
Proof.
  intros H E I. unfold heapAll in H. rewrite forallb_forall in H.
  specialize (H _ (nth_error_In _ _ E)). cbn in H.
  rewrite forallb_forall in H. exact (H _ I).
Qed.

Lemma getProp_all q props k :
  q (VAtom AUndefined) = true ->
  forallb (fun p => q (content p)) props = true ->
  q (getProp props k) = true.
Proof.
  intros U. induction props as [| p ps IH]; cbn; intros H.
  - exact U.
  - apply andb_prop in H. destruct H as [H1 H2].
    destruct (key_eqb (name p) k); auto.
Qed.

Lemma heapAll_prop q h a props k :
  q (VAtom AUndefined) = true ->
  heapAll q h = true -> nth_error h a = Some (OObject props) ->
  q (getProp props k) = true.
Proof.
  intros U H E. unfold heapAll in H. rewrite forallb_forall in H.
  specialize (H _ (nth_error_In _ _ E)). cbn in H.
  now apply getProp_all.
Qed.

Lemma filter_length_le {A} (p q : A -> bool) l :
  (forall x, q x = true -> p x = true) ->
  List.length (filter q l) <= List.length (filter p l).
Proof.
  intros I. induction l as [| x l IH]; cbn; [lia |].
  destruct (q x) eqn:Q.
  - rewrite (I _ Q). cbn. lia.
  - destruct (p x); cbn; lia.
Qed.

Lemma filter_length_lt {A} (p q : A -> bool) l x :
  (forall y, q y = true -> p y = true) ->
  In x l -> p x = true -> q x = false ->
  List.length (filter q l) < List.length (filter p l).
Proof.
  intros I. induction l as [| y l IH]; cbn; [tauto |].
  intros [-> | Hin] Px Qx.
  - rewrite Px, Qx. cbn. pose proof (filter_length_le p q l I). lia.
  - specialize (IH Hin Px Qx). destruct (q y) eqn:Q.
    + rewrite (I _ Q). cbn. lia.
    + destruct (p y); cbn; lia.
Qed.

Lemma onStack_app (s t : list addr) (a : addr) : onStack (s ++ t) a = onStack s a || onStack t a.
Proof. unfold onStack. apply existsb_app. Qed.

Lemma room_push h (s : list addr) (a : addr) :
  a < List.length h -> onStack s a = false ->
  room h (s ++ [a]) < room h s.
Proof.
  intros L N. unfold room. apply filter_length_lt with (x := a).
  - intros y. rewrite onStack_app. destruct (onStack s y); cbn; auto.
  - apply in_seq. lia.
  - now rewrite N.
  - rewrite onStack_app. cbn. rewrite Nat.eqb_refl, orb_true_r. reflexivity.
Qed.

(** ** How a call ends *)

Lemma ends_bind P {A B} (m : M A) (k : A -> M B) s :
  ends P m s ->
  (forall a s1 tr, m s = (Ok a, s1, tr) -> ends P (k a) s1) ->
  ends P (bind m k) s.
Proof.
  unfold ends, outcomeOf, bind. intros Hm Hk.
  destruct (m s) as [[r s1] tr1]. destruct r; cbn in *; auto.
  specialize (Hk a s1 tr1 eq_refl).
  destruct (k a s1) as [[r2 s2] tr2]. exact Hk.
Qed.

Lemma ends_bind_framed P {A B} (m : M A) (k : A -> M B) s :
  frames m -> ends P m s -> (forall a, ends P (k a) s) -> ends P (bind m k) s.
Proof.
  intros F Hm Hk. apply ends_bind; [exact Hm |].
  intros a s1 tr E. specialize (F _ _ _ _ E). cbn in F. subst s1. apply Hk.
Qed.

Lemma ends_ret P {A} (a : A) s : P KOk = true -> ends P (ret a) s.
Proof. intros H. exact H. Qed.

Lemma ends_mapSlots P f l s :
  P KOk = true ->
  (forall v i, frames (f v i)) ->
  (forall v i, In (Some v) l -> ends P (f v i) s) ->
  forall i, ends P (mapSlots f l i) s.
Proof.
  intros HOk Ff. induction l as [| [v |] l IH]; intros Hf i; cbn [mapSlots].
  - now apply ends_ret.
  - apply ends_bind_framed; [apply Ff | apply Hf; now left |]. intros x.
    apply ends_bind_framed.
    + now apply frames_mapSlots.
    + apply IH. intros w j Hw. apply Hf. now right.
    + intros rest. now apply ends_ret.
  - apply ends_bind_framed.
    + now apply frames_mapSlots.
    + apply IH. intros w j Hw. apply Hf. now right.
    + intros rest. now apply ends_ret.
Qed.

Lemma ends_mapKeys P f l s :
  P KOk = true ->
  (forall k i, frames (f k i)) ->
  (forall k i, ends P (f k i) s) ->
  forall i, ends P (mapKeys f l i) s.
Proof.
  intros HOk Ff Hf. induction l as [| k l IH]; intros i; cbn [mapKeys].
  - now apply ends_ret.
  - apply ends_bind_framed; [apply Ff | apply Hf |]. intros x.
    apply ends_bind_framed; [now apply frames_mapKeys | apply IH |].
    intros rest. now apply ends_ret.
Qed.

Lemma orElse_None {A} (x : option A) : orElse x None = x.
Proof. now destruct x. Qed.

Lemma filter_spread o :
  Options.filter (spread defaultOptions o) = Options.filter o.
Proof. apply orElse_None. Qed.

Lemma transform_spread o :
  Options.transform (spread defaultOptions o) = Options.transform o.
Proof. apply orElse_None. Qed.

Lemma limit_spread o :
  Options.inlineCharacterLimit (spread defaultOptions o)
  = Options.inlineCharacterLimit o.
Proof. apply orElse_None. Qed.

Lemma spread_idem o :
  spread defaultOptions (spread defaultOptions o) = spread defaultOptions o.
Proof.
  destruct o as [i q f t l]. unfold spread. cbn.
  destruct i, q, f, t, l; reflexivity.
Qed.

Lemma hooksTotal_spread o :
  hooksTotal o -> hooksTotal (spread defaultOptions o).
Proof.
  unfold hooksTotal. now rewrite filter_spread, transform_spread.
Qed.

Lemma filterKeys_total f l :
  (forall k, exists b, f k = Normal b) ->
  exists ks, filterKeys f l = Normal ks.
Proof.
  intros T. induction l as [| k l [ks IH]]; cbn.
  - now exists [].
  - destruct (T k) as [b ->]. rewrite IH. eexists. reflexivity.
Qed.

Lemma objKeysOf_total o a props :
  hooksTotal o -> exists ks, objKeysOf o a props = Normal ks.
Proof.
  intros [Hf _]. unfold objKeysOf.
  destruct (Options.filter o) as [f |] eqn:E.
  - apply filterKeys_total. intros k. apply (Hf f eq_refl).
  - eexists. reflexivity.
Qed.

Lemma nth_error_closed (h : heap) a :
  closedValue h (VRef a) = true -> nth_error h a <> None.
Proof.
  cbn. intros L. apply Nat.ltb_lt in L. now apply nth_error_Some.
Qed.

Section Ends.
Variable P : kind -> bool.
Variable h : heap.
Hypothesis P_ok : P KOk = true.
Hypothesis P_wild : P KWild = false -> closedHeap h = true.
Hypothesis P_throw : P KThrow = false -> datesValid h = true.

Lemma ends_call {A} (c : completion A) s :
  (P KThrow = false -> exists a, c = Normal a) -> ends P (call c) s.
Proof.
  intros H. destruct c as [a | e]; [exact P_ok |].
  unfold ends. cbn. destruct (P KThrow); [reflexivity |].
  destruct (H eq_refl) as [a Ha]. discriminate.
Qed.

Lemma ends_applyTransform co a p x s :
  (P KThrow = false -> hooksTotal co) ->
  ends P (applyTransform co a p x) s.
Proof.
  intros H. unfold applyTransform.
  destruct (Options.transform co) as [g |] eqn:E; [| exact P_ok].
  apply ends_call. intros N. destruct (H N) as [_ Hg].
  apply (Hg g E).
Qed.

Lemma fit_member fuel a v o s :
  fit P h (S fuel) (VRef a) o s ->
  a < List.length h -> onStack s a = false ->
  (P KWild = false -> closedValue h v = true) ->
  (P KThrow = false -> validValue v = true) ->
  fit P h fuel v (spread defaultOptions o) (s ++ [a]).
Proof.
  intros (F1 & F2 & F3) L N C V. split; [| split].
  - intros Q. specialize (F1 Q).
    apply Nat.lt_le_trans with (room h s); [exact (room_push h s a L N) | lia].
  - exact C.
  - intros Q. split; [now apply V |].
    apply hooksTotal_spread. now apply F3.
Qed.

Lemma ends_pop_ret {A} (x : A) s : ends P (seen_pop ;;; ret x) s.
Proof. exact P_ok. Qed.

Lemma ends_prettyPrint fuel :
  forall v o pad s, fit P h fuel v o s -> ends P (prettyPrint h fuel v o pad) s.
Proof.
  induction fuel as [| fuel IH]; intros v o pad s F; cbn [prettyPrint].
  - unfold ends. cbn. destruct F as (F1 & _).
    destruct (P KOutOfFuel); [reflexivity |]. specialize (F1 eq_refl). lia.
  - unfold body. apply ends_bind; [exact P_ok |].
    intros s0 s1 tr E. inversion E; subst s0 s1 tr. clear E.
    destruct (indexOf s v) eqn:Hon; [exact P_ok |].
    destruct v as [a | [iso |] | a].
    + destruct (isPlain a); exact P_ok.
    + exact P_ok.
    + unfold ends. cbn. destruct F as (_ & _ & F3).
      destruct (P KThrow); [reflexivity |].
      destruct (F3 eq_refl) as [V _]. discriminate.
    + cbn in Hon. fold (onStack s a) in Hon.
      destruct (nth_error h a) as [[elems | props] |] eqn:Ha.
      * assert (L : a < List.length h)
          by (apply nth_error_Some; congruence).
        destruct (List.length elems =? 0)%nat; [exact P_ok |].
        apply ends_bind; [exact P_ok |].
        intros u s1 tr E. inversion E; subst u s1 tr. clear E.
        apply ends_bind_framed.
        -- apply frames_mapSlots. intros w i.
           apply frames_elementText. apply frames_prettyPrint.
        -- apply ends_mapSlots; [exact P_ok | |].
           ++ intros w i. apply frames_elementText. apply frames_prettyPrint.
           ++ intros w i Hw. unfold elementText.
              apply ends_bind_framed; [apply frames_prettyPrint | |].
              ** apply IH. apply fit_member; auto.
                 --- intros Q. apply (heapAll_slot _ h a elems); auto.
                 --- intros Q. apply (heapAll_slot _ h a elems); auto.
              ** intros x. apply ends_bind_framed.
                 --- apply frames_applyTransform.
                 --- apply ends_applyTransform. intros Q.
                     apply hooksTotal_spread. now apply F.
                 --- intros y. exact P_ok.
        -- intros parts. apply ends_pop_ret.
      * assert (L : a < List.length h)
          by (apply nth_error_Some; congruence).
        apply ends_bind_framed; [apply frames_call | |].
        -- apply ends_call. intros Q. apply objKeysOf_total.
           apply hooksTotal_spread. now apply F.
        -- intros objKeys.
           destruct (List.length objKeys =? 0)%nat; [exact P_ok |].
           apply ends_bind; [exact P_ok |].
           intros u s1 tr E. inversion E; subst u s1 tr. clear E.
           assert (Fm : forall k, fit P h fuel (getProp props k)
                                      (spread defaultOptions o) (s ++ [a])).
           { intros k. apply fit_member; auto.
             - intros Q. apply (heapAll_prop _ h a props); auto.
             - intros Q. apply (heapAll_prop _ h a props); auto. }
           apply ends_bind_framed.
           ++ apply frames_mapKeys. intros k i.
              apply frames_entryText. apply frames_prettyPrint.
           ++ apply ends_mapKeys; [exact P_ok | |].
              ** intros k i. apply frames_entryText. apply frames_prettyPrint.
              ** intros k i. unfold entryText.
                 apply ends_bind_framed.
                 --- apply frames_keyText. apply frames_prettyPrint.
                 --- destruct k as [t | t]; cbn [keyText]; [| exact P_ok].
                     destruct (isClassicKey t); [exact P_ok |].
                     apply IH. destruct (Fm (KString t)) as (G1 & G2 & G3).
                     split; [exact G1 | split; [reflexivity |]].
                     intros Q. split; [reflexivity | now apply G3].
                 --- intros key0. apply ends_bind_framed;
                       [apply frames_prettyPrint | apply IH; apply Fm |].
                     intros x. apply ends_bind_framed.
                     +++ apply frames_applyTransform.
                     +++ apply ends_applyTransform. intros Q.
                         apply hooksTotal_spread. now apply F.
                     +++ intros y. exact P_ok.
           ++ intros parts. apply ends_pop_ret.
      * unfold ends. cbn. destruct F as (_ & F2 & _).
        destruct (P KWild); [reflexivity |].
        exfalso. apply (nth_error_closed h a); auto.
Qed.
End Ends.

(** ** The run of a composite *)

Lemma scoped_run {A B} (a : addr) (m : M A) (g : A -> B) s :
  (seen_push a ;;; x <- m ;; seen_pop ;;; ret (g x)) s =
  match m (s ++ [a])%list with
  | (Ok x, s1, tr) => (Ok (g x), removelast s1, (Push a :: tr ++ [Pop])%list)
  | (Throw e, s1, tr) => (Throw e, s1, Push a :: tr)
  | (OutOfFuel, s1, tr) => (OutOfFuel, s1, Push a :: tr)
  | (Wild, s1, tr) => (Wild, s1, Push a :: tr)
  end.
Proof.
  unfold bind at 1. cbn [seen_push]. unfold bind at 1.
  destruct (m (s ++ [a])%list) as [[r s1] tr]. destruct r; reflexivity.
Qed.

Lemma bind_getSeen {A} (k : list addr -> M A) s : bind getSeen k s = k s s.
Proof.
  unfold bind, getSeen. destruct (k s s) as [[r s2] tr2]. reflexivity.
Qed.

Lemma bind_ret {A B} (a : A) (k : A -> M B) s : bind (ret a) k s = k a s.
Proof.
  unfold bind, ret. destruct (k a s) as [[r s2] tr2]. reflexivity.
Qed.

Lemma body_array h self a elems o pad s :
  nth_error h a = Some (OArray elems) ->
  onStack s a = false ->
  elems <> [] ->
  body h self (VRef a) o pad s =
    (seen_push a ;;;
     parts <- mapSlots
                (elementText self (spread defaultOptions o)
                   (tokensOf (spread defaultOptions o) pad) pad a
                   (List.length elems)) elems 0 ;;
     seen_pop ;;;
     ret (expandWhiteSpace (spread defaultOptions o)
            (tokensOf (spread defaultOptions o) pad) pad
            ("[" ++ tok_newLine (tokensOf (spread defaultOptions o) pad)
                 ++ join parts
                 ++ tok_pad (tokensOf (spread defaultOptions o) pad)
                 ++ "]"))) s.
Proof.
  intros Ha N Ne. unfold body. rewrite bind_getSeen. cbn [indexOf].
  fold (onStack s a). rewrite N, Ha.
  destruct elems as [| e elems]; [congruence |]. reflexivity.
Qed.

Lemma body_object h self a props keys o pad s :
  nth_error h a = Some (OObject props) ->
  onStack s a = false ->
  objKeysOf (spread defaultOptions o) a props = Normal keys ->
  keys <> [] ->
  body h self (VRef a) o pad s =
    (seen_push a ;;;
     parts <- mapKeys
                (entryText self (spread defaultOptions o)
                   (tokensOf (spread defaultOptions o) pad) pad a props
                   (List.length keys)) keys 0 ;;
     seen_pop ;;;
     ret (expandWhiteSpace (spread defaultOptions o)
            (tokensOf (spread defaultOptions o) pad) pad
            ("{" ++ tok_newLine (tokensOf (spread defaultOptions o) pad)
                 ++ join parts
                 ++ tok_pad (tokensOf (spread defaultOptions o) pad)
                 ++ "}"))) s.
Proof.
  intros Ha N K Ne. unfold body. rewrite bind_getSeen. cbn [indexOf].
  fold (onStack s a). rewrite N, Ha, K. cbn [call]. rewrite bind_ret.
  destruct keys as [| k keys]; [congruence |]. reflexivity.
Qed.

Lemma mapSlots_Ok f l :
  (forall v i, frames (f v i)) ->
  forall i s parts s' tr,
    mapSlots f l i s = (Ok parts, s', tr) ->
    s' = s /\ List.length parts = List.length l /\
    forall j,
      match nth_error l j with
      | Some (Some v) =>
          exists x tr', f v (i + j) s = (Ok x, s, tr')
                        /\ nth_error parts j = Some x
      | Some None => nth_error parts j = Some EmptyString
      | None => True
      end.
Proof.
  intros Ff. induction l as [| [v |] l IH]; intros i s parts s' tr;
    cbn [mapSlots].
  - intros H. inversion H; subst. repeat split; auto.
    intros j. now destruct j.
  - intros H. apply bind_Ok_inv in H.
    destruct H as (x & s1 & tr1 & tr2 & E1 & E2 & _).
    pose proof (Ff _ _ _ _ _ _ E1) as Fs. cbn in Fs. subst s1.
    apply bind_Ok_inv in E2.
    destruct E2 as (rest & s2 & tr3 & tr4 & E3 & E4 & _).
    inversion E4; subst. destruct (IH _ _ _ _ _ E3) as (-> & L & Hj).
    repeat split; [cbn; now rewrite L |].
    intros [| j]; cbn [nth_error].
    + exists x, tr1. now rewrite Nat.add_0_r.
    + specialize (Hj j). rewrite Nat.add_succ_r. exact Hj.
  - intros H. apply bind_Ok_inv in H.
    destruct H as (rest & s2 & tr3 & tr4 & E3 & E4 & _).
    inversion E4; subst. destruct (IH _ _ _ _ _ E3) as (-> & L & Hj).
    repeat split; [cbn; now rewrite L |].
    intros [| j]; cbn [nth_error].
    + reflexivity.
    + specialize (Hj j). rewrite Nat.add_succ_r. exact Hj.
Qed.

Lemma mapKeys_Ok f l :
  (forall k i, frames (f k i)) ->
  forall i s parts s' tr,
    mapKeys f l i s = (Ok parts, s', tr) ->
    s' = s /\ List.length parts = List.length l /\
    forall j k, nth_error l j = Some k ->
      exists x tr', f k (i + j) s = (Ok x, s, tr')
                    /\ nth_error parts j = Some x.
Proof.
  intros Ff. induction l as [| k0 l IH]; intros i s parts s' tr;
    cbn [mapKeys].
  - intros H. inversion H; subst. repeat split; auto.
    intros j k. now destruct j.
  - intros H. apply bind_Ok_inv in H.
    destruct H as (x & s1 & tr1 & tr2 & E1 & E2 & _).
    pose proof (Ff _ _ _ _ _ _ E1) as Fs. cbn in Fs. subst s1.
    apply bind_Ok_inv in E2.
    destruct E2 as (rest & s2 & tr3 & tr4 & E3 & E4 & _).
    inversion E4; subst. destruct (IH _ _ _ _ _ E3) as (-> & L & Hj).
    repeat split; [cbn; now rewrite L |].
    intros [| j] k; cbn [nth_error].
    + intros K. inversion K; subst. exists x, tr1. now rewrite Nat.add_0_r.
    + intros K. rewrite Nat.add_succ_r. now apply Hj.
Qed.

Lemma applyTransform_Ok_inv co a p x y s s' tr :
  applyTransform co a p x s = (Ok y, s', tr) ->
  s' = s /\ tr = [] /\
  match Options.transform co with
  | Some g => g a p x = Normal y
  | None => y = x
  end.
Proof.
  unfold applyTransform. destruct (Options.transform co) as [g |].
  - destruct (g a p x); cbn; intros H; inversion H; subst; auto.
  - cbn. intros H. inversion H; subst. auto.
Qed.

Lemma elementText_Ok_inv h fuel co tokens pad a len el i s x s' tr :
  elementText (prettyPrint h fuel) co tokens pad a len el i s
  = (Ok x, s', tr) ->
  exists value0 value1,
    rendersTo h fuel el co (pad ++ indentOf co) s value0 /\
    applyTransform co a (PIndex i) value0 s = (Ok value1, s, []) /\
    x = tok_indent tokens ++ value1 ++ eolOf tokens len i.
Proof.
  unfold elementText. intros H. apply bind_Ok_inv in H.
  destruct H as (value0 & s1 & tr1 & tr2 & E1 & E2 & _).
  pose proof (frames_prettyPrint h fuel _ _ _ _ _ _ _ E1) as Fs.
  cbn in Fs. subst s1.
  apply bind_Ok_inv in E2.
  destruct E2 as (value1 & s2 & tr3 & tr4 & E3 & E4 & _).
  pose proof (applyTransform_Ok_inv _ _ _ _ _ _ _ _ E3) as (-> & -> & _).
  inversion E4; subst.
  exists value0, value1. repeat split; auto. now exists tr1.
Qed.

(** ** Strings *)

Lemma append_assoc (x y z : string) : (x ++ y) ++ z = x ++ (y ++ z).
Proof. induction x as [| c x IH]; cbn; [reflexivity | now rewrite IH]. Qed.

Lemma append_nil_r (x : string) : x ++ EmptyString = x.
Proof. induction x as [| c x IH]; cbn; [reflexivity | now rewrite IH]. Qed.


(** ** Calls that return *)

Lemma wellFormed_fit h v o s fuel P :
  wellFormed h v o -> room h s < fuel -> fit P h fuel v o s.
Proof.
  intros (_ & _ & C & V & T) R. repeat split; auto; apply T.
Qed.

Lemma prettyPrint_returns h fuel v o pad s :
  wellFormed h v o -> room h s < fuel ->
  exists t, rendersTo h fuel v o pad s t.
Proof.
  intros W R.
  assert (E : ends onlyOk (prettyPrint h fuel v o pad) s).
  { apply ends_prettyPrint; try reflexivity.
    - intros _. apply W.
    - intros _. apply W.
    - now apply wellFormed_fit. }
  unfold ends, outcomeOf in E.
  destruct (prettyPrint h fuel v o pad s) as [[r s'] tr] eqn:Run.
  destruct r; try discriminate.
  pose proof (frames_prettyPrint h fuel v o pad _ _ _ _ Run) as F. cbn in F.
  subst s'. exists a, tr. exact Run.
Qed.

Lemma room_le h s : room h s <= List.length h.
Proof.
  unfold room.
  pose proof (filter_length_le (fun _ => true)
                (fun a => negb (onStack s a)) (seq 0 (List.length h))
                (fun _ _ => eq_refl)) as H.
  rewrite (forallb_filter_id (fun _ : nat => true)) in H
    by (apply forallb_forall; reflexivity).
  now rewrite length_seq in H.
Qed.

(** The run of a composite with members that returns. *)
Lemma composite_Ok_inv h fuel a o pad s t s' tr :
  hasMembers h o a = true -> onStack s a = false ->
  prettyPrint h (S fuel) (VRef a) o pad s = (Ok t, s', tr) ->
  exists opening closing parts,
    membersOf h fuel o pad s a opening closing parts /\
    t = expandWhiteSpace (spread defaultOptions o)
          (tokensOf (spread defaultOptions o) pad) pad
          (assemble (tokensOf (spread defaultOptions o) pad)
                    opening closing parts) /\
    s' = s /\
    exists tr', tr = (Push a :: tr' ++ [Pop])%list.
Proof.
  intros Hm N Run. unfold hasMembers in Hm. unfold membersOf.
  cbn [prettyPrint] in Run.
  destruct (nth_error h a) as [[elems | props] |] eqn:Ha; try discriminate.
  - assert (Ne : elems <> []) by (intros ->; discriminate).
    rewrite (body_array _ _ _ _ _ _ _ Ha N Ne), scoped_run in Run.
    match type of Run with
    | match ?X with _ => _ end = _ => destruct X as [[r s1] tr1] eqn:E
    end.
    destruct r; try discriminate. inversion Run; subst. clear Run.
    pose proof (frames_mapSlots _ elems
                  (fun v i => frames_elementText _ (frames_prettyPrint h fuel)
                                _ _ _ _ _ v i) 0 _ _ _ _ E) as F.
    cbn in F. subst s1.
    exists "[", "]", a0. repeat split.
    + now exists tr1.
    + apply removelast_last.
    + now exists tr1.
  - destruct (objKeysOf (spread defaultOptions o) a props)
      as [keys | e] eqn:K; try discriminate.
    assert (Ne : keys <> []) by (intros ->; discriminate).
    rewrite (body_object _ _ _ _ _ _ _ _ Ha N K Ne), scoped_run in Run.
    match type of Run with
    | match ?X with _ => _ end = _ => destruct X as [[r s1] tr1] eqn:E
    end.
    destruct r; try discriminate. inversion Run; subst. clear Run.
    pose proof (frames_mapKeys _ keys
                  (fun k i => frames_entryText _ (frames_prettyPrint h fuel)
                                _ _ _ _ _ _ k i) 0 _ _ _ _ E) as F.
    cbn in F. subst s1.
    exists "{", "}", a0. repeat split.
    + now exists keys, tr1.
    + apply removelast_last.
    + now exists tr1.
Qed.

Lemma tokensOf_limit co pad limit :
  Options.inlineCharacterLimit co = Some limit -> tokensOf co pad = sentinels.
Proof. unfold tokensOf. now intros ->. Qed.

Lemma prettyPrint_text h fuel s0 o pad s :
  prettyPrint h (S fuel) (VAtom (AString s0)) o pad s
  = (Ok (textFallback (spread defaultOptions o) s0), s, []).
Proof. reflexivity. Qed.

Lemma keyText_Ok_inv h fuel co k s key0 s' tr :
  keyText (prettyPrint h fuel) co k s = (Ok key0, s', tr) ->
  key0 = keyOut co k /\ s' = s.
Proof.
  destruct k as [t | t]; cbn [keyText keyOut].
  - destruct (isClassicKey t).
    + intros H. inversion H; subst. auto.
    + destruct fuel as [| fuel]; [discriminate |].
      rewrite prettyPrint_text. intros H. inversion H; subst. auto.
  - intros H. inversion H; subst. auto.
Qed.

Lemma entryText_Ok_inv h fuel co tokens pad a props len el i s x s' tr :
  entryText (prettyPrint h fuel) co tokens pad a props len el i s
  = (Ok x, s', tr) ->
  exists value0 value1,
    rendersTo h fuel (getProp props el) co (pad ++ indentOf co) s value0 /\
    applyTransform co a (PKey el) value0 s = (Ok value1, s, []) /\
    x = tok_indent tokens ++ keyOut co el ++ ": " ++ value1
                   ++ eolOf tokens len i.
Proof.
  unfold entryText. intros H. apply bind_Ok_inv in H.
  destruct H as (key0 & s0 & tr0 & tr0' & E0 & H & _).
  apply keyText_Ok_inv in E0. destruct E0 as [-> ->].
  apply bind_Ok_inv in H.
  destruct H as (value0 & s1 & tr1 & tr2 & E1 & E2 & _).
  pose proof (frames_prettyPrint h fuel _ _ _ _ _ _ _ E1) as Fs.
  cbn in Fs. subst s1.
  apply bind_Ok_inv in E2.
  destruct E2 as (value1 & s2 & tr3 & tr4 & E3 & E4 & _).
  pose proof (applyTransform_Ok_inv _ _ _ _ _ _ _ _ E3) as (-> & -> & _).
  inversion E4; subst.
  exists value0, value1. repeat split; auto. now exists tr1.
Qed.

(** ** More fuel changes nothing *)

Lemma extends_refl {A} (m : M A) : extends m m.
Proof. intros s r s' tr H _. exact H. Qed.

Lemma extends_bind {A B} (m m' : M A) (k k' : A -> M B) :
  extends m m' -> (forall a, extends (k a) (k' a)) ->
  extends (bind m k) (bind m' k').
Proof.
  intros Hm Hk s r s' tr. unfold bind.
  destruct (m s) as [[r1 s1] tr1] eqn:E1.
  destruct r1.
  - rewrite (Hm _ _ _ _ E1) by discriminate.
    destruct (k a s1) as [[r2 s2] tr2] eqn:E2.
    intros H N. inversion H; subst.
    now rewrite (Hk _ _ _ _ _ E2 N).
  - intros H N. rewrite (Hm _ _ _ _ E1) by discriminate. exact H.
  - intros H N. inversion H; subst. now elim N.
  - intros H N. rewrite (Hm _ _ _ _ E1) by discriminate. exact H.
Qed.

Lemma extends_mapSlots f g l :
  (forall v i, extends (f v i) (g v i)) ->
  forall i, extends (mapSlots f l i) (mapSlots g l i).
Proof.
  intros E. induction l as [| [v |] l IH]; intros i; cbn [mapSlots].
  - apply extends_refl.
  - apply extends_bind; [apply E |]. intros x.
    apply extends_bind; [apply IH |]. intros rest. apply extends_refl.
  - apply extends_bind; [apply IH |]. intros rest. apply extends_refl.
Qed.

Lemma extends_mapKeys f g l :
  (forall k i, extends (f k i) (g k i)) ->
  forall i, extends (mapKeys f l i) (mapKeys g l i).
Proof.
  intros E. induction l as [| k l IH]; intros i; cbn [mapKeys].
  - apply extends_refl.
  - apply extends_bind; [apply E |]. intros x.
    apply extends_bind; [apply IH |]. intros rest. apply extends_refl.
Qed.

Lemma extends_body h self self' :
  (forall v o p, extends (self v o p) (self' v o p)) ->
  forall v o p, extends (body h self v o p) (body h self' v o p).
Proof.
  intros E v o p. unfold body.
  apply extends_bind; [apply extends_refl |]. intros seen.
  destruct (indexOf seen v); [apply extends_refl |].
  destruct v as [a | d | a]; try apply extends_refl.
  destruct (nth_error h a) as [[elems | props] |]; try apply extends_refl.
  - destruct (List.length elems =? 0)%nat; [apply extends_refl |].
    apply extends_bind; [apply extends_refl |]. intros _.
    apply extends_bind; [| intros parts; apply extends_refl].
    apply extends_mapSlots. intros v i. unfold elementText.
    apply extends_bind; [apply E |]. intros x. apply extends_refl.
  - apply extends_bind; [apply extends_refl |]. intros keys.
    destruct (List.length keys =? 0)%nat; [apply extends_refl |].
    apply extends_bind; [apply extends_refl |]. intros _.
    apply extends_bind; [| intros parts; apply extends_refl].
    apply extends_mapKeys. intros k i. unfold entryText.
    apply extends_bind.
    + destruct k as [t | t]; cbn [keyText]; [| apply extends_refl].
      destruct (isClassicKey t); [apply extends_refl | apply E].
    + intros key0. apply extends_bind; [apply E |]. intros x.
      apply extends_refl.
Qed.

Lemma prettyPrint_more_fuel h fuel :
  forall v o p, extends (prettyPrint h fuel v o p) (prettyPrint h (S fuel) v o p).
Proof.
  induction fuel as [| fuel IH]; intros v o p.
  - intros s r s' tr H N. cbn in H. inversion H; subst. now elim N.
  - change (extends (body h (prettyPrint h fuel) v o p)
                    (body h (prettyPrint h (S fuel)) v o p)).
    now apply extends_body.
Qed.

Lemma prettyPrint_fuel_le h fuel fuel' v o p s r s' tr :
  prettyPrint h fuel v o p s = (r, s', tr) -> kindOf r <> KOutOfFuel ->
  fuel <= fuel' ->
  prettyPrint h fuel' v o p s = (r, s', tr).
Proof.
  intros H N L. induction L as [| n L IH]; [exact H |].
  now apply prettyPrint_more_fuel.
Qed.

(** ** Empty composites *)

Lemma stackSound_off h o s a :
  stackSound h o s = true -> hasMembers h o a = false -> onStack s a = false.
Proof.
  unfold stackSound, onStack. intros S N.
  destruct (existsb (Nat.eqb a) s) eqn:E; [| reflexivity].
  apply existsb_exists in E. destruct E as (b & Hb & Eb).
  apply Nat.eqb_eq in Eb. subst b.
  rewrite forallb_forall in S. rewrite (S _ Hb) in N. discriminate.
Qed.

Lemma hasMembers_spread h o a :
  hasMembers h (spread defaultOptions o) a = hasMembers h o a.
Proof. unfold hasMembers. now rewrite spread_idem. Qed.

(** C7: an empty array renders as [[]] and an object with no retained key
    as [{}]; the call makes no push and no pop and leaves the stack as it
    is, and so no empty composite is ever on the stack: pushing a composite
    with members onto a stack of composites with members gives such a
    stack again. *)
Theorem empty_composite_short_circuits h fuel o pad s a :
  stackSound h o s = true ->
  (nth_error h a = Some (OArray []) ->
   prettyPrint h (S fuel) (VRef a) o pad s = (Ok "[]", s, []))
  /\ (forall props,
        nth_error h a = Some (OObject props) ->
        objKeysOf (spread defaultOptions o) a props = Normal [] ->
        prettyPrint h (S fuel) (VRef a) o pad s = (Ok "{}", s, []))
  /\ (hasMembers h o a = true ->
      stackSound h (spread defaultOptions o) (s ++ [a]) = true).
Proof.
  intros S. split; [| split].
  - intros Ha.
    assert (N : onStack s a = false).
    { apply (stackSound_off h o); auto. unfold hasMembers. now rewrite Ha. }
    cbn [prettyPrint]. unfold body. rewrite bind_getSeen. cbn [indexOf].
    fold (onStack s a). rewrite N, Ha. reflexivity.
  - intros props Ha K.
    assert (N : onStack s a = false).
    { apply (stackSound_off h o); auto. unfold hasMembers.
      now rewrite Ha, K. }
    cbn [prettyPrint]. unfold body. rewrite bind_getSeen. cbn [indexOf].
    fold (onStack s a). rewrite N, Ha, K. reflexivity.
  - intros Hm. unfold stackSound in *. rewrite forallb_app. cbn.
    rewrite hasMembers_spread, Hm, andb_true_r.
    rewrite forallb_forall in *. intros b Hb.
    rewrite hasMembers_spread. now apply S.
Qed.

Lemma empty_composite_short_circuits_witness :
  stackSound heapEmpties noOptions [2] = true
  /\ prettyPrint heapEmpties 1 (VRef 0) noOptions EmptyString [2]
     = (Ok "[]", [2], [])
  /\ prettyPrint heapEmpties 1 (VRef 1) noOptions EmptyString [2]
     = (Ok "{}", [2], []).
Proof.
  split; [reflexivity | split].
  - apply (empty_composite_short_circuits heapEmpties 0 noOptions
             EmptyString [2] 0); reflexivity.
  - apply (empty_composite_short_circuits heapEmpties 0 noOptions
             EmptyString [2] 1 eq_refl) with (props := []); reflexivity.
Defined.

(** ** Keys *)




Lemma allChars_spec f s :
  allChars f s = true <->
  forall d, In d (list_ascii_of_string s) -> f d = true.
Proof.
  induction s as [| c s IH]; cbn.
  - split; [intros _ d [] | reflexivity].
  - rewrite andb_true_iff, IH. split.
    + intros [H1 H2] d [<- | Hd]; auto.
    + intros H. split; [apply H; now left |]. intros d Hd. apply H. now right.
Qed.


(** ** The inline bound *)


(** C4: with [inlineCharacterLimit] set, a composite with members returns
    the single-line candidate of its assembled text when the length of the
    candidate is at most the limit, and the multi-line text when it is
    more; the bound is inclusive: at one below the length of the candidate
    the multi-line text is returned, as for the object of the tests at the
    limits 21 and 20. *)
Theorem inline_bound_is_inclusive h fuel a o pad s limit :
  Options.inlineCharacterLimit o = Some limit ->
  wellFormed h (VRef a) o -> room h s < S fuel ->
  hasMembers h o a = true -> onStack s a = false ->
  exists t opening closing parts,
    rendersTo h (S fuel) (VRef a) o pad s t /\
    membersOf h fuel o pad s a opening closing parts /\
    let candidate := oneLined sentinels
                       (assemble sentinels opening closing parts) in
    ((Z.of_nat (String.length candidate) <= limit)%Z -> t = candidate) /\
    ((limit < Z.of_nat (String.length candidate))%Z ->
     t = multiLined (spread defaultOptions o) sentinels pad
           (assemble sentinels opening closing parts)) /\
    (limit = Z.of_nat (String.length candidate) -> t = candidate) /\
    ((limit + 1)%Z = Z.of_nat (String.length candidate) ->
     t = multiLined (spread defaultOptions o) sentinels pad
           (assemble sentinels opening closing parts)).
Proof.
  intros L W R Hm N.
  destruct (prettyPrint_returns h (S fuel) (VRef a) o pad s W R) as [t [tr Run]].
  destruct (composite_Ok_inv _ _ _ _ _ _ _ _ _ Hm N Run)
    as (opening & closing & parts & M & Et & _ & _).
  assert (L' : Options.inlineCharacterLimit (spread defaultOptions o)
               = Some limit) by now rewrite limit_spread.
  rewrite (tokensOf_limit _ _ _ L') in Et.
  exists t, opening, closing, parts.
  split; [now exists tr | split; [exact M |]].
  cbv zeta. unfold expandWhiteSpace in Et. rewrite L' in Et.
  destruct (Z.leb_spec
              (Z.of_nat (String.length
                 (oneLined sentinels (assemble sentinels opening closing parts))))
              limit) as [Le | Gt]; repeat split; intros; subst; auto; lia.
Qed.

Lemma inline_bound_is_inclusive_witness :
  render heapJane 2 (VRef 0) noOptions
  = Ok ("{" ++ nl ++ tab ++ "id: 8," ++ nl ++ tab ++ "name: 'Jane'" ++ nl ++ "}")
  /\ render heapJane 2 (VRef 0) (withLimit 21) = Ok "{id: 8, name: 'Jane'}"
  /\ render heapJane 2 (VRef 0) (withLimit 20)
     = Ok ("{" ++ nl ++ tab ++ "id: 8," ++ nl ++ tab ++ "name: 'Jane'"
               ++ nl ++ "}")
  /\ exists t opening closing parts,
       rendersTo heapJane 2 (VRef 0) (withLimit 21) EmptyString [] t /\
       membersOf heapJane 1 (withLimit 21) EmptyString [] 0
                 opening closing parts /\
       (21%Z = Z.of_nat (String.length
                (oneLined sentinels (assemble sentinels opening closing parts)))
        -> t = oneLined sentinels (assemble sentinels opening closing parts)).
Proof.
  split; [reflexivity | split; [reflexivity | split; [reflexivity |]]].
  destruct (inline_bound_is_inclusive heapJane 1 0 (withLimit 21)
              EmptyString [] 21%Z) as (t & op & cl & parts & R & M & H).
  - reflexivity.
  - repeat split; try reflexivity; intros f E; discriminate.
  - cbn. lia.
  - reflexivity.
  - reflexivity.
  - exists t, op, cl, parts. split; [exact R | split; [exact M |]].
    apply H.
Defined.

(** ** Sentinels in the text of the caller *)

Lemma render_heapText u limit fuel pad :
  prettyPrint (heapText u) (S (S fuel)) (VRef 0) (withLimit limit) pad []
  = (Ok (expandWhiteSpace (spread defaultOptions (withLimit limit))
           sentinels pad
           ("[" ++ NEW_LINE
                ++ (INDENT
                      ++ textFallback (spread defaultOptions (withLimit limit)) u
                      ++ NEW_LINE)
                ++ PAD ++ "]")),
     [], [Push 0; Pop]).
Proof. reflexivity. Qed.

(** C10: with [inlineCharacterLimit] set, the text of a string of the
    caller is part of the assembled text the compaction pass rewrites, so a
    sentinel in it is substituted like the ones the renderer wrote: each of
    the four sentinels, rendered as the one element of an array, comes out
    as nothing, a space, a line break or the indentation, whatever the
    limit, and the output then does not hold the string. *)
Theorem sentinel_in_user_text_is_substituted :
  (forall u limit fuel pad,
     prettyPrint (heapText u) (S (S fuel)) (VRef 0) (withLimit limit) pad []
     = (Ok (expandWhiteSpace (spread defaultOptions (withLimit limit))
              sentinels pad
              ("[" ++ NEW_LINE
                   ++ (INDENT
                         ++ textFallback
                              (spread defaultOptions (withLimit limit)) u
                         ++ NEW_LINE)
                   ++ PAD ++ "]")),
        [], [Push 0; Pop]))
  /\ (forall limit,
        render (heapText NEW_LINE) 2 (VRef 0) (withLimit limit)
        = Ok (if (4 <=? limit)%Z then "['']"
              else "[" ++ nl ++ tab ++ "'" ++ nl ++ "'" ++ nl ++ "]"))
  /\ (forall limit,
        render (heapText NEW_LINE_OR_SPACE) 2 (VRef 0) (withLimit limit)
        = Ok (if (5 <=? limit)%Z then "[' ']"
              else "[" ++ nl ++ tab ++ "'" ++ nl ++ "'" ++ nl ++ "]"))
  /\ (forall limit,
        render (heapText PAD) 2 (VRef 0) (withLimit limit)
        = Ok (if (4 <=? limit)%Z then "['']"
              else "[" ++ nl ++ tab ++ "''" ++ nl ++ "]"))
  /\ (forall limit,
        render (heapText INDENT) 2 (VRef 0) (withLimit limit)
        = Ok (if (4 <=? limit)%Z then "['']"
              else "[" ++ nl ++ tab ++ "'" ++ tab ++ "'" ++ nl ++ "]"))
  /\ (exists u, forall limit, exists out,
        render (heapText u) 2 (VRef 0) (withLimit limit) = Ok out
        /\ includes u out = false)
  /\ render (heapText NEW_LINE) 2 (VRef 0) noOptions
     = Ok ("[" ++ nl ++ tab ++ "'" ++ NEW_LINE ++ "'" ++ nl ++ "]").
Proof.
  assert (A : forall limit,
             render (heapText NEW_LINE) 2 (VRef 0) (withLimit limit)
             = Ok (if (4 <=? limit)%Z then "['']"
                   else "[" ++ nl ++ tab ++ "'" ++ nl ++ "'" ++ nl ++ "]")).
  { intros limit. unfold render. rewrite render_heapText. cbn [fst].
    unfold expandWhiteSpace. cbn [Options.inlineCharacterLimit spread orElse withLimit].
    change (Z.leb 4 limit) with (Z.of_nat 4 <=? limit)%Z.
    destruct (Z.of_nat 4 <=? limit)%Z eqn:E;
      vm_compute; vm_compute in E; rewrite E; reflexivity. }
  split; [intros; apply render_heapText |].
  split; [exact A |].
  split.
  { intros limit. unfold render. rewrite render_heapText. cbn [fst].
    unfold expandWhiteSpace. cbn [Options.inlineCharacterLimit spread orElse withLimit].
    destruct (5 <=? limit)%Z eqn:E;
      vm_compute; vm_compute in E; rewrite E; reflexivity. }
  split.
  { intros limit. unfold render. rewrite render_heapText. cbn [fst].
    unfold expandWhiteSpace. cbn [Options.inlineCharacterLimit spread orElse withLimit].
    destruct (4 <=? limit)%Z eqn:E;
      vm_compute; vm_compute in E; rewrite E; reflexivity. }
  split.
  { intros limit. unfold render. rewrite render_heapText. cbn [fst].
    unfold expandWhiteSpace. cbn [Options.inlineCharacterLimit spread orElse withLimit].
    destruct (4 <=? limit)%Z eqn:E;
      vm_compute; vm_compute in E; rewrite E; reflexivity. }
  split; [| reflexivity].
  exists NEW_LINE. intros limit. rewrite A.
  destruct (4 <=? limit)%Z; eexists; split; reflexivity.
Qed.

(** ** The keys of an object *)

Lemma key_eqb_refl k : key_eqb k k = true.
Proof.
  destruct k as [s | s]; cbn.
  - apply String.eqb_refl.
  - unfold symbol_eqb. now rewrite Nat.eqb_refl, String.eqb_refl.
Qed.

Lemma propertyIsEnumerable_own ps p :
  uniqueKeys ps = true -> In p ps ->
  propertyIsEnumerable ps (name p) = enumerable p.
Proof.
  induction ps as [| q ps IH]; cbn; [tauto |].
  intros U [-> | Hin].
  - now rewrite key_eqb_refl.
  - apply andb_prop in U. destruct U as [U1 U2].
    destruct (key_eqb (name q) (name p)) eqn:E; [| auto].
    apply negb_true_iff in U1.
    assert (X : existsb (fun r => key_eqb (name q) (name r)) ps = true)
      by (apply existsb_exists; now exists p).
    congruence.
Qed.

Lemma Object_keys_spec l :
  map KString (Object_keys l) = map name (filter isEnumerableString l).
Proof.
  induction l as [| p l IH]; cbn; [reflexivity |].
  unfold isEnumerableString at 1.
  destruct (name p) as [s | s] eqn:E; [| exact IH].
  destruct (enumerable p); cbn; [| exact IH]. now rewrite E, IH.
Qed.

Lemma enumSymbols_spec ps l :
  uniqueKeys ps = true -> incl l ps ->
  map KSymbol
      (filter (fun keySymbol => propertyIsEnumerable ps (KSymbol keySymbol))
              (getOwnPropertySymbols l))
  = map name (filter isEnumerableSymbol l).
Proof.
  intros U. induction l as [| p l IH]; intros I; cbn; [reflexivity |].
  assert (I' : incl l ps) by (intros x Hx; apply I; now right).
  assert (Hp : In p ps) by (apply I; now left).
  unfold isEnumerableSymbol at 1.
  destruct (name p) as [s | s] eqn:E; [now apply IH |].
  cbn [filter]. pose proof (propertyIsEnumerable_own ps p U Hp) as Q.
  rewrite E in Q. rewrite Q.
  destruct (enumerable p); cbn; [| now apply IH]. now rewrite E, IH.
Qed.

Lemma ownKeys_spec props :
  uniqueKeys props = true -> ownKeys props = orderedUnion props.
Proof.
  intros U. unfold ownKeys, orderedUnion, getOwnEnumPropSymbols.
  rewrite Object_keys_spec, (enumSymbols_spec props props U); auto.
  apply incl_refl.
Qed.

Lemma filterKeys_incl f l keys :
  filterKeys f l = Normal keys -> incl keys l.
Proof.
  revert keys. induction l as [| k l IH]; cbn; intros keys.
  - intros H. inversion H. apply incl_refl.
  - destruct (f k) as [b | e]; [| discriminate].
    destruct (filterKeys f l) as [rest | e]; [| discriminate].
    intros H. inversion H; subst. specialize (IH rest eq_refl).
    destruct b.
    + intros x [-> | Hx]; [now left | right; now apply IH].
    + intros x Hx. right. now apply IH.
Qed.

Lemma objKeysOf_incl co a props keys :
  objKeysOf co a props = Normal keys -> incl keys (ownKeys props).
Proof.
  unfold objKeysOf. destruct (Options.filter co) as [f |].
  - apply filterKeys_incl.
  - intros H. inversion H. apply incl_refl.
Qed.

Lemma propertyIsEnumerable_shape ps ps' k :
  shape ps' = shape ps ->
  propertyIsEnumerable ps' k = propertyIsEnumerable ps k.
Proof.
  revert ps'. induction ps as [| p ps IH]; intros [| p' ps']; cbn;
    try discriminate; [reflexivity |].
  intros H. inversion H as [[H1 H2 H3]]. rewrite H1, H2.
  now rewrite (IH ps' H3).
Qed.

Lemma ownKeys_shape ps ps' :
  shape ps' = shape ps -> ownKeys ps' = ownKeys ps.
Proof.
  intros H. unfold ownKeys, getOwnEnumPropSymbols. f_equal.
  - f_equal. revert ps' H.
    induction ps as [| p ps IH]; intros [| p' ps']; cbn;
      try discriminate; [reflexivity |].
    intros H. inversion H as [[H1 H2 H3]]. rewrite H1, H2.
    now rewrite (IH ps' H3).
  - f_equal.
    rewrite (filter_ext _ (fun keySymbol =>
                             propertyIsEnumerable ps (KSymbol keySymbol)))
      by (intros x; now apply propertyIsEnumerable_shape).
    f_equal. revert ps' H.
    induction ps as [| p ps IH]; intros [| p' ps']; cbn;
      try discriminate; [reflexivity |].
    intros H. inversion H as [[H1 H2 H3]]. rewrite H1.
    now rewrite (IH ps' H3).
Qed.

(** C6: the keys of an object are its enumerable string-named properties
    in their order followed by its enumerable symbol-named properties in
    theirs; a symbol key that is not enumerable is not among them; the keys
    rendered are keys of that list, one entry each and in that order; and
    the list depends on the names and flags of the properties alone, so it
    is the same for every object of the same shape, at every call. *)
Theorem own_keys_are_ordered_union h fuel o pad s a props :
  nth_error h a = Some (OObject props) ->
  uniqueKeys props = true ->
  ownKeys props = orderedUnion props
  /\ (forall p sy, In p props -> name p = KSymbol sy ->
                   enumerable p = false ->
                   ~ In (KSymbol sy) (ownKeys props))
  /\ (Options.filter o = None ->
      objKeysOf (spread defaultOptions o) a props = Normal (ownKeys props))
  /\ (forall keys opening closing parts,
        objKeysOf (spread defaultOptions o) a props = Normal keys ->
        membersOf h fuel o pad s a opening closing parts ->
        incl keys (ownKeys props)
        /\ List.length parts = List.length keys
        /\ forall j k, nth_error keys j = Some k ->
             exists rest,
               nth_error parts j
               = Some (tok_indent (tokensOf (spread defaultOptions o) pad)
                         ++ keyOut (spread defaultOptions o) k ++ ": " ++ rest))
  /\ (forall props', shape props' = shape props ->
                     ownKeys props' = ownKeys props).
Proof.
  intros Ha U. split; [now apply ownKeys_spec |]. split; [| split; [| split]].
  - intros p sy Hp En Ee Hin. unfold ownKeys in Hin.
    apply in_app_or in Hin. destruct Hin as [Hin | Hin].
    + apply in_map_iff in Hin. destruct Hin as (x & Hx & _). discriminate.
    + apply in_map_iff in Hin. destruct Hin as (x & Hx & Hin).
      inversion Hx; subst x. unfold getOwnEnumPropSymbols in Hin.
      apply filter_In in Hin. destruct Hin as [_ Q].
      pose proof (propertyIsEnumerable_own props p U Hp) as Q'.
      rewrite En in Q'. congruence.
  - intros F. unfold objKeysOf. now rewrite filter_spread, F.
  - intros keys opening closing parts K M. unfold membersOf in M.
    rewrite Ha in M. destruct M as (_ & _ & keys' & tr & K' & Run).
    rewrite K in K'. inversion K'; subst keys'. clear K'.
    split; [now apply objKeysOf_incl in K |].
    pose proof (mapKeys_Ok _ keys
                  (fun k i => frames_entryText _ (frames_prettyPrint h fuel)
                                _ _ _ _ _ _ k i) 0 _ _ _ _ Run)
      as (_ & L & Hj).
    split; [exact L |]. intros j k Hk.
    destruct (Hj j k Hk) as (x & tr' & Ex & Nx).
    apply entryText_Ok_inv in Ex.
    destruct Ex as (value0 & value1 & _ & _ & ->).
    exists (value1 ++ eolOf (tokensOf (spread defaultOptions o) pad)
                            (List.length keys) (0 + j)).
    exact Nx.
  - intros props'. apply ownKeys_shape.
Qed.

Lemma own_keys_are_ordered_union_witness :
  nth_error heapSymbols 0 <> None
  /\ ownKeys [ {| name := KSymbol symEnum; enumerable := true;
                  content := VAtom AUndefined |};
               {| name := KSymbol symHidden; enumerable := false;
                  content := VAtom AUndefined |};
               field "last" (num "1") ]
     = [KString "last"; KSymbol symEnum]
  /\ render heapSymbols 2 (VRef 0) noOptions
     = Ok ("{" ++ nl ++ tab ++ "last: 1," ++ nl
               ++ tab ++ "Symbol(for enumerable key): undefined" ++ nl ++ "}").
Proof.
  split; [discriminate | split; [| reflexivity]].
  destruct (own_keys_are_ordered_union heapSymbols 1 noOptions EmptyString
              [] 0 _ eq_refl eq_refl) as (E & _).
  rewrite E. reflexivity.
Defined.

(** ** The filter and arrays *)

Lemma mapSlots_ext f g :
  (forall v i s, f v i s = g v i s) ->
  forall l i s, mapSlots f l i s = mapSlots g l i s.
Proof.
  intros E. induction l as [| [v |] l IH]; intros i s; cbn [mapSlots].
  - reflexivity.
  - unfold bind at 1 3. rewrite E. destruct (g v i s) as [[r s1] tr].
    destruct r; try reflexivity.
    unfold bind. now rewrite IH.
  - unfold bind. now rewrite IH.
Qed.

Lemma mapKeys_ext f g :
  (forall k i s, f k i s = g k i s) ->
  forall l i s, mapKeys f l i s = mapKeys g l i s.
Proof.
  intros E. induction l as [| k l IH]; intros i s; cbn [mapKeys].
  - reflexivity.
  - unfold bind at 1 3. rewrite E. destruct (g k i s) as [[r s1] tr].
    destruct r; try reflexivity.
    unfold bind. now rewrite IH.
Qed.

Lemma filterKeys_ext f g l :
  (forall k, f k = g k) -> filterKeys f l = filterKeys g l.
Proof.
  intros E. induction l as [| k l IH]; cbn; [reflexivity |].
  now rewrite E, IH.
Qed.

Lemma filterKeys_all l : filterKeys (fun _ => Normal true) l = Normal l.
Proof. induction l as [| k l IH]; cbn; [reflexivity | now rewrite IH]. Qed.

Lemma objKeysOf_ask co a props :
  objKeysOf co a props = filterKeys (askFilter co a) (ownKeys props).
Proof.
  unfold objKeysOf, askFilter. destruct (Options.filter co).
  - reflexivity.
  - now rewrite filterKeys_all.
Qed.

Lemma spread_withFilter o f :
  spread defaultOptions (withFilter o f)
  = withFilter (spread defaultOptions o) f.
Proof. unfold spread, withFilter. cbn. now destruct f. Qed.

Lemma askFilter_spread o a k :
  askFilter (spread defaultOptions o) a k = askFilter o a k.
Proof. unfold askFilter. now rewrite filter_spread. Qed.

Lemma prettyPrint_withFilter h f fuel :
  forall o v pad s,
    agreeOnObjects h o (withFilter o f) ->
    prettyPrint h fuel v (withFilter o f) pad s
    = prettyPrint h fuel v o pad s.
Proof.
  induction fuel as [| fuel IH]; intros o v pad s Ag; [reflexivity |].
  cbn [prettyPrint]. unfold body. rewrite !bind_getSeen.
  rewrite spread_withFilter.
  assert (Ag' : agreeOnObjects h (spread defaultOptions o)
                  (withFilter (spread defaultOptions o) f)).
  { intros a props k Ha. rewrite askFilter_spread.
    rewrite <- (Ag a props k Ha). reflexivity. }
  set (co := spread defaultOptions o) in *.
  destruct (indexOf s v); [reflexivity |].
  destruct v as [a | d | a]; try reflexivity.
  destruct (nth_error h a) as [[elems | props] |] eqn:Ha; try reflexivity.
  - destruct (List.length elems =? 0)%nat; [reflexivity |].
    rewrite !scoped_run.
    rewrite (mapSlots_ext
               (elementText (prettyPrint h fuel) (withFilter co f)
                  (tokensOf (withFilter co f) pad) pad a (List.length elems))
               (elementText (prettyPrint h fuel) co (tokensOf co pad) pad a
                  (List.length elems))).
    + reflexivity.
    + intros v i s1. unfold elementText. unfold bind at 1 3.
      rewrite (IH co v _ s1 Ag'). reflexivity.
  - rewrite !objKeysOf_ask.
    rewrite (filterKeys_ext (askFilter (withFilter co f) a) (askFilter co a))
      by (intros k; apply (Ag' a props k Ha)).
    destruct (filterKeys (askFilter co a) (ownKeys props)) as [keys | e];
      [| reflexivity].
    cbn [call]. rewrite !bind_ret.
    destruct (List.length keys =? 0)%nat; [reflexivity |].
    rewrite !scoped_run.
    rewrite (mapKeys_ext
               (entryText (prettyPrint h fuel) (withFilter co f)
                  (tokensOf (withFilter co f) pad) pad a props
                  (List.length keys))
               (entryText (prettyPrint h fuel) co (tokensOf co pad) pad a
                  props (List.length keys))).
    + reflexivity.
    + intros k i s1. unfold entryText.
      assert (Ek : keyText (prettyPrint h fuel) (withFilter co f) k s1
                   = keyText (prettyPrint h fuel) co k s1).
      { destruct k as [t | t]; cbn [keyText]; [| reflexivity].
        destruct (isClassicKey t); [reflexivity |]. apply (IH co _ _ s1 Ag'). }
      unfold bind at 1 4. rewrite Ek.
      destruct (keyText (prettyPrint h fuel) co k s1) as [[r s2] tr].
      destruct r; try reflexivity.
      unfold bind at 1 3.
      rewrite (IH co _ _ s2 Ag'). reflexivity.
Qed.

(** C9: the filter is not applied to the elements of an array.  The text
    of an array is the same under every filter that answers alike on the
    keys of the objects of the graph, whatever it would answer about
    indices or arrays; and every element of the array is rendered, on the
    stack of its array, and its text (after the transform hook) is the part
    of the assembled text at its index. *)
Theorem filter_not_applied_to_array_elements h fuel a elems o pad s :
  nth_error h a = Some (OArray elems) ->
  wellFormed h (VRef a) o -> room h s < S fuel -> onStack s a = false ->
  (forall f, agreeOnObjects h o (withFilter o f) ->
             prettyPrint h (S fuel) (VRef a) (withFilter o f) pad s
             = prettyPrint h (S fuel) (VRef a) o pad s)
  /\ exists t,
       rendersTo h (S fuel) (VRef a) o pad s t
       /\ (elems = [] -> t = "[]")
       /\ (elems <> [] ->
           exists parts,
             t = expandWhiteSpace (spread defaultOptions o)
                   (tokensOf (spread defaultOptions o) pad) pad
                   (assemble (tokensOf (spread defaultOptions o) pad)
                             "[" "]" parts)
             /\ List.length parts = List.length elems
             /\ forall j v,
                  nth_error elems j = Some (Some v) ->
                  exists value0 value1,
                    rendersTo h fuel v (spread defaultOptions o)
                              (pad ++ indentOf (spread defaultOptions o))
                              (s ++ [a]) value0
                    /\ applyTransform (spread defaultOptions o) a (PIndex j)
                                      value0 (s ++ [a])%list
                       = (Ok value1, (s ++ [a])%list, [])
                    /\ nth_error parts j
                       = Some (tok_indent
                                 (tokensOf (spread defaultOptions o) pad)
                                 ++ value1
                                 ++ eolOf
                                      (tokensOf (spread defaultOptions o) pad)
                                      (List.length elems) j)).
Proof.
  intros Ha W R N. split.
  - intros f Ag. now apply prettyPrint_withFilter.
  - destruct (prettyPrint_returns h (S fuel) (VRef a) o pad s W R)
      as [t [tr Run]].
    exists t. split; [now exists tr |]. split.
    + intros ->. cbn [prettyPrint] in Run. unfold body in Run.
      rewrite bind_getSeen in Run. cbn [indexOf] in Run.
      fold (onStack s a) in Run. rewrite N, Ha in Run. cbn in Run.
      now inversion Run.
    + intros Ne.
      assert (Hm : hasMembers h o a = true).
      { unfold hasMembers. rewrite Ha. destruct elems; [congruence |].
        reflexivity. }
      destruct (composite_Ok_inv _ _ _ _ _ _ _ _ _ Hm N Run)
        as (opening & closing & parts & M & Et & _ & _).
      unfold membersOf in M. rewrite Ha in M.
      destruct M as (-> & -> & tr1 & E).
      exists parts. split; [exact Et |].
      pose proof (mapSlots_Ok _ elems
                    (fun v i => frames_elementText _
                                  (frames_prettyPrint h fuel) _ _ _ _ _ v i)
                    0 _ _ _ _ E) as (_ & L & Hj).
      split; [exact L |]. intros j v Hv. specialize (Hj j). rewrite Hv in Hj.
      destruct Hj as (x & tr' & Ex & Nx).
      apply elementText_Ok_inv in Ex.
      destruct Ex as (value0 & value1 & R0 & T1 & ->).
      exists value0, value1. auto.
Qed.

Lemma filter_not_applied_to_array_elements_witness :
  wellFormed heapNumbers (VRef 0) (withFilter noOptions (Some rejectAll))
  /\ render heapNumbers 2 (VRef 0) (withFilter noOptions (Some rejectAll))
     = Ok ("[" ++ nl ++ tab ++ "1," ++ nl ++ tab ++ "2," ++ nl
               ++ tab ++ "3" ++ nl ++ "]")
  /\ render heapNumbers 2 (VRef 1) (withFilter noOptions (Some rejectAll))
     = Ok "{}"
  /\ exists t,
       rendersTo heapNumbers 3 (VRef 0)
                 (withFilter noOptions (Some rejectAll)) EmptyString [] t.
Proof.
  assert (W : wellFormed heapNumbers (VRef 0)
                (withFilter noOptions (Some rejectAll))).
  { repeat split; try reflexivity.
    - intros f E a p. inversion E. now exists false.
    - intros g E. discriminate. }
  split; [exact W | split; [reflexivity | split; [reflexivity |]]].
  destruct (filter_not_applied_to_array_elements heapNumbers 2 0 _
              (withFilter noOptions (Some rejectAll)) EmptyString []
              eq_refl W) as (_ & t & Rt & _).
  - cbn. lia.
  - reflexivity.
  - now exists t.
Defined.

(** ** Termination *)

Lemma wellFormed_noOptions h v :
  closedHeap h = true -> datesValid h = true ->
  closedValue h v = true -> validValue v = true ->
  wellFormed h v noOptions.
Proof.
  intros C D Cv Vv. repeat split; auto; intros f E; discriminate.
Qed.

Lemma prettyPrint_circular h fuel a o pad s :
  onStack s a = true ->
  prettyPrint h (S fuel) (VRef a) o pad s = (Ok CIRCULAR, s, []).
Proof.
  intros On. cbn [prettyPrint]. unfold body. rewrite bind_getSeen.
  cbn [indexOf]. fold (onStack s a). now rewrite On.
Qed.

(** C2 as it is stated fails on an invalid Date: the call raises the
    RangeError of [toISOString] and returns no text, with any fuel. *)
Lemma invalid_date_raises :
  render [] 1 (VDate None) noOptions
  = Throw (RangeError "Invalid time value")
  /\ ~ (exists fuel t, render [] fuel (VDate None) noOptions = Ok t).
Proof.
  split; [reflexivity |].
  intros (fuel & t & H). destruct fuel; discriminate.
Qed.

(** C2, amended: on every value graph with no invalid Date in it, cyclic
    or not, and with hooks that do not raise, the call returns a text, the
    same one for every recursion bound above the number of objects of the
    graph, and leaves the stack as it found it; a reference to a composite
    on the stack returns the circular marker, and so does the slot of an
    array that holds one. *)
Theorem render_returns_on_every_graph h v o pad s :
  wellFormed h v o ->
  (exists t, forall fuel, List.length h < fuel ->
                          rendersTo h fuel v o pad s t)
  /\ (forall a fuel, onStack s a = true ->
        prettyPrint h (S fuel) (VRef a) o pad s = (Ok CIRCULAR, s, []))
  /\ (forall a b len i fuel tokens,
        onStack (s ++ [a]) b = true ->
        Options.transform o = None ->
        elementText (prettyPrint h (S fuel)) o tokens pad a len (VRef b) i
                    (s ++ [a])%list
        = (Ok (tok_indent tokens ++ CIRCULAR ++ eolOf tokens len i),
           (s ++ [a])%list, [])).
Proof.
  intros W. split; [| split].
  - assert (R : room h s < S (List.length h))
      by (pose proof (room_le h s); lia).
    destruct (prettyPrint_returns h _ v o pad s W R) as [t [tr Run]].
    exists t. intros fuel L. exists tr.
    eapply prettyPrint_fuel_le; [exact Run | discriminate | lia].
  - intros a fuel On. now apply prettyPrint_circular.
  - intros a b len i fuel tokens On T. unfold elementText.
    rewrite (bind_ok _ _ _ _ _ _ (prettyPrint_circular h fuel b o _ _ On)).
    unfold applyTransform. rewrite T. reflexivity.
Qed.

Lemma render_returns_on_every_graph_witness :
  wellFormed heapSelf (VRef 1) noOptions
  /\ (exists t, forall fuel, 2 < fuel ->
        rendersTo heapSelf fuel (VRef 1) noOptions EmptyString [] t)
  /\ render heapSelf 3 (VRef 1) noOptions
     = Ok ("[" ++ nl ++ tab ++ "[" ++ nl ++ tab ++ tab ++ CIRCULAR ++ nl
               ++ tab ++ "]" ++ nl ++ "]")
  /\ render heapKnot 4 (VRef 0) noOptions
     = Ok ("[" ++ nl
            ++ tab ++ "[" ++ nl
            ++ tab ++ tab ++ "[" ++ nl
            ++ tab ++ tab ++ tab ++ CIRCULAR ++ "," ++ nl
            ++ tab ++ tab ++ tab ++ "10" ++ nl
            ++ tab ++ tab ++ "]," ++ nl
            ++ tab ++ tab ++ CIRCULAR ++ nl
            ++ tab ++ "]" ++ nl
            ++ "]").
Proof.
  assert (W : wellFormed heapSelf (VRef 1) noOptions)
    by (apply wellFormed_noOptions; reflexivity).
  split; [exact W | split; [| split; reflexivity]].
  exact (proj1 (render_returns_on_every_graph heapSelf (VRef 1) noOptions
                  EmptyString [] W)).
Defined.

(** ** The stack around a composite *)

(** C5 as it is stated fails on the exit by an exception: when the
    transform hook raises, or [toISOString] does, while the members are
    rendered, the entry pushed for the composite is still on the stack
    after the call, and the next call on that composite finds it there. *)
Lemma raise_leaves_entry_on_stack :
  prettyPrint heapNumbers 2 (VRef 0) (withTransform noOptions (Some raising))
              EmptyString []
  = (Throw (Thrown "hook"), [0], [Push 0])
  /\ prettyPrint heapBadDate 2 (VRef 0) noOptions EmptyString []
     = (Throw (RangeError "Invalid time value"), [0], [Push 0])
  /\ prettyPrint heapBadDate 2 (VRef 0) noOptions EmptyString [0]
     = (Ok CIRCULAR, [0], [])
  /\ ~ (forall h fuel v o pad s r s' tr,
          prettyPrint h fuel v o pad s = (r, s', tr) -> s' = s).
Proof.
  repeat split. intros H.
  specialize (H heapBadDate 2 (VRef 0) noOptions EmptyString [] _ _ _ eq_refl).
  discriminate.
Qed.

(** C5, amended: a call on a composite with members pushes its entry
    before anything else it does to the stack, and it returns or raises;
    when it returns, with or without hooks, the members were rendered on
    the stack with that entry on top, the pop is the last thing the call
    did and the stack is the one of the entry to the call; when it raises,
    the entry is still on the stack.  Every call that returns, on any
    value, leaves the stack as it found it. *)
Theorem push_then_pop_on_return h fuel a o pad s :
  closedHeap h = true -> room h s < S fuel ->
  hasMembers h o a = true -> onStack s a = false ->
  (exists r s' tr,
     prettyPrint h (S fuel) (VRef a) o pad s = (r, s', (Push a :: tr)%list)
     /\ ((exists t opening closing parts tr0,
            r = Ok t /\ s' = s /\ tr = (tr0 ++ [Pop])%list
            /\ membersOf h fuel o pad s a opening closing parts)
         \/ (exists e ext, r = Throw e /\ s' = (s ++ a :: ext)%list)))
  /\ (forall v n pad' t s' tr,
        prettyPrint h n v o pad' s = (Ok t, s', tr) -> s' = s).
Proof.
  intros C R Hm N. split.
  - assert (L : a < List.length h).
    { unfold hasMembers in Hm. apply nth_error_Some.
      destruct (nth_error h a); [discriminate | discriminate Hm]. }
    assert (E : ends okOrThrow (prettyPrint h (S fuel) (VRef a) o pad) s).
    { apply ends_prettyPrint; try reflexivity; try discriminate.
      - intros _. exact C.
      - split; [| split]; try discriminate. 
        + intros _. exact R.
        + intros _. cbn. now apply Nat.ltb_lt. }
    unfold ends, outcomeOf in E.
    destruct (prettyPrint h (S fuel) (VRef a) o pad s) as [[r s'] tr] eqn:Run.
    cbn [fst] in E. destruct r; try discriminate.
    + destruct (composite_Ok_inv _ _ _ _ _ _ _ _ _ Hm N Run)
        as (opening & closing & parts & M & _ & -> & tr' & ->).
      exists (Ok a0), s, (tr' ++ [Pop])%list. split; [reflexivity |].
      left. exists a0, opening, closing, parts, tr'. auto.
    + pose proof Run as Run'. cbn [prettyPrint] in Run'.
      unfold hasMembers in Hm.
      destruct (nth_error h a) as [[elems | props] |] eqn:Ha;
        try discriminate.
      * assert (Ne : elems <> []) by (intros ->; discriminate).
        rewrite (body_array _ _ _ _ _ _ _ Ha N Ne), scoped_run in Run'.
        match type of Run' with
        | match ?X with _ => _ end = _ => destruct X as [[r1 s1] tr1] eqn:E1
        end.
        destruct r1; try discriminate. inversion Run'; subst. clear Run'.
        pose proof (frames_mapSlots _ elems
                      (fun v i => frames_elementText _
                                    (frames_prettyPrint h fuel) _ _ _ _ _ v i)
                      0 _ _ _ _ E1) as [ext F].
        exists (Throw e), s', tr1. split; [reflexivity |]. right.
        exists e, ext. split; [reflexivity |]. rewrite F.
        now rewrite <- app_assoc.
      * destruct (objKeysOf (spread defaultOptions o) a props)
          as [keys | e'] eqn:K; try discriminate.
        assert (Ne : keys <> []) by (intros ->; discriminate).
        rewrite (body_object _ _ _ _ _ _ _ _ Ha N K Ne), scoped_run in Run'.
        match type of Run' with
        | match ?X with _ => _ end = _ => destruct X as [[r1 s1] tr1] eqn:E1
        end.
        destruct r1; try discriminate. inversion Run'; subst. clear Run'.
        pose proof (frames_mapKeys _ keys
                      (fun k i => frames_entryText _
                                    (frames_prettyPrint h fuel)
                                    _ _ _ _ _ _ k i)
                      0 _ _ _ _ E1) as [ext F].
        exists (Throw e), s', tr1. split; [reflexivity |]. right.
        exists e, ext. split; [reflexivity |]. rewrite F.
        now rewrite <- app_assoc.
  - intros v n pad' t s' tr Run.
    exact (frames_prettyPrint h n v o pad' _ _ _ _ Run).
Qed.

Lemma push_then_pop_on_return_witness :
  closedHeap heapNumbers = true
  /\ prettyPrint heapNumbers 3 (VRef 0)
                 (withTransform noOptions (Some marking)) EmptyString []
     = (Ok ("[" ++ nl ++ tab ++ "1!," ++ nl ++ tab ++ "2!," ++ nl
                ++ tab ++ "3!" ++ nl ++ "]"), [], [Push 0; Pop])
  /\ exists r s' tr,
       prettyPrint heapNumbers 3 (VRef 0)
                   (withTransform noOptions (Some marking)) EmptyString []
       = (r, s', (Push 0 :: tr)%list).
Proof.
  split; [reflexivity | split; [reflexivity |]].
  destruct (push_then_pop_on_return heapNumbers 2 0
              (withTransform noOptions (Some marking)) EmptyString [])
    as ((r & s' & tr & Run & _) & _).
  - reflexivity.
  - cbn. lia.
  - reflexivity.
  - reflexivity.
  - now exists r, s', tr.
Defined.

(** ** The circular marker *)

Lemma CIRCULAR_not_bracket opening rest :
  opening = "[" \/ opening = "{" -> CIRCULAR <> opening ++ rest.
Proof. intros [-> | ->]; discriminate. Qed.

Lemma nth_error_map_Some {A B} (f : A -> B) l j y :
  nth_error (map f l) j = Some y ->
  exists x, nth_error l j = Some x /\ y = f x.
Proof.
  rewrite nth_error_map. destruct (nth_error l j) as [x |]; cbn;
    [| discriminate].
  intros H. inversion H. now exists x.
Qed.

(** The members of a composite that returned under the default options. *)
Lemma members_rendered h fuel a pad s opening closing parts :
  membersOf h fuel noOptions pad s a opening closing parts ->
  (opening = "[" \/ opening = "{")
  /\ List.length parts = List.length (members h a)
  /\ forall j label v,
       nth_error (members h a) j = Some (Some (label, v)) ->
       exists x,
         rendersTo h fuel v defaultOptions (pad ++ tab) (s ++ [a]) x
         /\ nth_error parts j
            = Some (pad ++ tab ++ label ++ x
                        ++ eolOf (plainTokens pad)
                                 (List.length (members h a)) j).
Proof.
  unfold membersOf, members. change (spread defaultOptions noOptions)
    with defaultOptions.
  destruct (nth_error h a) as [[elems | props] |] eqn:Ha; [| | tauto].
  - intros (-> & -> & tr & Run). split; [now left |].
    pose proof (mapSlots_Ok _ elems
                  (fun v i => frames_elementText _
                                (frames_prettyPrint h fuel) _ _ _ _ _ v i)
                  0 _ _ _ _ Run) as (_ & L & Hj).
    rewrite length_map. split; [exact L |].
    intros j label v Hn. apply nth_error_map_Some in Hn.
    destruct Hn as ([w |] & Hw & Ew); [| discriminate].
    inversion Ew; subst label w. clear Ew.
    specialize (Hj j). rewrite Hw in Hj.
    destruct Hj as (x & tr' & Ex & Nx).
    apply elementText_Ok_inv in Ex.
    destruct Ex as (value0 & value1 & R0 & T1 & ->).
    cbn in T1. inversion T1; subst value1.
    exists value0. split; [exact R0 |].
    rewrite Nx. cbn [plus]. f_equal.
    change (tok_indent (tokensOf defaultOptions pad)) with (pad ++ tab).
    now rewrite !append_assoc.
  - intros (-> & -> & keys & tr & K & Run). split; [now right |].
    cbn in K. inversion K; subst keys. clear K.
    pose proof (mapKeys_Ok _ (ownKeys props)
                  (fun k i => frames_entryText _
                                (frames_prettyPrint h fuel)
                                _ _ _ _ _ _ k i)
                  0 _ _ _ _ Run) as (_ & L & Hj).
    rewrite length_map. split; [exact L |].
    intros j label v Hn. apply nth_error_map_Some in Hn.
    destruct Hn as (k & Hk & Ek). inversion Ek; subst label v. clear Ek.
    destruct (Hj j k Hk) as (x & tr' & Ex & Nx).
    apply entryText_Ok_inv in Ex.
    destruct Ex as (value0 & value1 & R0 & T1 & ->).
    cbn in T1. inversion T1; subst value1.
    exists value0. split; [exact R0 |].
    rewrite Nx. cbn [plus]. f_equal.
    change (tok_indent (tokensOf defaultOptions pad)) with (pad ++ tab).
    now rewrite !append_assoc.
Qed.

Lemma rendersTo_unique h fuel v o pad s x1 x2 :
  rendersTo h fuel v o pad s x1 -> rendersTo h fuel v o pad s x2 -> x1 = x2.
Proof. intros [tr1 R1] [tr2 R2]. congruence. Qed.

(** C1: under the default options a reference to a composite that is on
    the stack, the chain of the composites being rendered, returns the
    circular marker; a reference to a composite that is not on it returns
    the text of the composite, not the marker, whatever was rendered
    before: each member is rendered on the stack of its composite alone,
    and its text stands at its index in the text of the composite, so two
    members holding the same reference are both rendered in full, with the
    same text, as the two copies of [{val: 10}] of the tests are. *)
Theorem circular_only_on_ancestor_chain h fuel pad s :
  closedHeap h = true -> datesValid h = true -> room h s < S fuel ->
  (forall a, onStack s a = true ->
             prettyPrint h (S fuel) (VRef a) noOptions pad s
             = (Ok CIRCULAR, s, []))
  /\ (forall a, a < List.length h -> onStack s a = false ->
        exists t,
          rendersTo h (S fuel) (VRef a) noOptions pad s t
          /\ t <> CIRCULAR
          /\ (hasMembers h noOptions a = false -> t = "[]" \/ t = "{}")
          /\ (hasMembers h noOptions a = true ->
              exists opening closing parts,
                t = assemble (plainTokens pad) opening closing parts
                /\ List.length parts = List.length (members h a)
                /\ forall j label v,
                     nth_error (members h a) j = Some (Some (label, v)) ->
                     exists x,
                       rendersTo h fuel v defaultOptions (pad ++ tab)
                                 (s ++ [a]) x
                       /\ nth_error parts j
                          = Some (pad ++ tab ++ label ++ x
                                      ++ eolOf (plainTokens pad)
                                           (List.length (members h a)) j)))
  /\ (forall v pad' s' x1 x2,
        rendersTo h fuel v defaultOptions pad' s' x1 ->
        rendersTo h fuel v defaultOptions pad' s' x2 -> x1 = x2).
Proof.
  intros C D R. split; [| split].
  - intros a On. now apply prettyPrint_circular.
  - intros a L N.
    assert (W : wellFormed h (VRef a) noOptions).
    { apply wellFormed_noOptions; auto. cbn. now apply Nat.ltb_lt. }
    destruct (prettyPrint_returns h (S fuel) (VRef a) noOptions pad s W R)
      as [t [tr Run]].
    exists t. split; [now exists tr |].
    destruct (hasMembers h noOptions a) eqn:Hm.
    + destruct (composite_Ok_inv _ _ _ _ _ _ _ _ _ Hm N Run)
        as (opening & closing & parts & M & Et & _ & _).
      change (expandWhiteSpace (spread defaultOptions noOptions)
                (tokensOf (spread defaultOptions noOptions) pad) pad
                (assemble (tokensOf (spread defaultOptions noOptions) pad)
                          opening closing parts))
        with (assemble (plainTokens pad) opening closing parts) in Et.
      destruct (members_rendered _ _ _ _ _ _ _ _ M) as (Op & Len & Hj).
      split; [| split; [discriminate |]].
      * rewrite Et. intros Q. symmetry in Q. revert Q.
        now apply CIRCULAR_not_bracket.
      * intros _. exists opening, closing, parts. auto.
    + cbn [prettyPrint] in Run. unfold body in Run.
      rewrite bind_getSeen in Run. cbn [indexOf] in Run.
      fold (onStack s a) in Run. rewrite N in Run.
      unfold hasMembers in Hm.
      destruct (nth_error h a) as [[elems | props] |] eqn:Ha.
      * destruct elems as [| e elems]; [| discriminate].
        cbn in Run. inversion Run; subst.
        split; [discriminate | split; [now left | discriminate]].
      * change (objKeysOf (spread defaultOptions noOptions) a props)
          with (Normal (ownKeys props)) in *.
        cbn [call] in Run. rewrite bind_ret in Run.
        destruct (ownKeys props) as [| k ks]; [| discriminate].
        cbn in Run. inversion Run; subst.
        split; [discriminate | split; [now right | discriminate]].
      * apply nth_error_None in Ha. lia.
  - intros v pad' s' x1 x2. apply rendersTo_unique.
Qed.

Lemma circular_only_on_ancestor_chain_witness :
  closedHeap heapReused = true /\ datesValid heapReused = true
  /\ render heapReused 3 (VRef 1) noOptions
     = Ok ("{" ++ nl
            ++ tab ++ "foo: {" ++ nl
            ++ tab ++ tab ++ "val: 10" ++ nl
            ++ tab ++ "}," ++ nl
            ++ tab ++ "bar: {" ++ nl
            ++ tab ++ tab ++ "val: 10" ++ nl
            ++ tab ++ "}" ++ nl
            ++ "}")
  /\ exists t,
       rendersTo heapReused 3 (VRef 1) noOptions EmptyString [] t
       /\ t <> CIRCULAR.
Proof.
  split; [reflexivity | split; [reflexivity | split; [reflexivity |]]].
  destruct (circular_only_on_ancestor_chain heapReused 2 EmptyString [])
    as (_ & H & _).
  - reflexivity.
  - reflexivity.
  - cbn. lia.
  - destruct (H 1) as (t & Rt & Nt & _).
    + cbn. lia.
    + reflexivity.
    + now exists t.
Defined.

(** ** Quoting and reading back *)

(** C3 as it is stated fails: a backslash of the string is written as it
    is, so a backslash and [n] come out as the escape of a line break and
    read back as one, in either quote mode; a lone backslash swallows the
    closing quote; and the backslash before a single quote is lost. *)
Lemma backslash_does_not_round_trip :
  textFallback defaultOptions "\n" = "'\n'"
  /\ readLiteral true (textFallback defaultOptions "\n") = Some (str LF)
  /\ readLiteral false (textFallback (withQuotes false) "\n") = Some (str LF)
  /\ readLiteral true (textFallback defaultOptions "\") = None
  /\ readLiteral true (textFallback defaultOptions "a \' d") = Some "a ' d"
  /\ ~ (forall s singleQuotes,
          readLiteral singleQuotes
                      (textFallback (withQuotes singleQuotes) s) = Some s).
Proof.
  repeat split; try reflexivity.
  intros H. specialize (H "\n" true). vm_compute in H. discriminate.
Qed.

Lemma mapChars_app g x y : mapChars g (x ++ y) = mapChars g x ++ mapChars g y.
Proof.
  induction x as [| c x IH]; cbn; [reflexivity |].
  now rewrite IH, append_assoc.
Qed.


Lemma replace_lineBreaks s :
  forall before,
    replaceFrom [str CR; str LF] escapeLineBreak before 0 s
    = mapChars escapeLine s.
Proof.
  induction s as [| c s IH]; intros before; [reflexivity |].
  cbn [replaceFrom firstMatch isPrefix str mapChars]. unfold escapeLine.
  rewrite (Ascii.eqb_sym CR c), (Ascii.eqb_sym LF c).
  destruct (Ascii.eqb c CR) eqn:E1.
  - cbn. now rewrite IH.
  - destruct (Ascii.eqb c LF) eqn:E2.
    + cbn. now rewrite IH.
    + cbn. now rewrite IH.
Qed.

Lemma replace_dquote s :
  forall before,
    replaceFrom [str DQUOTE] (byTemplate (String BACKSLASH (str DQUOTE)))
                before 0 s
    = mapChars (escapeQuote DQUOTE) s.
Proof.
  induction s as [| c s IH]; intros before; [reflexivity |].
  cbn [replaceFrom firstMatch isPrefix str mapChars]. unfold escapeQuote.
  rewrite (Ascii.eqb_sym DQUOTE c).
  destruct (Ascii.eqb c DQUOTE) eqn:E1; cbn; now rewrite IH.
Qed.

Lemma replace_squote s :
  tame s = true ->
  forall before,
    replaceFrom ["\'"; "'"] (byTemplate "\'") before 0 s
    = mapChars (escapeQuote SQUOTE) s.
Proof.
  induction s as [| c s IH]; intros T before; [reflexivity |].
  cbn [tame] in T. apply andb_prop in T. destruct T as [T1 T2].
  apply negb_true_iff in T1.
  cbn [replaceFrom firstMatch mapChars]. unfold escapeQuote.
  change (isPrefix "\'" (String c s))
    with (Ascii.eqb BACKSLASH c && isPrefix "'" s).
  rewrite (Ascii.eqb_sym BACKSLASH c), T1.
  change (isPrefix "'" (String c s)) with (Ascii.eqb SQUOTE c && true).
  rewrite (Ascii.eqb_sym SQUOTE c).
  destruct (Ascii.eqb c SQUOTE) eqn:E1; cbn; now rewrite IH.
Qed.

Lemma hasBackslash_cons c s :
  hasBackslash (String c s) = false ->
  Ascii.eqb c BACKSLASH = false /\ hasBackslash s = false.
Proof.
  unfold hasBackslash. cbn [allChars]. intros H.
  apply negb_false_iff in H. apply andb_prop in H. destruct H as [H1 H2].
  apply negb_true_iff in H1. now rewrite H2.
Qed.

Lemma tame_escapeLine s :
  hasBackslash s = false -> tame (mapChars escapeLine s) = true.
Proof.
  induction s as [| c s IH]; intros H; [reflexivity |].
  apply hasBackslash_cons in H. destruct H as [H1 H2].
  cbn [mapChars]. unfold escapeLine.
  destruct (Ascii.eqb c CR); [cbn; now apply IH |].
  destruct (Ascii.eqb c LF); [cbn; now apply IH |].
  cbn. rewrite H1. cbn. now apply IH.
Qed.

Lemma read_escaped q s :
  q = SQUOTE \/ q = DQUOTE ->
  hasBackslash s = false ->
  readBody q (mapChars (escapeQuote q) (mapChars escapeLine s) ++ str q)
  = Some s.
Proof.
  intros Q. induction s as [| c s IH]; intros H.
  - cbn. now rewrite Ascii.eqb_refl.
  - apply hasBackslash_cons in H. destruct H as [H1 H2].
    specialize (IH H2).
    cbn [mapChars]. rewrite mapChars_app, append_assoc.
    unfold escapeLine at 1.
    destruct (Ascii.eqb c CR) eqn:E1.
    { apply Ascii.eqb_eq in E1. subst c.
      destruct Q as [-> | ->]; cbn; cbn in IH; now rewrite IH. }
    destruct (Ascii.eqb c LF) eqn:E2.
    { apply Ascii.eqb_eq in E2. subst c.
      destruct Q as [-> | ->]; cbn; cbn in IH; now rewrite IH. }
    change (mapChars (escapeQuote q) (str c))
      with (escapeQuote q c ++ EmptyString).
    rewrite append_nil_r. unfold escapeQuote at 1.
    destruct (Ascii.eqb c q) eqn:E3.
    + apply Ascii.eqb_eq in E3. subst c.
      destruct Q as [-> | ->]; cbn; cbn in IH; now rewrite IH.
    + cbn [append str readBody]. rewrite E3, H1, E2, E1. cbn [orb].
      now rewrite IH.
Qed.

Lemma textFallback_escaped o s :
  hasBackslash s = false ->
  textFallback o s
  = str (quoteOf (singleQuotesOf o))
        ++ mapChars (escapeQuote (quoteOf (singleQuotesOf o)))
                    (mapChars escapeLine s)
        ++ str (quoteOf (singleQuotesOf o)).
Proof.
  intros H. unfold textFallback, replace. rewrite replace_lineBreaks.
  destruct (singleQuotesOf o); cbn [negb quoteOf].
  - rewrite replace_squote by now apply tame_escapeLine. reflexivity.
  - rewrite replace_dquote. reflexivity.
Qed.

(** C3, amended: the quoted text of a string that holds no backslash reads
    back as the string, in the single-quote mode and in the double-quote
    mode; it is the text the renderer returns for the string. *)
Theorem quoting_round_trips_without_backslash h fuel o pad seen s :
  hasBackslash s = false ->
  prettyPrint h (S fuel) (txt s) o pad seen
  = (Ok (textFallback (spread defaultOptions o) s), seen, [])
  /\ readLiteral (singleQuotesOf (spread defaultOptions o))
                 (textFallback (spread defaultOptions o) s) = Some s.
Proof.
  intros H. split; [reflexivity |].
  rewrite (textFallback_escaped _ s H).
  set (q := quoteOf (singleQuotesOf (spread defaultOptions o))).
  assert (Q : q = SQUOTE \/ q = DQUOTE).
  { unfold q, quoteOf. destruct (singleQuotesOf _); auto. }
  cbn [readLiteral str append]. rewrite Ascii.eqb_refl.
  now apply read_escaped.
Qed.

Lemma quoting_round_trips_without_backslash_witness :
  hasBackslash sampleText = false
  /\ readLiteral true (textFallback defaultOptions sampleText)
     = Some sampleText
  /\ readLiteral false (textFallback (withQuotes false) sampleText)
     = Some sampleText.
Proof.
  split; [reflexivity | split].
  - exact (proj2 (quoting_round_trips_without_backslash [] 0 noOptions
                    EmptyString [] sampleText eq_refl)).
  - exact (proj2 (quoting_round_trips_without_backslash [] 0
                    (withQuotes false) EmptyString [] sampleText eq_refl)).
Defined.

(** ** The tests of the repository, on the model *)

Example test_simple_object :
  render heapQuotes 2 (VRef 0) (withQuotes true)
  = Ok ("{" ++ nl ++ tab ++ "foo: 'a \' b \' c \' d'" ++ nl ++ "}").
Proof. reflexivity. Qed.

Example test_filter :
  render heapReused 3 (VRef 1) (withFilter noOptions (Some testFilter))
  = Ok ("{" ++ nl
         ++ tab ++ "bar: {" ++ nl
         ++ tab ++ tab ++ "val: 10" ++ nl
         ++ tab ++ "}" ++ nl
         ++ "}").
Proof. reflexivity. Qed.

Example test_transform :
  render heapTransform 3 (VRef 0) (withTransform noOptions (Some testTransform))
  = Ok ("{" ++ nl
         ++ tab ++ "foo: {" ++ nl
         ++ tab ++ tab ++ "val: 11" ++ nl
         ++ tab ++ "}," ++ nl
         ++ tab ++ "bar: '9L'," ++ nl
         ++ tab ++ "baz: [" ++ nl
         ++ tab ++ tab ++ "LOL" ++ nl
         ++ tab ++ "]" ++ nl
         ++ "}").
Proof. reflexivity. Qed.

Example test_nested_inline :
  render heapNested 3 (VRef 0) (withLimit 12)
  = Ok ("{" ++ nl
         ++ tab ++ "arr: [1, 2, 3]," ++ nl
         ++ tab ++ "nested: {" ++ nl
         ++ tab ++ tab ++ "hello: 'world'" ++ nl
         ++ tab ++ "}" ++ nl
         ++ "}").
Proof. reflexivity. Qed.

Example test_empty_input :
  render heapEmpties 1 (VRef 0) noOptions = Ok "[]"
  /\ render heapEmpties 1 (VRef 1) noOptions = Ok "{}".
Proof. split; reflexivity. Qed.

Example sparse_array :
  render heapSparse 2 (VRef 0) noOptions
  = Ok ("[" ++ nl ++ tab ++ "1," ++ nl ++ tab ++ "3" ++ nl ++ "]").
Proof. reflexivity. Qed.

(** * Further properties *)

(** ** The text fallback *)

Lemma replaceFrom_step alts r before c s :
  replaceFrom alts r before 0 (String c s)
  = match firstMatch alts (String c s) with
    | Some m =>
        r m before (dropChars (String.length m) (String c s))
          ++ replaceFrom alts r (before ++ str c) (String.length m - 1) s
    | None => String c (replaceFrom alts r (before ++ str c) 0 s)
    end.
Proof. reflexivity. Qed.

Lemma replaceFrom_skip alts r before k c s :
  replaceFrom alts r before (S k) (String c s)
  = replaceFrom alts r (before ++ str c) k s.
Proof. reflexivity. Qed.

Lemma firstMatch_squote c s :
  firstMatch ["\'"; "'"] (String c s)
  = if Ascii.eqb c BACKSLASH && isPrefix "'" s then Some "\'"
    else if Ascii.eqb c SQUOTE then Some "'" else None.
Proof.
  cbn [firstMatch].
  change (isPrefix "\'" (String c s))
    with (Ascii.eqb BACKSLASH c && isPrefix "'" s).
  change (isPrefix "'" (String c s)) with (Ascii.eqb SQUOTE c && true).
  now rewrite andb_true_r, (Ascii.eqb_sym SQUOTE c),
    (Ascii.eqb_sym BACKSLASH c).
Qed.

Lemma escapeSingle_step c s :
  escapeSingle (String c s)
  = if Ascii.eqb c BACKSLASH && isPrefix "'" s
    then String c (String SQUOTE (escapeSingle (dropChars 1 s)))
    else if Ascii.eqb c SQUOTE
         then String BACKSLASH (String SQUOTE (escapeSingle s))
         else String c (escapeSingle s).
Proof.
  cbn [escapeSingle]. destruct (Ascii.eqb c BACKSLASH) eqn:E1.
  - destruct s as [| d s']; [cbn; apply Ascii.eqb_eq in E1; now subst |].
    change (isPrefix "'" (String d s')) with (Ascii.eqb SQUOTE d && true).
    rewrite andb_true_r, (Ascii.eqb_sym SQUOTE d).
    destruct (Ascii.eqb d SQUOTE) eqn:E2; cbn [andb dropChars].
    + apply Ascii.eqb_eq in E2. now subst d.
    + apply Ascii.eqb_eq in E1. subst c. reflexivity.
  - reflexivity.
Qed.

Lemma replace_squote_any s :
  (forall before,
     replaceFrom ["\'"; "'"] (byTemplate "\'") before 0 s = escapeSingle s)
  /\ (forall c before,
        replaceFrom ["\'"; "'"] (byTemplate "\'") before 0 (String c s)
        = escapeSingle (String c s)).
Proof.
  induction s as [| d s [IH1 IH2]].
  - split; [reflexivity |]. intros c before.
    rewrite replaceFrom_step, firstMatch_squote, escapeSingle_step.
    cbn [isPrefix]. rewrite andb_false_r.
    destruct (Ascii.eqb c SQUOTE); reflexivity.
  - split; [exact (IH2 d) |]. intros c before.
    rewrite replaceFrom_step, firstMatch_squote, escapeSingle_step.
    destruct (Ascii.eqb c BACKSLASH && isPrefix "'" (String d s)) eqn:E1.
    + apply andb_prop in E1. destruct E1 as [E1 E2].
      apply Ascii.eqb_eq in E1. subst c.
      change (String.length "\'" - 1) with 1.
      rewrite replaceFrom_skip, IH1. reflexivity.
    + destruct (Ascii.eqb c SQUOTE).
      * change (String.length "'" - 1) with 0. rewrite IH2. reflexivity.
      * now rewrite IH2.
Qed.

Lemma textFallback_single o s :
  singleQuotesOf o = true ->
  textFallback o s = "'" ++ escapeSingle (mapChars escapeLine s) ++ "'".
Proof.
  intros Q. unfold textFallback, replace. rewrite replace_lineBreaks, Q.
  cbn [negb]. now rewrite (proj1 (replace_squote_any _)).
Qed.

Lemma textFallback_double o s :
  singleQuotesOf o = false ->
  textFallback o s
  = str DQUOTE ++ mapChars (escapeQuote DQUOTE) (mapChars escapeLine s)
        ++ str DQUOTE.
Proof.
  intros Q. unfold textFallback, replace. rewrite replace_lineBreaks, Q.
  cbn [negb]. now rewrite replace_dquote.
Qed.

Lemma allChars_app f x y :
  allChars f (x ++ y) = allChars f x && allChars f y.
Proof.
  induction x as [| c x IH]; cbn; [reflexivity |].
  now rewrite IH, andb_assoc.
Qed.

Lemma allChars_mapChars f g s :
  (forall c, allChars f (g c) = true) -> allChars f (mapChars g s) = true.
Proof.
  intros H. induction s as [| c s IH]; cbn; [reflexivity |].
  now rewrite allChars_app, H, IH.
Qed.

Lemma oneLine_escapeLine c : oneLine (escapeLine c) = true.
Proof.
  unfold escapeLine, oneLine, isLineBreak.
  destruct (Ascii.eqb c CR) eqn:E1; [reflexivity |].
  destruct (Ascii.eqb c LF) eqn:E2; [reflexivity |].
  cbn. now rewrite E1, E2.
Qed.

Lemma oneLine_escapeQuote q c :
  isLineBreak q = false -> isLineBreak c = false ->
  oneLine (escapeQuote q c) = true.
Proof.
  intros Q C. unfold escapeQuote, oneLine.
  destruct (Ascii.eqb c q); cbn; rewrite ?Q, ?C; reflexivity.
Qed.

Lemma oneLine_cons c s :
  oneLine (String c s) = negb (isLineBreak c) && oneLine s.
Proof. reflexivity. Qed.

Lemma oneLine_escapeSingle s :
  (oneLine s = true -> oneLine (escapeSingle s) = true)
  /\ (forall c, oneLine (String c s) = true ->
                oneLine (escapeSingle (String c s)) = true).
Proof.
  induction s as [| d s [IH1 IH2]].
  - split; [reflexivity |]. intros c H. rewrite escapeSingle_step.
    cbn [isPrefix]. rewrite andb_false_r.
    destruct (Ascii.eqb c SQUOTE); [reflexivity | exact H].
  - split; [exact (IH2 d) |]. intros c H.
    rewrite oneLine_cons in H. apply andb_prop in H. destruct H as [Hc Hd].
    rewrite escapeSingle_step.
    destruct (Ascii.eqb c BACKSLASH && isPrefix "'" (String d s)).
    + cbn [dropChars]. rewrite oneLine_cons in Hd. apply andb_prop in Hd.
      destruct Hd as [Hd Hs].
      rewrite !oneLine_cons, Hc. cbn. now apply IH1.
    + destruct (Ascii.eqb c SQUOTE).
      * rewrite !oneLine_cons. cbn. now apply IH2.
      * rewrite oneLine_cons, Hc. cbn. now apply IH2.
Qed.

Lemma oneLine_app x y : oneLine (x ++ y) = oneLine x && oneLine y.
Proof. apply allChars_app. Qed.

(** X1: the text the renderer returns for a string holds no line break,
    in either quote mode, whatever the string holds: the text is one line,
    between two quotes of the mode. *)
Theorem rendered_string_is_one_line h fuel o pad seen s :
  exists b,
    prettyPrint h (S fuel) (txt s) o pad seen
    = (Ok (str (quoteOf (singleQuotesOf (spread defaultOptions o))) ++ b
             ++ str (quoteOf (singleQuotesOf (spread defaultOptions o)))),
       seen, [])
    /\ oneLine b = true.
Proof.
  destruct (singleQuotesOf (spread defaultOptions o)) eqn:Q.
  - exists (escapeSingle (mapChars escapeLine s)). unfold txt.
    rewrite prettyPrint_text, (textFallback_single _ _ Q).
    split; [reflexivity |].
    apply (proj1 (oneLine_escapeSingle _)).
    apply allChars_mapChars. apply oneLine_escapeLine.
  - exists (mapChars (escapeQuote DQUOTE) (mapChars escapeLine s)).
    unfold txt. rewrite prettyPrint_text, (textFallback_double _ _ Q).
    split; [reflexivity |].
    assert (L : oneLine (mapChars escapeLine s) = true)
      by (apply allChars_mapChars; apply oneLine_escapeLine).
    revert L. generalize (mapChars escapeLine s). intros x.
    induction x as [| c x IH]; [reflexivity |].
    rewrite oneLine_cons. intros H. apply andb_prop in H.
    destruct H as [Hc Hx]. apply negb_true_iff in Hc.
    cbn [mapChars].
    rewrite oneLine_app, (oneLine_escapeQuote DQUOTE c eq_refl Hc).
    now apply IH.
Qed.

Lemma mapChars_id g s :
  (forall c, In c (list_ascii_of_string s) -> g c = str c) ->
  mapChars g s = s.
Proof.
  induction s as [| c s IH]; intros H; [reflexivity |].
  cbn [mapChars]. rewrite (H c) by now left.
  rewrite IH; [reflexivity |]. intros d Hd. apply H. now right.
Qed.

Lemma escapeLine_id s : oneLine s = true -> mapChars escapeLine s = s.
Proof.
  intros H. apply mapChars_id. intros c Hc.
  unfold oneLine in H. rewrite allChars_spec in H. specialize (H c Hc).
  apply negb_true_iff in H. unfold isLineBreak in H.
  apply orb_false_iff in H. destruct H as [H1 H2].
  unfold escapeLine. now rewrite H1, H2.
Qed.

Lemma escapeQuote_id q s :
  allChars (fun c => negb (Ascii.eqb c q)) s = true ->
  mapChars (escapeQuote q) s = s.
Proof.
  intros H. apply mapChars_id. intros c Hc.
  rewrite allChars_spec in H. specialize (H c Hc).
  apply negb_true_iff in H. unfold escapeQuote. now rewrite H.
Qed.

Lemma isPrefix_squote_cons c s :
  isPrefix "'" (String c s) = Ascii.eqb c SQUOTE.
Proof.
  change (isPrefix "'" (String c s)) with (Ascii.eqb SQUOTE c && true).
  now rewrite andb_true_r, Ascii.eqb_sym.
Qed.

Lemma escapeSingle_id s :
  allChars (fun c => negb (Ascii.eqb c SQUOTE)) s = true ->
  escapeSingle s = s.
Proof.
  induction s as [| c s IH]; intros H; [reflexivity |].
  cbn [allChars] in H. apply andb_prop in H. destruct H as [Hc Hs].
  apply negb_true_iff in Hc. rewrite escapeSingle_step, Hc.
  assert (P : isPrefix "'" s = false).
  { destruct s as [| d s']; [reflexivity |]. rewrite isPrefix_squote_cons.
    cbn [allChars] in Hs. apply andb_prop in Hs. destruct Hs as [Hd _].
    now apply negb_true_iff in Hd. }
  rewrite P, andb_false_r. now rewrite IH.
Qed.

Lemma nothingToEscape_split q s :
  nothingToEscape q s = true ->
  oneLine s = true /\ allChars (fun c => negb (Ascii.eqb c q)) s = true.
Proof.
  unfold nothingToEscape, oneLine. rewrite !allChars_spec. intros H.
  split; intros c Hc; specialize (H c Hc); apply andb_prop in H; tauto.
Qed.

(** X2: a string with no line break and no quote of the active mode is
    returned as it is between two quotes of the mode. *)
Theorem plain_string_is_wrapped h fuel o pad seen s :
  nothingToEscape (quoteOf (singleQuotesOf (spread defaultOptions o))) s
  = true ->
  prettyPrint h (S fuel) (txt s) o pad seen
  = (Ok (str (quoteOf (singleQuotesOf (spread defaultOptions o))) ++ s
           ++ str (quoteOf (singleQuotesOf (spread defaultOptions o)))),
     seen, []).
Proof.
  intros H. apply nothingToEscape_split in H. destruct H as [L Q].
  unfold txt. rewrite prettyPrint_text.
  destruct (singleQuotesOf (spread defaultOptions o)) eqn:E.
  - cbn [quoteOf] in *.
    rewrite (textFallback_single _ _ E), (escapeLine_id _ L).
    now rewrite (escapeSingle_id _ Q).
  - cbn [quoteOf] in *.
    rewrite (textFallback_double _ _ E), (escapeLine_id _ L).
    now rewrite (escapeQuote_id _ _ Q).
Qed.

Lemma plain_string_is_wrapped_witness :
  nothingToEscape SQUOTE "Jane" = true
  /\ prettyPrint [] 1 (txt "Jane") noOptions EmptyString []
     = (Ok "'Jane'", [], [])
  /\ prettyPrint [] 1 (txt "it's") (withQuotes false) EmptyString []
     = (Ok (str DQUOTE ++ "it's" ++ str DQUOTE), [], []).
Proof.
  split; [reflexivity | split].
  - exact (plain_string_is_wrapped [] 0 noOptions EmptyString [] "Jane"
             eq_refl).
  - exact (plain_string_is_wrapped [] 0 (withQuotes false) EmptyString []
             "it's" eq_refl).
Defined.

Lemma escapeSingle_head s : isPrefix "'" (escapeSingle s) = false.
Proof.
  destruct s as [| c s]; [reflexivity |]. rewrite escapeSingle_step.
  destruct (Ascii.eqb c BACKSLASH && isPrefix "'" s) eqn:E1.
  - apply andb_prop in E1. destruct E1 as [E1 _].
    apply Ascii.eqb_eq in E1. subst c. reflexivity.
  - destruct (Ascii.eqb c SQUOTE) eqn:E2; [reflexivity |].
    now rewrite isPrefix_squote_cons.
Qed.

Lemma escapeSingle_idem s :
  escapeSingle (escapeSingle s) = escapeSingle s
  /\ (forall c, escapeSingle (escapeSingle (String c s))
                = escapeSingle (String c s)).
Proof.
  induction s as [| d s [IH1 IH2]].
  - split; [reflexivity |]. intros c. rewrite escapeSingle_step.
    cbn [isPrefix]. rewrite andb_false_r.
    destruct (Ascii.eqb c SQUOTE) eqn:E2; [reflexivity |].
    rewrite escapeSingle_step. cbn [isPrefix escapeSingle].
    now rewrite andb_false_r, E2.
  - split; [exact (IH2 d) |]. intros c.
    rewrite (escapeSingle_step c (String d s)).
    destruct (Ascii.eqb c BACKSLASH && isPrefix "'" (String d s)) eqn:E1.
    + cbn [dropChars]. rewrite escapeSingle_step.
      apply andb_prop in E1. destruct E1 as [E1 _]. rewrite E1.
      rewrite isPrefix_squote_cons, Ascii.eqb_refl. cbn [andb dropChars].
      now rewrite IH1.
    + destruct (Ascii.eqb c SQUOTE) eqn:E2.
      * rewrite escapeSingle_step. cbn [dropChars].
        change (Ascii.eqb BACKSLASH BACKSLASH) with true.
        rewrite isPrefix_squote_cons, Ascii.eqb_refl. cbn [andb dropChars].
        now rewrite IH2.
      * rewrite escapeSingle_step, escapeSingle_head, andb_false_r, E2.
        now rewrite IH2.
Qed.

(** X3: in the single-quote mode the escaping of quotes is idempotent:
    the text between the quotes of a rendered string is rendered as that
    same text, so a quote that has its backslash gets no second one. *)
Theorem single_quote_escaping_is_idempotent h fuel o pad seen s :
  singleQuotesOf (spread defaultOptions o) = true ->
  exists b,
    prettyPrint h (S fuel) (txt s) o pad seen
    = (Ok ("'" ++ b ++ "'"), seen, [])
    /\ prettyPrint h (S fuel) (txt b) o pad seen
       = (Ok ("'" ++ b ++ "'"), seen, []).
Proof.
  intros Q. exists (escapeSingle (mapChars escapeLine s)). unfold txt.
  rewrite !prettyPrint_text, !(textFallback_single _ _ Q).
  split; [reflexivity |].
  rewrite escapeLine_id.
  - now rewrite (proj1 (escapeSingle_idem _)).
  - apply (proj1 (oneLine_escapeSingle _)).
    apply allChars_mapChars. apply oneLine_escapeLine.
Qed.

Lemma single_quote_escaping_is_idempotent_witness :
  singleQuotesOf (spread defaultOptions noOptions) = true
  /\ exists b,
       prettyPrint [] 1 (txt "a ' b \' c") noOptions EmptyString []
       = (Ok ("'" ++ b ++ "'"), [], [])
       /\ prettyPrint [] 1 (txt b) noOptions EmptyString []
          = (Ok ("'" ++ b ++ "'"), [], []).
Proof.
  split; [reflexivity |].
  exact (single_quote_escaping_is_idempotent [] 0 noOptions EmptyString []
           "a ' b \' c" eq_refl).
Defined.

(** ** The text of a key that is no identifier *)

Lemma length_app x y :
  String.length (x ++ y) = String.length x + String.length y.
Proof. induction x as [| c x IH]; cbn; [reflexivity | now rewrite IH]. Qed.









(** ** Hooks *)

Lemma applyTransform_ask co a p x :
  applyTransform co a p x = call (askTransform co a p x).
Proof. unfold applyTransform, askTransform. now destruct (Options.transform co). Qed.

Lemma spread_withTransform o g :
  spread defaultOptions (withTransform o g)
  = withTransform (spread defaultOptions o) g.
Proof. unfold spread, withTransform. cbn. now destruct g. Qed.

Lemma askTransform_spread o a p x :
  askTransform (spread defaultOptions o) a p x = askTransform o a p x.
Proof. unfold askTransform. now rewrite transform_spread. Qed.

Lemma prettyPrint_withTransform h g fuel :
  forall o v pad s,
    (forall a p x, askTransform (withTransform o g) a p x
                   = askTransform o a p x) ->
    prettyPrint h fuel v (withTransform o g) pad s
    = prettyPrint h fuel v o pad s.
Proof.
  induction fuel as [| fuel IH]; intros o v pad s Ag; [reflexivity |].
  cbn [prettyPrint]. unfold body. rewrite !bind_getSeen.
  rewrite spread_withTransform.
  assert (Ag' : forall a p x,
             askTransform (withTransform (spread defaultOptions o) g) a p x
             = askTransform (spread defaultOptions o) a p x).
  { intros a p x. rewrite askTransform_spread. rewrite <- (Ag a p x).
    reflexivity. }
  set (co := spread defaultOptions o) in *.
  destruct (indexOf s v); [reflexivity |].
  destruct v as [a | d | a]; try reflexivity.
  destruct (nth_error h a) as [[elems | props] |] eqn:Ha; try reflexivity.
  - destruct (List.length elems =? 0)%nat; [reflexivity |].
    rewrite !scoped_run.
    rewrite (mapSlots_ext
               (elementText (prettyPrint h fuel) (withTransform co g)
                  (tokensOf (withTransform co g) pad) pad a
                  (List.length elems))
               (elementText (prettyPrint h fuel) co (tokensOf co pad) pad a
                  (List.length elems))).
    + reflexivity.
    + intros v i s1. unfold elementText.
      change (indentOf (withTransform co g)) with (indentOf co).
      change (tokensOf (withTransform co g) pad) with (tokensOf co pad).
      unfold bind at 1 3.
      rewrite (IH co v _ s1 Ag').
      destruct (prettyPrint h fuel v co (pad ++ indentOf co) s1)
        as [[r s2] tr].
      destruct r; try reflexivity.
      unfold bind. rewrite !applyTransform_ask, Ag'. reflexivity.
  - change (objKeysOf (withTransform co g) a props)
      with (objKeysOf co a props).
    destruct (objKeysOf co a props) as [a0 | e]; [| reflexivity].
    cbn [call]. rewrite !bind_ret.
    destruct (List.length a0 =? 0)%nat; [reflexivity |].
    rewrite !scoped_run.
    rewrite (mapKeys_ext
               (entryText (prettyPrint h fuel) (withTransform co g)
                  (tokensOf (withTransform co g) pad) pad a props
                  (List.length a0))
               (entryText (prettyPrint h fuel) co (tokensOf co pad) pad a
                  props (List.length a0))).
    + reflexivity.
    + intros k i s2. unfold entryText.
      change (indentOf (withTransform co g)) with (indentOf co).
      change (tokensOf (withTransform co g) pad) with (tokensOf co pad).
      assert (Ek : keyText (prettyPrint h fuel) (withTransform co g) k s2
                   = keyText (prettyPrint h fuel) co k s2).
      { destruct k as [t | t]; cbn [keyText]; [| reflexivity].
        destruct (isClassicKey t); [reflexivity |]. apply (IH co _ _ s2 Ag'). }
      unfold bind at 1 4. rewrite Ek.
      destruct (keyText (prettyPrint h fuel) co k s2) as [[r s3] tr3].
      destruct r; try reflexivity.
      unfold bind at 1 3.
      rewrite (IH co _ _ s3 Ag').
      destruct (prettyPrint h fuel (getProp props k) co
                  (pad ++ indentOf co) s3) as [[r4 s4] tr4].
      destruct r4; try reflexivity.
      unfold bind. rewrite !applyTransform_ask, Ag'. reflexivity.
Qed.

(** X4: hooks that do nothing change nothing: with a filter that accepts
    every key and a transform that returns the text it is given, a call
    ends as it does with no hooks, on every value and every stack. *)
Theorem idle_hooks_change_nothing h fuel v o pad s :
  hooksIdle o ->
  prettyPrint h fuel v o pad s
  = prettyPrint h fuel v (withoutHooks o) pad s.
Proof.
  intros [Hf Ht]. unfold withoutHooks.
  rewrite (prettyPrint_withTransform h None fuel (withFilter o None)).
  - rewrite (prettyPrint_withFilter h None fuel o); [reflexivity |].
    intros a props k _. now rewrite Hf.
  - intros a p x. cbn. symmetry. apply Ht.
Qed.

Lemma idle_hooks_change_nothing_witness :
  hooksIdle optionsIdle
  /\ prettyPrint heapReused 3 (VRef 1) optionsIdle EmptyString []
     = prettyPrint heapReused 3 (VRef 1) noOptions EmptyString [].
Proof.
  assert (I : hooksIdle optionsIdle) by (split; intros; reflexivity).
  split; [exact I |].
  exact (idle_hooks_change_nothing heapReused 3 (VRef 1) optionsIdle
           EmptyString [] I).
Defined.

Lemma filterKeys_accepts f l :
  (forall k, exists b, f k = Normal b) ->
  filterKeys f l
  = Normal (filter (fun k => match f k with
                             | Normal b => b
                             | Abrupt _ => false
                             end) l).
Proof.
  intros T. induction l as [| k l IH]; [reflexivity |].
  cbn [filterKeys filter]. destruct (T k) as [b E]. rewrite E, IH.
  reflexivity.
Qed.

Lemma objKeysOf_accepts co a props :
  (forall k, exists b, askFilter co a k = Normal b) ->
  objKeysOf co a props = Normal (filter (accepts co a) (ownKeys props)).
Proof.
  intros T. rewrite objKeysOf_ask. now rewrite (filterKeys_accepts _ _ T).
Qed.

Lemma askFilter_total o a k :
  hooksTotal o -> exists b, askFilter o a k = Normal b.
Proof.
  intros [Hf _]. unfold askFilter.
  destruct (Options.filter o) as [f |] eqn:E.
  - apply (Hf f eq_refl).
  - now exists true.
Qed.

(** X5: the entries of an object are those of the own keys the filter
    accepts, one each and in the order of the own keys; the entry of a key
    is the indentation, the key text, a colon and what the transform hook
    returns for the text of the value of the key, rendered on the stack of
    the object; an object with no accepted key is [{}]. *)
Theorem object_entries_are_accepted_keys h fuel a props o pad s :
  nth_error h a = Some (OObject props) ->
  wellFormed h (VRef a) o -> room h s < S fuel -> onStack s a = false ->
  exists t,
    rendersTo h (S fuel) (VRef a) o pad s t
    /\ (filter (accepts o a) (ownKeys props) = [] -> t = "{}")
    /\ (filter (accepts o a) (ownKeys props) <> [] ->
        exists parts,
          t = expandWhiteSpace (spread defaultOptions o)
                (tokensOf (spread defaultOptions o) pad) pad
                (assemble (tokensOf (spread defaultOptions o) pad)
                          "{" "}" parts)
          /\ List.length parts
             = List.length (filter (accepts o a) (ownKeys props))
          /\ forall j k,
               nth_error (filter (accepts o a) (ownKeys props)) j = Some k ->
               exists value0 value1,
                 rendersTo h fuel (getProp props k) (spread defaultOptions o)
                           (pad ++ indentOf (spread defaultOptions o))
                           (s ++ [a]) value0
                 /\ askTransform o a (PKey k) value0 = Normal value1
                 /\ nth_error parts j
                    = Some (tok_indent
                              (tokensOf (spread defaultOptions o) pad)
                              ++ keyOut (spread defaultOptions o) k ++ ": "
                              ++ value1
                              ++ eolOf
                                   (tokensOf (spread defaultOptions o) pad)
                                   (List.length
                                      (filter (accepts o a) (ownKeys props)))
                                   j)).
Proof.
  intros Ha W R N.
  destruct (prettyPrint_returns h (S fuel) (VRef a) o pad s W R)
    as [t [tr Run]].
  assert (K : objKeysOf (spread defaultOptions o) a props
              = Normal (filter (accepts o a) (ownKeys props))).
  { rewrite objKeysOf_accepts.
    - f_equal. apply filter_ext. intros k. unfold accepts.
      now rewrite askFilter_spread.
    - intros k. rewrite askFilter_spread. apply askFilter_total. apply W. }
  exists t. split; [now exists tr |]. split.
  - intros E. rewrite E in K. cbn [prettyPrint] in Run. unfold body in Run.
    rewrite bind_getSeen in Run. cbn [indexOf] in Run.
    fold (onStack s a) in Run. rewrite N, Ha, K in Run. cbn in Run.
    now inversion Run.
  - intros Ne.
    assert (Hm : hasMembers h o a = true).
    { unfold hasMembers. rewrite Ha, K.
      destruct (filter (accepts o a) (ownKeys props)); [congruence |].
      reflexivity. }
    destruct (composite_Ok_inv _ _ _ _ _ _ _ _ _ Hm N Run)
      as (opening & closing & parts & M & Et & _ & _).
    unfold membersOf in M. rewrite Ha in M.
    destruct M as (-> & -> & keys & tr1 & K' & E).
    rewrite K in K'. inversion K'; subst keys. clear K'.
    exists parts. split; [exact Et |].
    pose proof (mapKeys_Ok _ _
                  (fun k i => frames_entryText _ (frames_prettyPrint h fuel)
                                _ _ _ _ _ _ k i) 0 _ _ _ _ E)
      as (_ & L & Hj).
    split; [exact L |]. intros j k Hk.
    destruct (Hj j k Hk) as (x & tr' & Ex & Nx).
    apply entryText_Ok_inv in Ex.
    destruct Ex as (value0 & value1 & R0 & T1 & ->).
    exists value0, value1. split; [exact R0 | split; [| exact Nx]].
    rewrite applyTransform_ask, askTransform_spread in T1.
    destruct (askTransform o a (PKey k) value0); cbn in T1;
      now inversion T1.
Qed.

Lemma object_entries_are_accepted_keys_witness :
  wellFormed heapReused (VRef 1) optionsTestFilter
  /\ filter (accepts optionsTestFilter 1)
            (ownKeys [field "foo" (VRef 0); field "bar" (VRef 0)])
     = [KString "bar"]
  /\ exists t, rendersTo heapReused 3 (VRef 1) optionsTestFilter
                         EmptyString [] t.
Proof.
  assert (W : wellFormed heapReused (VRef 1) optionsTestFilter).
  { repeat split; try reflexivity.
    - intros f E a p. inversion E. unfold testFilter.
      destruct p as [[k | k] | i]; eexists; reflexivity.
    - intros g E. discriminate. }
  split; [exact W | split; [reflexivity |]].
  destruct (object_entries_are_accepted_keys heapReused 2 1 _
              optionsTestFilter EmptyString [] eq_refl W)
    as (t & Rt & _).
  - cbn. lia.
  - reflexivity.
  - now exists t.
Defined.

(** ** Calls that raise *)

Lemma composite_Throw_inv h fuel a o pad s e s' tr :
  hasMembers h o a = true -> onStack s a = false ->
  prettyPrint h (S fuel) (VRef a) o pad s = (Throw e, s', tr) ->
  exists ext, s' = (s ++ a :: ext)%list.
Proof.
  intros Hm N Run. cbn [prettyPrint] in Run. unfold hasMembers in Hm.
  destruct (nth_error h a) as [[elems | props] |] eqn:Ha; try discriminate.
  - assert (Ne : elems <> []) by (intros ->; discriminate).
    rewrite (body_array _ _ _ _ _ _ _ Ha N Ne), scoped_run in Run.
    match type of Run with
    | match ?X with _ => _ end = _ => destruct X as [[r1 s1] tr1] eqn:E1
    end.
    destruct r1; try discriminate. inversion Run; subst. clear Run.
    pose proof (frames_mapSlots _ elems
                  (fun v i => frames_elementText _
                                (frames_prettyPrint h fuel) _ _ _ _ _ v i)
                  0 _ _ _ _ E1) as [ext F].
    exists ext. rewrite F. now rewrite <- app_assoc.
  - destruct (objKeysOf (spread defaultOptions o) a props)
      as [keys | e'] eqn:K; try discriminate.
    assert (Ne : keys <> []) by (intros ->; discriminate).
    rewrite (body_object _ _ _ _ _ _ _ _ Ha N K Ne), scoped_run in Run.
    match type of Run with
    | match ?X with _ => _ end = _ => destruct X as [[r1 s1] tr1] eqn:E1
    end.
    destruct r1; try discriminate. inversion Run; subst. clear Run.
    pose proof (frames_mapKeys _ keys
                  (fun k i => frames_entryText _
                                (frames_prettyPrint h fuel)
                                _ _ _ _ _ _ k i)
                  0 _ _ _ _ E1) as [ext F].
    exists ext. rewrite F. now rewrite <- app_assoc.
Qed.

(** X6: what a raise leaves behind.  A filter hook that raises on a key
    of an object ends the call on that object before its push: the stack
    is as it was and nothing was pushed.  A raise while the members of a
    composite are rendered leaves the composite on the stack, and every
    later call on it, with any options, returns the circular marker in
    place of its text.  A call that raises removes nothing from the stack
    it found. *)
Theorem raise_marks_composite_circular h fuel a o pad s :
  onStack s a = false ->
  (forall props e,
     nth_error h a = Some (OObject props) ->
     objKeysOf (spread defaultOptions o) a props = Abrupt e ->
     prettyPrint h (S fuel) (VRef a) o pad s = (Throw e, s, []))
  /\ (forall e s' tr,
        hasMembers h o a = true ->
        prettyPrint h (S fuel) (VRef a) o pad s = (Throw e, s', tr) ->
        onStack s' a = true
        /\ forall n o' pad',
             prettyPrint h (S n) (VRef a) o' pad' s'
             = (Ok CIRCULAR, s', []))
  /\ (forall v n e s' tr b,
        prettyPrint h n v o pad s = (Throw e, s', tr) ->
        onStack s b = true -> onStack s' b = true).
Proof.
  intros N. split; [| split].
  - intros props e Ha K. cbn [prettyPrint]. unfold body.
    rewrite bind_getSeen. cbn [indexOf]. fold (onStack s a).
    rewrite N, Ha, K. reflexivity.
  - intros e s' tr Hm Run.
    destruct (composite_Throw_inv _ _ _ _ _ _ _ _ _ Hm N Run) as [ext ->].
    assert (On : onStack (s ++ a :: ext) a = true).
    { rewrite onStack_app. cbn. rewrite Nat.eqb_refl. cbn.
      apply orb_true_r. }
    split; [exact On |]. intros n o' pad'. now apply prettyPrint_circular.
  - intros v n e s' tr b Run On.
    destruct (frames_prettyPrint h n v o pad _ _ _ _ Run) as [ext ->].
    rewrite onStack_app, On. reflexivity.
Qed.

Lemma raise_marks_composite_circular_witness :
  onStack [] 0 = false
  /\ prettyPrint heapBoom 2 (VRef 0)
                 (withFilter noOptions (Some raisingFilter)) EmptyString []
     = (Throw (Thrown "filter"), [], [])
  /\ prettyPrint heapBadDate 2 (VRef 0) noOptions EmptyString []
     = (Throw (RangeError "Invalid time value"), [0], [Push 0])
  /\ forall n o' pad',
       prettyPrint heapBadDate (S n) (VRef 0) o' pad' [0]
       = (Ok CIRCULAR, [0], []).
Proof.
  split; [reflexivity | split; [| split; [reflexivity |]]].
  - apply (proj1 (raise_marks_composite_circular heapBoom 1 0
                    (withFilter noOptions (Some raisingFilter))
                    EmptyString [] eq_refl)
             [field "boom" (num "1")]); reflexivity.
  - apply (proj1 (proj2 (raise_marks_composite_circular heapBadDate 1 0
                           noOptions EmptyString [] eq_refl))
             (RangeError "Invalid time value") [0] [Push 0]); reflexivity.
Defined.

(** ** Acyclic value graphs *)

Lemma lifts_ret s {A} (a : A) : lifts s (ret a).
Proof. intros t r t' tr H. inversion H; subst. reflexivity. Qed.

Lemma lifts_throw s {A} e : lifts s (@throw A e).
Proof. intros t r t' tr H. inversion H; subst. reflexivity. Qed.

Lemma lifts_wild s {A} : lifts s (@wild A).
Proof. intros t r t' tr H. inversion H; subst. reflexivity. Qed.

Lemma lifts_outOfFuel s {A} : lifts s (@outOfFuel A).
Proof. intros t r t' tr H. inversion H; subst. reflexivity. Qed.

Lemma lifts_call s {A} (c : completion A) : lifts s (call c).
Proof. destruct c; [apply lifts_ret | apply lifts_throw]. Qed.

Lemma lifts_bind s {A B} (m : M A) (k : A -> M B) :
  lifts s m -> (forall a, lifts s (k a)) -> lifts s (bind m k).
Proof.
  intros Hm Hk t r t' tr. unfold bind.
  destruct (m t) as [[r1 t1] tr1] eqn:E1.
  rewrite (Hm _ _ _ _ E1).
  destruct r1; try (intros H; inversion H; subst; reflexivity).
  destruct (k a t1) as [[r2 t2] tr2] eqn:E2.
  rewrite (Hk _ _ _ _ _ E2). intros H. inversion H; subst. reflexivity.
Qed.

Lemma lifts_scoped s {A B} (a : addr) (m : M A) (g : A -> B) :
  frames m -> lifts s m ->
  lifts s (seen_push a ;;; x <- m ;; seen_pop ;;; ret (g x)).
Proof.
  intros F L t r t' tr. rewrite !scoped_run, <- app_assoc.
  destruct (m (t ++ [a])%list) as [[r1 t1] tr1] eqn:E1.
  rewrite (L _ _ _ _ E1).
  pose proof (F _ _ _ _ E1) as Ft.
  destruct r1; try (intros H; inversion H; subst; reflexivity).
  cbn in Ft. subst t1. intros H. inversion H; subst.
  rewrite removelast_app by (intros Q; now apply app_eq_nil in Q).
  reflexivity.
Qed.

Lemma lifts_mapSlots s f l :
  (forall v i, In (Some v) l -> lifts s (f v i)) ->
  forall i, lifts s (mapSlots f l i).
Proof.
  induction l as [| [v |] l IH]; intros Hf i; cbn [mapSlots].
  - apply lifts_ret.
  - apply lifts_bind; [apply Hf; now left |]. intros x.
    apply lifts_bind; [| intros rest; apply lifts_ret].
    apply IH. intros w j Hw. apply Hf. now right.
  - apply lifts_bind; [| intros rest; apply lifts_ret].
    apply IH. intros w j Hw. apply Hf. now right.
Qed.

Lemma lifts_mapKeys s f l :
  (forall k i, lifts s (f k i)) -> forall i, lifts s (mapKeys f l i).
Proof.
  intros Hf. induction l as [| k l IH]; intros i; cbn [mapKeys].
  - apply lifts_ret.
  - apply lifts_bind; [apply Hf |]. intros x.
    apply lifts_bind; [apply IH | intros rest; apply lifts_ret].
Qed.

Lemma acyclicBy_at rank h a obj :
  acyclicBy rank h = true -> nth_error h a = Some obj ->
  objectAll (descends rank (rank a)) obj = true.
Proof.
  intros A Ha. unfold acyclicBy in A. rewrite forallb_forall in A.
  assert (L : a < List.length h) by (apply nth_error_Some; congruence).
  specialize (A a). rewrite Ha in A. apply A. apply in_seq. lia.
Qed.

Lemma below_off rank s a :
  below rank s (VRef a) = true -> onStack s a = false.
Proof.
  unfold below, onStack. intros B.
  destruct (existsb (Nat.eqb a) s) eqn:E; [| reflexivity].
  apply existsb_exists in E. destruct E as (b & Hb & Eb).
  apply Nat.eqb_eq in Eb. subst b. rewrite forallb_forall in B.
  specialize (B a Hb). cbn in B. apply Nat.ltb_lt in B. lia.
Qed.

Lemma below_member rank s a v :
  below rank s (VRef a) = true -> descends rank (rank a) v = true ->
  below rank s v = true.
Proof.
  unfold below. rewrite !forallb_forall. intros B D b Hb.
  specialize (B b Hb). destruct v as [x | d | c]; try reflexivity.
  cbn in *. apply Nat.ltb_lt in B, D. apply Nat.ltb_lt. lia.
Qed.

Lemma lifts_prettyPrint rank h s fuel :
  acyclicBy rank h = true ->
  forall v o pad,
    below rank s v = true -> lifts s (prettyPrint h fuel v o pad).
Proof.
  intros A. induction fuel as [| fuel IH]; intros v o pad B;
    cbn [prettyPrint]; [apply lifts_outOfFuel |].
  intros t. unfold body. rewrite !bind_getSeen.
  assert (I : indexOf (s ++ t) v = indexOf t v).
  { destruct v as [x | d | a]; try reflexivity. cbn [indexOf].
    fold (onStack (s ++ t) a). fold (onStack t a).
    now rewrite onStack_app, (below_off _ _ _ B). }
  rewrite I. destruct (indexOf t v); [apply lifts_ret |].
  destruct v as [x | [iso |] | a].
  - destruct (isPlain x); apply lifts_ret.
  - apply lifts_ret.
  - apply lifts_throw.
  - destruct (nth_error h a) as [[elems | props] |] eqn:Ha;
      [| | apply lifts_wild].
    + pose proof (acyclicBy_at _ _ _ _ A Ha) as D. cbn in D.
      rewrite forallb_forall in D.
      destruct (List.length elems =? 0)%nat; [apply lifts_ret |].
      apply (lifts_scoped s a
               (mapSlots (elementText (prettyPrint h fuel) _ _ pad a
                                      (List.length elems)) elems 0)).
      * apply frames_mapSlots. intros v i. apply frames_elementText.
        apply frames_prettyPrint.
      * apply lifts_mapSlots. intros v i Hv. unfold elementText.
        apply lifts_bind.
        -- apply IH. apply (below_member _ _ a); auto. apply (D _ Hv).
        -- intros x. apply lifts_bind; [| intros y; apply lifts_ret].
           rewrite applyTransform_ask. apply lifts_call.
    + pose proof (acyclicBy_at _ _ _ _ A Ha) as D. cbn in D.
      apply lifts_bind; [apply lifts_call |]. intros keys.
      destruct (List.length keys =? 0)%nat; [apply lifts_ret |].
      apply (lifts_scoped s a
               (mapKeys (entryText (prettyPrint h fuel) _ _ pad a props
                                   (List.length keys)) keys 0)).
      * apply frames_mapKeys. intros k i. apply frames_entryText.
        apply frames_prettyPrint.
      * apply lifts_mapKeys. intros k i. unfold entryText.
        apply lifts_bind.
        -- destruct k as [x | x]; cbn [keyText]; [| apply lifts_ret].
           destruct (isClassicKey x); [apply lifts_ret |].
           apply IH. unfold below. apply forallb_forall. reflexivity.
        -- intros key0. apply lifts_bind.
           ++ apply IH. apply (below_member _ _ a); auto.
              now apply getProp_all.
           ++ intros x. apply lifts_bind; [| intros y; apply lifts_ret].
              rewrite applyTransform_ask. apply lifts_call.
Qed.

(** X7: in an acyclic value graph the rendering of a value does not depend
    on the stack it starts from, when the stack holds none of the objects
    the value reaches: the call ends as it does on the empty stack, with
    the same text, so no occurrence of a composite is replaced by the
    circular marker because of what is being rendered around it. *)
Theorem acyclic_rendering_ignores_stack rank h fuel v o pad s :
  acyclicBy rank h = true -> below rank s v = true ->
  forall r t' tr,
    prettyPrint h fuel v o pad [] = (r, t', tr) ->
    prettyPrint h fuel v o pad s = (r, (s ++ t')%list, tr).
Proof.
  intros A B r t' tr Run.
  pose proof (lifts_prettyPrint rank h s fuel A v o pad B [] r t' tr Run)
    as L.
  now rewrite app_nil_r in L.
Qed.

Lemma acyclic_rendering_ignores_stack_witness :
  acyclicBy rankReused heapReused = true
  /\ below rankReused [1] (VRef 0) = true
  /\ prettyPrint heapReused 2 (VRef 0) noOptions tab [1]
     = (Ok ("{" ++ nl ++ tab ++ tab ++ "val: 10" ++ nl ++ tab ++ "}"),
        [1], [Push 0; Pop]).
Proof.
  split; [reflexivity | split; [reflexivity |]].
  apply (acyclic_rendering_ignores_stack rankReused heapReused 2 (VRef 0)
           noOptions tab [1] eq_refl eq_refl (Ok _) [] _).
  reflexivity.
Defined.

(** ** The pad *)

Lemma carries_bind {A B} (R : A -> A -> Prop) (R' : B -> B -> Prop)
      (m m' : M A) (k k' : A -> M B) :
  carries R m m' ->
  (forall x y, R x y -> carries R' (k x) (k' y)) ->
  carries R' (bind m k) (bind m' k').
Proof.
  intros Hm Hk s z s2 tr H. apply bind_Ok_inv in H.
  destruct H as (x & s1 & tr1 & tr2 & E1 & E2 & ->).
  destruct (Hm _ _ _ _ E1) as (y & E1' & Rxy).
  destruct (Hk _ _ Rxy _ _ _ _ E2) as (z' & E2' & Rz).
  exists z'. split; [| exact Rz].
  rewrite (bind_ok _ _ _ _ _ _ E1'), E2'. reflexivity.
Qed.

Lemma carries_ret {A} (R : A -> A -> Prop) x y :
  R x y -> carries R (ret x) (ret y).
Proof.
  intros Rxy s z s1 tr H. inversion H; subst. exists y. now split.
Qed.

Lemma carries_same {A} (R : A -> A -> Prop) (m : M A) :
  (forall x, R x x) -> carries R m m.
Proof. intros Rr s x s1 tr H. exists x. now split. Qed.

Lemma shift_app p x y : shift p (x ++ y) = shift p x ++ shift p y.
Proof. apply mapChars_app. Qed.

Lemma shift_noLF p x : noLF x = true -> shift p x = x.
Proof.
  intros H. apply mapChars_id. intros c Hc. unfold noLF in H.
  rewrite allChars_spec in H. specialize (H c Hc).
  apply negb_true_iff in H. unfold shiftChar. now rewrite H.
Qed.

Lemma noLF_app x y : noLF (x ++ y) = noLF x && noLF y.
Proof. apply allChars_app. Qed.

Lemma oneLine_noLF x : oneLine x = true -> noLF x = true.
Proof.
  unfold oneLine, noLF. rewrite !allChars_spec. intros H c Hc.
  specialize (H c Hc). apply negb_true_iff in H. unfold isLineBreak in H.
  apply orb_false_iff in H. destruct H as [_ H]. now rewrite H.
Qed.

Lemma noLF_textFallback o s : noLF (textFallback o s) = true.
Proof.
  apply oneLine_noLF.
  destruct (singleQuotesOf o) eqn:Q.
  - rewrite (textFallback_single _ _ Q), !oneLine_app.
    rewrite (proj1 (oneLine_escapeSingle _)); [reflexivity |].
    apply allChars_mapChars. apply oneLine_escapeLine.
  - rewrite (textFallback_double _ _ Q), !oneLine_app.
    assert (L : oneLine (mapChars escapeLine s) = true)
      by (apply allChars_mapChars; apply oneLine_escapeLine).
    revert L. generalize (mapChars escapeLine s). intros x L.
    assert (X : oneLine (mapChars (escapeQuote DQUOTE) x) = true).
    { induction x as [| c x IH]; [reflexivity |].
      rewrite oneLine_cons in L. apply andb_prop in L.
      destruct L as [Hc Hx]. apply negb_true_iff in Hc.
      cbn [mapChars].
      rewrite oneLine_app, (oneLine_escapeQuote DQUOTE c eq_refl Hc).
      now apply IH. }
    now rewrite X.
Qed.

Lemma noLF_classic s : isClassicKey s = true -> noLF s = true.
Proof.
  intros H. destruct s as [| c s]; [discriminate |]. cbn in H.
  apply andb_prop in H. destruct H as [Hc Hs].
  assert (P : forall d, isPart d = true -> negb (Ascii.eqb d LF) = true).
  { intros d Hd. destruct (Ascii.eqb d LF) eqn:E; [| reflexivity].
    apply Ascii.eqb_eq in E. subst d. discriminate. }
  unfold noLF. cbn [allChars]. rewrite P.
  - cbn. rewrite allChars_spec in *. intros d Hd. apply P. now apply Hs.
  - unfold isPart. now rewrite Hc.
Qed.

Lemma noLF_keyOut co k : flatKey k = true -> noLF (keyOut co k) = true.
Proof.
  destruct k as [s | s]; cbn [keyOut flatKey keyString String_].
  - intros _. destruct (isClassicKey s) eqn:E.
    + now apply noLF_classic.
    + apply noLF_textFallback.
  - intros H. rewrite !noLF_app, H. reflexivity.
Qed.

Lemma carries_mapSlots (R : string -> string -> Prop) f f' l :
  R EmptyString EmptyString ->
  (forall v i, In (Some v) l -> carries R (f v i) (f' v i)) ->
  forall i, carries (Forall2 R) (mapSlots f l i) (mapSlots f' l i).
Proof.
  intros R0. induction l as [| [v |] l IH]; intros Hf i; cbn [mapSlots].
  - apply carries_ret. constructor.
  - apply (carries_bind R); [apply Hf; now left |]. intros x y Rxy.
    apply (carries_bind (Forall2 R)).
    + apply IH. intros w j Hw. apply Hf. now right.
    + intros xs ys Rs. apply carries_ret. now constructor.
  - apply (carries_bind (Forall2 R)).
    + apply IH. intros w j Hw. apply Hf. now right.
    + intros xs ys Rs. apply carries_ret. now constructor.
Qed.

Lemma carries_mapKeys (R : string -> string -> Prop) f f' l :
  (forall k i, In k l -> carries R (f k i) (f' k i)) ->
  forall i, carries (Forall2 R) (mapKeys f l i) (mapKeys f' l i).
Proof.
  induction l as [| k l IH]; intros Hf i; cbn [mapKeys].
  - apply carries_ret. constructor.
  - apply (carries_bind R); [apply Hf; now left |]. intros x y Rxy.
    apply (carries_bind (Forall2 R)).
    + apply IH. intros w j Hw. apply Hf. now right.
    + intros xs ys Rs. apply carries_ret. now constructor.
Qed.

Lemma tokensOf_plain co pad :
  Options.inlineCharacterLimit co = None ->
  tokensOf co pad
  = {| tok_newLine := str LF; tok_newLineOrSpace := str LF;
       tok_pad := pad; tok_indent := pad ++ indentOf co |}.
Proof. unfold tokensOf. now intros ->. Qed.

Lemma expandWhiteSpace_off co tokens pad t :
  Options.inlineCharacterLimit co = None ->
  expandWhiteSpace co tokens pad t = t.
Proof. unfold expandWhiteSpace. now intros ->. Qed.

Lemma shift_LF p : shift p (str LF) = str LF ++ p.
Proof. cbn. now rewrite append_nil_r. Qed.

Lemma join_cons x xs : join (x :: xs) = x ++ join xs.
Proof.
  unfold join. destruct xs as [| y xs]; cbn; [| reflexivity].
  now rewrite append_nil_r.
Qed.

Lemma shift_join p xs ys :
  Forall2 (shiftedPart p) xs ys ->
  p ++ shift p (join xs) = join ys ++ p.
Proof.
  induction 1 as [| x y xs ys Rxy Rs IH].
  - cbn. now rewrite append_nil_r.
  - rewrite !join_cons.
    rewrite shift_app, <- append_assoc, Rxy, !append_assoc. now rewrite IH.
Qed.

Lemma shift_assemble p q opening closing xs ys :
  noLF opening = true -> noLF closing = true -> noLF q = true ->
  Forall2 (shiftedPart p) xs ys ->
  shift p (opening ++ str LF ++ join xs ++ q ++ closing)
  = opening ++ str LF ++ join ys ++ (p ++ q) ++ closing.
Proof.
  intros O C Q Rs.
  rewrite !shift_app, shift_LF, (shift_noLF _ _ O), (shift_noLF _ _ C),
    (shift_noLF _ _ Q).
  rewrite !append_assoc. f_equal. f_equal.
  rewrite <- !append_assoc. rewrite (shift_join _ _ _ Rs).
  now rewrite !append_assoc.
Qed.

Lemma eolOf_plain_shift p co pad len i :
  Options.inlineCharacterLimit co = None ->
  shift p (eolOf (tokensOf co pad) len i) = eolOf (tokensOf co pad) len i ++ p.
Proof.
  intros L. rewrite (tokensOf_plain _ _ L). unfold eolOf. cbn [tok_newLine
    tok_newLineOrSpace].
  destruct (len - 1 =? i)%nat; cbn; now rewrite append_nil_r.
Qed.

Lemma eolOf_pad co pad pad' len i :
  Options.inlineCharacterLimit co = None ->
  eolOf (tokensOf co pad) len i = eolOf (tokensOf co pad') len i.
Proof. intros L. now rewrite !(tokensOf_plain _ _ L). Qed.

Lemma flatHeap_slot h a elems v :
  flatHeap h = true -> nth_error h a = Some (OArray elems) ->
  In (Some v) elems -> flatValue v = true.
Proof.
  intros H E I. unfold flatHeap in H. rewrite forallb_forall in H.
  specialize (H _ (nth_error_In _ _ E)). cbn in H.
  rewrite forallb_forall in H. exact (H _ I).
Qed.

Lemma flatHeap_props h a props :
  flatHeap h = true -> nth_error h a = Some (OObject props) ->
  (forall k, flatValue (getProp props k) = true)
  /\ (forall k, In k (ownKeys props) -> flatKey k = true).
Proof.
  intros H E. unfold flatHeap in H. rewrite forallb_forall in H.
  specialize (H _ (nth_error_In _ _ E)). cbn in H.
  rewrite forallb_forall in H. split.
  - intros k. clear E. induction props as [| q ps IH]; [reflexivity |].
    cbn. destruct (key_eqb (name q) k).
    + specialize (H q (or_introl eq_refl)). now apply andb_prop in H.
    + apply IH. intros x Hx. apply H. now right.
  - intros k Hk. destruct k as [x | x]; [reflexivity |].
    unfold ownKeys in Hk. apply in_app_or in Hk. destruct Hk as [Hk | Hk].
    + apply in_map_iff in Hk. destruct Hk as (y & Hy & _). discriminate.
    + apply in_map_iff in Hk. destruct Hk as (y & Hy & Hin).
      inversion Hy; subst y. unfold getOwnEnumPropSymbols in Hin.
      apply filter_In in Hin. destruct Hin as [Hin _].
      assert (P : exists q, In q props /\ name q = KSymbol x).
      { clear - Hin. induction props as [| q ps IH]; [destruct Hin |].
        cbn in Hin. destruct (name q) as [z | z] eqn:Eq.
        - destruct (IH Hin) as (r & Hr & Er). exists r. split; [now right | auto].
        - destruct Hin as [-> | Hin].
          + exists q. split; [now left | auto].
          + destruct (IH Hin) as (r & Hr & Er). exists r.
            split; [now right | auto]. }
      destruct P as (q & Hq & Eq). specialize (H q Hq).
      apply andb_prop in H. destruct H as [_ H]. now rewrite Eq in H.
Qed.

Lemma transform_off_run co a pr x (F : string -> string) s :
  Options.transform co = None ->
  (value1 <- applyTransform co a pr x ;; ret (F value1)) s = (Ok (F x), s, []).
Proof. intros T. unfold applyTransform. rewrite T. reflexivity. Qed.

Lemma shift_prettyPrint h p fuel :
  flatHeap h = true ->
  forall v o q,
    Options.inlineCharacterLimit o = None ->
    Options.transform o = None ->
    noLF (indentOf (spread defaultOptions o)) = true ->
    noLF q = true -> flatValue v = true ->
    carries (fun t t' => t' = shift p t)
            (prettyPrint h fuel v o q) (prettyPrint h fuel v o (p ++ q)).
Proof.
  intros FH. induction fuel as [| fuel IH]; intros v o q L T I Q FV;
    [intros s x s1 tr H; discriminate |].
  assert (L' : Options.inlineCharacterLimit (spread defaultOptions o) = None)
    by now rewrite limit_spread.
  assert (T' : Options.transform (spread defaultOptions o) = None)
    by now rewrite transform_spread.
  assert (I' : noLF (indentOf (spread defaultOptions
                                 (spread defaultOptions o))) = true)
    by now rewrite spread_idem.
  assert (IHm : forall w, flatValue w = true ->
            carries (fun t t' => t' = shift p t)
              (prettyPrint h fuel w (spread defaultOptions o)
                 (q ++ indentOf (spread defaultOptions o)))
              (prettyPrint h fuel w (spread defaultOptions o)
                 ((p ++ q) ++ indentOf (spread defaultOptions o)))).
  { intros w Fw. rewrite append_assoc. apply IH; auto.
    now rewrite noLF_app, Q, I. }
  assert (TR : forall a pr x s,
             applyTransform (spread defaultOptions o) a pr x s
             = (Ok x, s, [])).
  { intros a pr x s. unfold applyTransform. now rewrite T'. }
  cbn [prettyPrint]. intros s t s1 tr H. unfold body in *.
  rewrite bind_getSeen in *.
  destruct (indexOf s v).
  { inversion H; subst. eexists. split; reflexivity. }
  destruct v as [a | [iso |] | a].
  - destruct (isPlain a) eqn:Pl.
    + inversion H; subst. eexists. split; [reflexivity |].
      cbn in FV. rewrite Pl in FV. now rewrite shift_noLF.
    + inversion H; subst. eexists. split; [reflexivity |].
      now rewrite shift_noLF by apply noLF_textFallback.
  - inversion H; subst. eexists. split; [reflexivity |].
    assert (N : noLF ("new Date('" ++ iso ++ "')") = true)
      by (cbn in FV; now rewrite !noLF_app, FV).
    exact (eq_sym (shift_noLF p _ N)).
  - discriminate.
  - destruct (nth_error h a) as [[elems | props] |] eqn:Ha;
      [| | discriminate].
    + destruct (List.length elems =? 0)%nat.
      { inversion H; subst. eexists. split; reflexivity. }
      rewrite scoped_run in *.
      match type of H with
      | match ?X with _ => _ end = _ => destruct X as [[r s2] tr2] eqn:E
      end.
      destruct r; try discriminate. inversion H; subst. clear H.
      assert (C : carries (Forall2 (shiftedPart p))
                (mapSlots (elementText (prettyPrint h fuel)
                             (spread defaultOptions o)
                             (tokensOf (spread defaultOptions o) q) q a
                             (List.length elems)) elems 0)
                (mapSlots (elementText (prettyPrint h fuel)
                             (spread defaultOptions o)
                             (tokensOf (spread defaultOptions o) (p ++ q))
                             (p ++ q) a (List.length elems)) elems 0)).
      { apply carries_mapSlots.
        - unfold shiftedPart. cbn. now rewrite append_nil_r.
        - intros w i Hw. unfold elementText.
          apply (carries_bind (fun t t' => t' = shift p t)).
          + apply IHm. now apply (flatHeap_slot h a elems).
          + intros x y ->. intros s0 z s3 tr3 Hz.
            rewrite (transform_off_run _ _ _ _ _ _ T') in Hz.
            rewrite (transform_off_run _ _ _ _ _ _ T').
            inversion Hz; subst. eexists.
            split; [reflexivity |]. unfold shiftedPart.
            rewrite !shift_app, (eolOf_plain_shift _ _ _ _ _ L').
            rewrite (eolOf_pad _ q (p ++ q) _ _ L').
            rewrite !(tokensOf_plain _ _ L'). cbn [tok_indent].
            rewrite shift_noLF by now rewrite noLF_app, Q, I.
            now rewrite !append_assoc. }
      destruct (C _ _ _ _ E) as (ys & E' & Rs). rewrite E'.
      eexists. split; [reflexivity |].
      rewrite !(expandWhiteSpace_off _ _ _ _ L'), !(tokensOf_plain _ _ L').
      cbn [tok_newLine tok_pad]. symmetry.
      now apply (shift_assemble p q "[" "]").
    + destruct (flatHeap_props h a props FH Ha) as [FP FK].
      destruct (objKeysOf (spread defaultOptions o) a props)
        as [keys | e] eqn:K; [| discriminate].
      cbn [call] in *. rewrite bind_ret in *.
      destruct (List.length keys =? 0)%nat.
      { inversion H; subst. eexists. split; reflexivity. }
      rewrite scoped_run in *.
      match type of H with
      | match ?X with _ => _ end = _ => destruct X as [[r s2] tr2] eqn:E
      end.
      destruct r; try discriminate. inversion H; subst. clear H.
      assert (C : carries (Forall2 (shiftedPart p))
                (mapKeys (entryText (prettyPrint h fuel)
                            (spread defaultOptions o)
                            (tokensOf (spread defaultOptions o) q) q a props
                            (List.length keys)) keys 0)
                (mapKeys (entryText (prettyPrint h fuel)
                            (spread defaultOptions o)
                            (tokensOf (spread defaultOptions o) (p ++ q))
                            (p ++ q) a props (List.length keys)) keys 0)).
      { apply carries_mapKeys. intros k i Hk. unfold entryText.
        apply (carries_bind (fun t t' => t' = t /\ noLF t = true)).
        - intros s0 z s3 tr3 Hz. exists z. split; [exact Hz |].
          split; [reflexivity |].
          apply keyText_Ok_inv in Hz. destruct Hz as [-> _].
          apply noLF_keyOut. apply FK.
          apply (objKeysOf_incl _ _ _ _ K). exact Hk.
        - intros key0 key0' [-> Nk].
          apply (carries_bind (fun t t' => t' = shift p t)).
          + apply IHm. apply FP.
          + intros x y ->. intros s0 z s3 tr3 Hz.
            rewrite (transform_off_run _ _ _ _ _ _ T') in Hz.
            rewrite (transform_off_run _ _ _ _ _ _ T').
            inversion Hz; subst. eexists.
            split; [reflexivity |]. unfold shiftedPart.
            match goal with
            | |- context [String ":" (String " " ?r)] =>
                change (String ":" (String " " r)) with (": " ++ r)
            end.
            rewrite !shift_app, (eolOf_plain_shift _ _ _ _ _ L').
            rewrite (eolOf_pad _ q (p ++ q) _ _ L').
            rewrite !(tokensOf_plain _ _ L'). cbn [tok_indent].
            rewrite (shift_noLF p (q ++ _)) by now rewrite noLF_app, Q, I.
            rewrite (shift_noLF p key0) by exact Nk.
            rewrite (shift_noLF p ": ") by reflexivity.
            now rewrite !append_assoc. }
      destruct (C _ _ _ _ E) as (ys & E' & Rs). rewrite E'.
      eexists. split; [reflexivity |].
      rewrite !(expandWhiteSpace_off _ _ _ _ L'), !(tokensOf_plain _ _ L').
      cbn [tok_newLine tok_pad]. symmetry.
      now apply (shift_assemble p q "{" "}").
Qed.

(** X8: the pad only prefixes lines.  With no [inlineCharacterLimit] and
    no transform hook, on a value graph whose unquoted texts and symbol
    descriptions hold no line feed, and with an indent and a pad that hold
    none, the text of a call with the pad [p ++ q] is the text of the call
    with the pad [q] with [p] put after each of its line breaks; the first
    line is not prefixed. *)
Theorem pad_prefixes_lines h fuel v o p q s :
  flatHeap h = true -> flatValue v = true ->
  Options.inlineCharacterLimit o = None ->
  Options.transform o = None ->
  noLF (indentOf (spread defaultOptions o)) = true ->
  noLF q = true ->
  wellFormed h v o -> room h s < fuel ->
  exists t,
    rendersTo h fuel v o q s t
    /\ rendersTo h fuel v o (p ++ q) s (shift p t).
Proof.
  intros FH FV L T I Q W R.
  destruct (prettyPrint_returns h fuel v o q s W R) as [t [tr Run]].
  exists t. split; [now exists tr |].
  destruct (shift_prettyPrint h p fuel FH v o q L T I Q FV _ _ _ _ Run)
    as (y & Run' & ->).
  now exists tr.
Qed.

Lemma pad_prefixes_lines_witness :
  flatHeap heapReused = true
  /\ wellFormed heapReused (VRef 1) noOptions
  /\ exists t,
       rendersTo heapReused 3 (VRef 1) noOptions EmptyString [] t
       /\ rendersTo heapReused 3 (VRef 1) noOptions (tab ++ EmptyString) []
                    (shift tab t).
Proof.
  assert (W : wellFormed heapReused (VRef 1) noOptions)
    by (apply wellFormed_noOptions; reflexivity).
  split; [reflexivity | split; [exact W |]].
  apply (pad_prefixes_lines heapReused 3 (VRef 1) noOptions tab EmptyString
           []); try reflexivity.
  - exact W.
  - cbn. lia.
Defined.

(** ** The compaction pass on clean texts *)

Lemma getSubstitution_plain template matched before after :
  noDollar template = true ->
  getSubstitution template matched before after = template.
Proof.
  induction template as [| c t IH]; intros H; [reflexivity |].
  cbn [noDollar allChars] in H. apply andb_prop in H. destruct H as [Hc Ht].
  apply negb_true_iff in Hc. cbn [getSubstitution]. rewrite Hc.
  now rewrite IH.
Qed.

Lemma replaceFrom_substFrom alts template s :
  noDollar template = true ->
  forall before skip,
    replaceFrom alts (byTemplate template) before skip s
    = substFrom alts template skip s.
Proof.
  intros D. induction s as [| c s IH]; intros before skip; [reflexivity |].
  cbn [replaceFrom substFrom]. destruct skip as [| k]; [| apply IH].
  destruct (firstMatch alts (String c s)) as [m |].
  - unfold byTemplate at 1. rewrite (getSubstitution_plain _ _ _ _ D).
    now rewrite IH.
  - now rewrite IH.
Qed.

Lemma replace_subst alts template s :
  noDollar template = true ->
  replace alts (byTemplate template) s = substFrom alts template 0 s.
Proof. intros D. unfold replace. now apply replaceFrom_substFrom. Qed.

Lemma substFrom_skip alts text y rest :
  substFrom alts text (String.length y) (y ++ rest)
  = substFrom alts text 0 rest.
Proof.
  induction y as [| c y IH]; [destruct rest; reflexivity |]. exact IH.
Qed.

Lemma substFrom_hit alts text c y rest :
  firstMatch alts (String c (y ++ rest)) = Some (String c y) ->
  substFrom alts text 0 (String c y ++ rest)
  = text ++ substFrom alts text 0 rest.
Proof.
  intros H. cbn [append substFrom]. rewrite H.
  change (String.length (String c y) - 1) with (String.length y - 0).
  rewrite Nat.sub_0_r. now rewrite substFrom_skip.
Qed.

Lemma substFrom_quiet alts text w rest :
  (forall k, k < String.length w ->
             firstMatch alts (dropChars k w ++ rest) = None) ->
  substFrom alts text 0 (w ++ rest) = w ++ substFrom alts text 0 rest.
Proof.
  induction w as [| c w IH]; intros H; [reflexivity |].
  pose proof (H 0 (Nat.lt_0_succ _)) as H0. cbn [dropChars append] in H0.
  cbn [append substFrom]. rewrite H0. rewrite IH; [reflexivity |].
  intros k Hk. apply (H (S k)). cbn. lia.
Qed.

Lemma firstMatch_none alts s :
  (forall alt, In alt alts -> isPrefix alt s = false) ->
  firstMatch alts s = None.
Proof.
  induction alts as [| a alts IH]; intros H; [reflexivity |].
  cbn. rewrite (H a) by now left. apply IH. intros b Hb. apply H. now right.
Qed.

Lemma substFrom_clean alts text x rest :
  (forall alt, In alt alts -> isPrefix "@" alt = true) ->
  noAt x = true ->
  substFrom alts text 0 (x ++ rest) = x ++ substFrom alts text 0 rest.
Proof.
  intros A N. apply substFrom_quiet. intros k Hk.
  apply firstMatch_none. intros alt Ha. specialize (A alt Ha).
  revert k Hk. induction x as [| c x IH]; intros k Hk; [cbn in Hk; lia |].
  cbn [noAt allChars] in N. apply andb_prop in N. destruct N as [Nc Nx].
  destruct k as [| k].
  - cbn [dropChars append]. destruct alt as [| a alt]; [discriminate |].
    cbn [isPrefix] in A. rewrite andb_true_r in A.
    apply Ascii.eqb_eq in A. subst a.
    cbn [isPrefix]. apply negb_true_iff in Nc.
    now rewrite Ascii.eqb_sym, Nc.
  - cbn [dropChars]. apply IH; [exact Nx |]. cbn in Hk. lia.
Qed.

Ltac scanToken rest k Hk :=
  repeat (destruct k as [| k]; [reflexivity |]);
  (destruct k as [| k];
   [ match goal with
     | |- isPrefix ?a _ = false =>
         change (isPrefix (dropChars 2 a) rest = false); assumption
     end |]);
  (destruct k as [| k];
   [ match goal with
     | |- isPrefix ?a _ = false =>
         change (isPrefix (dropChars 1 a) rest = false); assumption
     end |]);
  exfalso; cbn in Hk; lia.

Lemma calm_spec rest alt :
  calm rest = true -> In alt sentinelList ->
  isPrefix (dropChars 2 alt) rest = false
  /\ isPrefix (dropChars 1 alt) rest = false.
Proof.
  intros C Hin. unfold calm in C. rewrite forallb_forall in C.
  specialize (C alt Hin). apply andb_prop in C. destruct C as [C1 C2].
  apply negb_true_iff in C1. apply negb_true_iff in C2. now split.
Qed.

Lemma substFrom_over alts text t rest :
  In t sentinelList ->
  (forall alt, In alt alts -> In alt sentinelList /\ alt <> t) ->
  calm rest = true ->
  substFrom alts text 0 (t ++ rest) = t ++ substFrom alts text 0 rest.
Proof.
  intros Ht Ha C. apply substFrom_quiet. intros k Hk.
  apply firstMatch_none. intros alt Hin. destruct (Ha alt Hin) as [Hs Hne].
  destruct (calm_spec rest alt C Hs) as [C2 C1].
  cbn [sentinelList In] in Ht, Hs.
  destruct Ht as [<- | [<- | [<- | [<- | []]]]];
    destruct Hs as [<- | [<- | [<- | [<- | []]]]];
    try (exfalso; apply Hne; reflexivity);
    scanToken rest k Hk.
Qed.

Lemma isPrefix_app t rest : isPrefix t (t ++ rest) = true.
Proof.
  induction t as [| c t IH]; [reflexivity |].
  cbn [append isPrefix]. now rewrite Ascii.eqb_refl, IH.
Qed.

Lemma isPrefix_true t s :
  isPrefix t s = true -> s = t ++ dropChars (String.length t) s.
Proof.
  revert s. induction t as [| c t IH]; intros s H; [reflexivity |].
  destruct s as [| d s]; [discriminate |].
  cbn [isPrefix] in H. apply andb_prop in H. destruct H as [Hc Ht].
  apply Ascii.eqb_eq in Hc. subst d. cbn [String.length dropChars append].
  now rewrite <- (IH s Ht).
Qed.

Lemma firstMatch_sentinel alts t rest :
  In t alts -> (forall alt, In alt alts -> In alt sentinelList) ->
  firstMatch alts (t ++ rest) = Some t.
Proof.
  induction alts as [| a alts IH]; intros Ht Hs; [destruct Ht |].
  cbn [firstMatch].
  destruct (String.eqb a t) eqn:E.
  - apply String.eqb_eq in E. subst a. now rewrite isPrefix_app.
  - assert (Hin : In t alts).
    { destruct Ht as [-> | Ht]; [| exact Ht].
      now rewrite String.eqb_refl in E. }
    assert (Hp : isPrefix a (t ++ rest) = false).
    { pose proof (Hs a (or_introl eq_refl)) as Ha.
      pose proof (Hs t (or_intror Hin)) as Htt.
      cbn [sentinelList In] in Ha, Htt.
      destruct Ha as [<- | [<- | [<- | [<- | []]]]];
        destruct Htt as [<- | [<- | [<- | [<- | []]]]];
        try discriminate E; reflexivity. }
    rewrite Hp. apply IH; [exact Hin |].
    intros alt Halt. apply Hs. now right.
Qed.

Lemma substFrom_at alts text t rest :
  In t alts -> (forall alt, In alt alts -> In alt sentinelList) ->
  substFrom alts text 0 (t ++ rest) = text ++ substFrom alts text 0 rest.
Proof.
  intros Ht Hs. pose proof (firstMatch_sentinel alts t rest Ht Hs) as F.
  destruct t as [| c y].
  - pose proof (Hs _ Ht) as Hin. cbn [sentinelList In] in Hin.
    destruct Hin as [E | [E | [E | [E | []]]]]; discriminate E.
  - now apply substFrom_hit.
Qed.

Lemma substFrom_end alts text x :
  (forall alt, In alt alts -> isPrefix "@" alt = true) ->
  noAt x = true -> substFrom alts text 0 x = x.
Proof.
  intros A N. rewrite <- (append_nil_r x) at 1.
  rewrite (substFrom_clean alts text x EmptyString A N).
  cbn [substFrom]. apply append_nil_r.
Qed.

Lemma sentinels_start alts :
  (forall alt, In alt alts -> In alt sentinelList) ->
  forall alt, In alt alts -> isPrefix "@" alt = true.
Proof.
  intros Hs alt Hin. specialize (Hs alt Hin). cbn [sentinelList In] in Hs.
  destruct Hs as [<- | [<- | [<- | [<- | []]]]]; reflexivity.
Qed.

Lemma odd_no_prefix m b rest :
  allChars coreChar m = true -> noAt b = true ->
  allChars coreChar b = false ->
  isPrefix (m ++ "@@") (b ++ rest) = false.
Proof.
  revert b. induction m as [| d m IH]; intros b Hm Nb Hb.
  - destruct b as [| e b]; [discriminate Hb |].
    cbn [noAt allChars] in Nb. apply andb_prop in Nb. destruct Nb as [Ne _].
    apply negb_true_iff in Ne. cbn [append isPrefix].
    now rewrite Ascii.eqb_sym, Ne.
  - destruct b as [| e b]; [discriminate Hb |].
    cbn [allChars] in Hm. apply andb_prop in Hm. destruct Hm as [Hd Hm].
    cbn [noAt allChars] in Nb. apply andb_prop in Nb. destruct Nb as [Ne Nb].
    cbn [append isPrefix].
    destruct (Ascii.eqb d e) eqn:E; [| reflexivity].
    apply Ascii.eqb_eq in E. subst e. cbn [allChars] in Hb. rewrite Hd in Hb.
    cbn [andb] in Hb |- *. now apply IH.
Qed.

Lemma calm_body b rest :
  cleanBody b = true -> safeHead rest = true -> calm (b ++ rest) = true.
Proof.
  intros Hb Hr. unfold cleanBody in Hb. apply andb_prop in Hb.
  destruct Hb as [Nb Hb]. apply orb_prop in Hb.
  unfold calm. apply forallb_forall. intros alt Hin.
  destruct Hb as [Hb | Hb].
  - apply String.eqb_eq in Hb. subst b. cbn [append].
    unfold safeHead in Hr. apply orb_prop in Hr. destruct Hr as [Hr | Hr].
    + apply existsb_exists in Hr. destruct Hr as [t [Ht Hp]].
      apply isPrefix_true in Hp. rewrite Hp.
      cbn [sentinelList In] in Hin, Ht.
      destruct Hin as [<- | [<- | [<- | [<- | []]]]];
        destruct Ht as [<- | [<- | [<- | [<- | []]]]]; reflexivity.
    + destruct rest as [| c r]; [discriminate |].
      apply andb_prop in Hr. destruct Hr as [Hc Hk].
      apply negb_true_iff in Hc. apply negb_true_iff in Hk.
      assert (U : Ascii.eqb "_" c = false).
      { destruct (Ascii.eqb "_" c) eqn:E; [| reflexivity].
        apply Ascii.eqb_eq in E. subst c. discriminate Hk. }
      assert (V : Ascii.eqb "@" c = false) by now rewrite Ascii.eqb_sym.
      cbn [sentinelList In] in Hin.
      destruct Hin as [<- | [<- | [<- | [<- | []]]]];
        cbn [dropChars NEW_LINE NEW_LINE_OR_SPACE PAD INDENT isPrefix];
        rewrite U, V; reflexivity.
  - apply negb_true_iff in Hb.
    assert (Hne : exists e b', b = String e b' /\ Ascii.eqb "@" e = false).
    { destruct b as [| e b']; [discriminate Hb |].
      exists e, b'. split; [reflexivity |].
      cbn [noAt allChars] in Nb. apply andb_prop in Nb. destruct Nb as [Ne _].
      apply negb_true_iff in Ne. now rewrite Ascii.eqb_sym. }
    apply andb_true_intro. split; apply negb_true_iff.
    + cbn [sentinelList In] in Hin.
      destruct Hin as [<- | [<- | [<- | [<- | []]]]];
        match goal with
        | |- isPrefix (dropChars 2 ?a) _ = false =>
            let m := eval cbv in (dropChars 2 a) in
            change (dropChars 2 a) with m
        end;
        match goal with
        | |- isPrefix ?x _ = false =>
            apply (odd_no_prefix
                     (substring 0 (String.length x - 2) x) b rest);
            [reflexivity | exact Nb | exact Hb]
        end.
    + destruct Hne as [e [b' [-> He]]].
      cbn [sentinelList In] in Hin.
      destruct Hin as [<- | [<- | [<- | [<- | []]]]];
        cbn [dropChars NEW_LINE NEW_LINE_OR_SPACE PAD INDENT isPrefix append];
        rewrite He; reflexivity.
Qed.

Section Pass.
Variables (alts : list string) (text : string) (f g : piece -> string).
Variable Q : string -> Prop.
Hypothesis step :
  forall p R, cleanPiece p = true -> Q R ->
              substFrom alts text 0 (f p ++ R)
              = g p ++ substFrom alts text 0 R.
Hypothesis keep : forall p R, Q R -> Q (f p ++ R).

Lemma keep_join pieces rest : Q rest -> Q (join (map f pieces) ++ rest).
Proof.
  intros H. induction pieces as [| p ps IH]; [exact H |].
  cbn [map]. rewrite join_cons, append_assoc. now apply keep.
Qed.

Lemma pass_pieces pieces rest :
  forallb cleanPiece pieces = true -> Q rest ->
  substFrom alts text 0 (join (map f pieces) ++ rest)
  = join (map g pieces) ++ substFrom alts text 0 rest.
Proof.
  intros C H. induction pieces as [| p ps IH]; [reflexivity |].
  cbn [forallb] in C. apply andb_prop in C. destruct C as [Cp Cs].
  cbn [map]. rewrite !join_cons, !append_assoc.
  rewrite step; [| exact Cp | now apply keep_join].
  now rewrite IH.
Qed.
End Pass.

Lemma cleanBody_noAt b : cleanBody b = true -> noAt b = true.
Proof. unfold cleanBody. intros H. now apply andb_prop in H. Qed.

Lemma calm_next rest : safeHead rest = true -> calm rest = true.
Proof. intros H. now apply (calm_body EmptyString rest eq_refl). Qed.

Ltac inSentinels :=
  let alt := fresh "alt" in
  let H := fresh "H" in
  intros alt H; cbn [In] in H;
  repeat (destruct H as [<- | H]; [cbn; tauto |]); destruct H.

Ltac notThere :=
  let alt := fresh "alt" in
  let H := fresh "H" in
  intros alt H; cbn [In] in H;
  repeat (destruct H as [<- | H];
          [split; [cbn; tauto | discriminate] |]);
  destruct H.

Ltac startAt :=
  let alt := fresh "alt" in
  let H := fresh "H" in
  intros alt H; cbn [In] in H;
  repeat (destruct H as [<- | H]; [reflexivity |]); destruct H.

Lemma safeHead_token t R : In t sentinelList -> safeHead (t ++ R) = true.
Proof.
  intros H. unfold safeHead. apply orb_true_intro. left.
  apply existsb_exists. exists t. split; [exact H | apply isPrefix_app].
Qed.

Lemma pass1_one p R :
  cleanPiece p = true -> safeHead R = true ->
  substFrom [NEW_LINE] EmptyString 0 (tokPart p ++ R)
  = afterNewLine p ++ substFrom [NEW_LINE] EmptyString 0 R.
Proof.
  intros C H. destruct p as [[b [|]] |]; cbn [tokPart afterNewLine cleanPiece] in *;
    [| | reflexivity]; rewrite !append_assoc.
  - rewrite (substFrom_over [NEW_LINE] _ INDENT);
      [| cbn; tauto | notThere
       | apply calm_body; [exact C | apply safeHead_token; cbn; tauto]].
    rewrite (substFrom_clean [NEW_LINE] _ b);
      [| startAt | now apply cleanBody_noAt].
    rewrite (substFrom_at [NEW_LINE] _ NEW_LINE);
      [| cbn; tauto | inSentinels].
    reflexivity.
  - rewrite (substFrom_over [NEW_LINE] _ INDENT);
      [| cbn; tauto | notThere
       | apply calm_body; [exact C | reflexivity]].
    rewrite (substFrom_clean [NEW_LINE] _ b);
      [| startAt | now apply cleanBody_noAt].
    rewrite (substFrom_clean [NEW_LINE] _ ","); [| startAt | reflexivity].
    rewrite (substFrom_over [NEW_LINE] _ NEW_LINE_OR_SPACE);
      [| cbn; tauto | notThere | now apply calm_next].
    reflexivity.
Qed.

Ltac over alts t side :=
  rewrite (substFrom_over alts _ t); [| cbn; tauto | notThere | side].
Ltac clean alts x side :=
  rewrite (substFrom_clean alts _ x); [| startAt | side].
Ltac at_ alts t :=
  rewrite (substFrom_at alts _ t); [| cbn; tauto | inSentinels].

Lemma keep1 p R : safeHead R = true -> safeHead (tokPart p ++ R) = true.
Proof.
  intros H. destruct p as [[b [|]] |]; cbn [tokPart]; [| | exact H];
    rewrite !append_assoc; apply safeHead_token; cbn; tauto.
Qed.

Lemma keep2 p R : safeHead R = true -> safeHead (afterNewLine p ++ R) = true.
Proof.
  intros H. destruct p as [[b [|]] |]; cbn [afterNewLine]; [| | exact H];
    rewrite !append_assoc; apply safeHead_token; cbn; tauto.
Qed.

Lemma pass2_one p R :
  cleanPiece p = true -> safeHead R = true ->
  substFrom [NEW_LINE_OR_SPACE] " " 0 (afterNewLine p ++ R)
  = afterSpace p ++ substFrom [NEW_LINE_OR_SPACE] " " 0 R.
Proof.
  intros C H.
  destruct p as [[b [|]] |]; cbn [afterNewLine afterSpace cleanPiece] in *;
    [| | reflexivity]; rewrite !append_assoc.
  - over [NEW_LINE_OR_SPACE] INDENT ltac:(now apply calm_body).
    clean [NEW_LINE_OR_SPACE] b ltac:(now apply cleanBody_noAt).
    reflexivity.
  - over [NEW_LINE_OR_SPACE] INDENT
         ltac:(apply calm_body; [exact C | reflexivity]).
    clean [NEW_LINE_OR_SPACE] b ltac:(now apply cleanBody_noAt).
    clean [NEW_LINE_OR_SPACE] "," ltac:(reflexivity).
    at_ [NEW_LINE_OR_SPACE] NEW_LINE_OR_SPACE.
    reflexivity.
Qed.

Lemma pass3_one p R :
  cleanPiece p = true -> True ->
  substFrom [PAD; INDENT] EmptyString 0 (afterSpace p ++ R)
  = inlinePart p ++ substFrom [PAD; INDENT] EmptyString 0 R.
Proof.
  intros C _.
  destruct p as [[b [|]] |]; cbn [afterSpace inlinePart cleanPiece] in *;
    [| | reflexivity]; rewrite !append_assoc.
  - at_ [PAD; INDENT] INDENT.
    clean [PAD; INDENT] b ltac:(now apply cleanBody_noAt).
    reflexivity.
  - at_ [PAD; INDENT] INDENT.
    clean [PAD; INDENT] b ltac:(now apply cleanBody_noAt).
    clean [PAD; INDENT] ", " ltac:(reflexivity).
    reflexivity.
Qed.

Lemma breaks_one p R :
  cleanPiece p = true -> safeHead R = true ->
  substFrom [NEW_LINE; NEW_LINE_OR_SPACE] (str LF) 0 (tokPart p ++ R)
  = afterBreaks p ++ substFrom [NEW_LINE; NEW_LINE_OR_SPACE] (str LF) 0 R.
Proof.
  intros C H.
  destruct p as [[b [|]] |]; cbn [tokPart afterBreaks cleanPiece] in *;
    [| | reflexivity]; rewrite !append_assoc.
  - over [NEW_LINE; NEW_LINE_OR_SPACE] INDENT
         ltac:(apply calm_body; [exact C | apply safeHead_token; cbn; tauto]).
    clean [NEW_LINE; NEW_LINE_OR_SPACE] b ltac:(now apply cleanBody_noAt).
    at_ [NEW_LINE; NEW_LINE_OR_SPACE] NEW_LINE.
    reflexivity.
  - over [NEW_LINE; NEW_LINE_OR_SPACE] INDENT
         ltac:(apply calm_body; [exact C | reflexivity]).
    clean [NEW_LINE; NEW_LINE_OR_SPACE] b ltac:(now apply cleanBody_noAt).
    clean [NEW_LINE; NEW_LINE_OR_SPACE] "," ltac:(reflexivity).
    at_ [NEW_LINE; NEW_LINE_OR_SPACE] NEW_LINE_OR_SPACE.
    reflexivity.
Qed.

Lemma pads_one text p R :
  cleanPiece p = true -> True ->
  substFrom [PAD] text 0 (afterBreaks p ++ R)
  = afterBreaks p ++ substFrom [PAD] text 0 R.
Proof.
  intros C _.
  destruct p as [[b [|]] |]; cbn [afterBreaks cleanPiece] in *;
    [| | reflexivity]; rewrite !append_assoc.
  - over [PAD] INDENT ltac:(apply calm_body; [exact C | reflexivity]).
    clean [PAD] b ltac:(now apply cleanBody_noAt).
    clean [PAD] (str LF) ltac:(reflexivity).
    reflexivity.
  - over [PAD] INDENT ltac:(apply calm_body; [exact C | reflexivity]).
    clean [PAD] b ltac:(now apply cleanBody_noAt).
    clean [PAD] "," ltac:(reflexivity).
    clean [PAD] (str LF) ltac:(reflexivity).
    reflexivity.
Qed.

Lemma indents_one ind p R :
  cleanPiece p = true -> True ->
  substFrom [INDENT] ind 0 (afterBreaks p ++ R)
  = linePart ind p ++ substFrom [INDENT] ind 0 R.
Proof.
  intros C _.
  destruct p as [[b [|]] |]; cbn [afterBreaks linePart cleanPiece] in *;
    [| | reflexivity]; rewrite !append_assoc.
  - at_ [INDENT] INDENT.
    clean [INDENT] b ltac:(now apply cleanBody_noAt).
    clean [INDENT] (str LF) ltac:(reflexivity).
    reflexivity.
  - at_ [INDENT] INDENT.
    clean [INDENT] b ltac:(now apply cleanBody_noAt).
    clean [INDENT] "," ltac:(reflexivity).
    clean [INDENT] (str LF) ltac:(reflexivity).
    reflexivity.
Qed.

Lemma oneLined_pieces opening closing pieces :
  noAt opening = true -> noAt closing = true -> safeHead closing = true ->
  forallb cleanPiece pieces = true ->
  oneLined sentinels (assemble sentinels opening closing (map tokPart pieces))
  = opening ++ join (map inlinePart pieces) ++ closing.
Proof.
  intros No Nc Sc C. unfold oneLined, assemble.
  cbn [sentinels tok_newLine tok_newLineOrSpace tok_pad tok_indent].
  rewrite !replace_subst by reflexivity.
  clean [NEW_LINE] opening ltac:(exact No).
  at_ [NEW_LINE] NEW_LINE.
  rewrite (pass_pieces [NEW_LINE] EmptyString tokPart afterNewLine
             (fun R => safeHead R = true) pass1_one keep1 pieces _ C)
    by (apply safeHead_token; cbn; tauto).
  over [NEW_LINE] PAD ltac:(now apply calm_next).
  rewrite (substFrom_end [NEW_LINE] _ closing) by (startAt || exact Nc).
  cbn [append].
  clean [NEW_LINE_OR_SPACE] opening ltac:(exact No).
  rewrite (pass_pieces [NEW_LINE_OR_SPACE] " " afterNewLine afterSpace
             (fun R => safeHead R = true) pass2_one keep2 pieces _ C)
    by (apply safeHead_token; cbn; tauto).
  over [NEW_LINE_OR_SPACE] PAD ltac:(now apply calm_next).
  rewrite (substFrom_end [NEW_LINE_OR_SPACE] _ closing)
    by (startAt || exact Nc).
  clean [PAD; INDENT] opening ltac:(exact No).
  rewrite (pass_pieces [PAD; INDENT] EmptyString afterSpace inlinePart
             (fun _ => True) pass3_one (fun _ _ _ => I) pieces _ C I).
  at_ [PAD; INDENT] PAD.
  rewrite (substFrom_end [PAD; INDENT] _ closing) by (startAt || exact Nc).
  reflexivity.
Qed.

Lemma multiLined_pieces co pad opening closing pieces :
  noAt opening = true -> noAt closing = true -> safeHead closing = true ->
  noAt pad = true -> noDollar pad = true ->
  noDollar (indentOf co) = true ->
  forallb cleanPiece pieces = true ->
  multiLined co sentinels pad
    (assemble sentinels opening closing (map tokPart pieces))
  = opening ++ str LF
    ++ join (map (linePart (pad ++ indentOf co)) pieces) ++ pad ++ closing.
Proof.
  intros No Nc Sc Np Dp Di C. unfold multiLined, assemble.
  cbn [sentinels tok_newLine tok_newLineOrSpace tok_pad tok_indent].
  assert (Dpi : noDollar (pad ++ indentOf co) = true).
  { unfold noDollar. rewrite allChars_app. now apply andb_true_intro. }
  rewrite (replace_subst _ _ _ Dpi), (replace_subst _ _ _ Dp).
  rewrite replace_subst by reflexivity.
  clean [NEW_LINE; NEW_LINE_OR_SPACE] opening ltac:(exact No).
  at_ [NEW_LINE; NEW_LINE_OR_SPACE] NEW_LINE.
  rewrite (pass_pieces [NEW_LINE; NEW_LINE_OR_SPACE] (str LF) tokPart
             afterBreaks (fun R => safeHead R = true) breaks_one keep1
             pieces _ C)
    by (apply safeHead_token; cbn; tauto).
  over [NEW_LINE; NEW_LINE_OR_SPACE] PAD ltac:(now apply calm_next).
  rewrite (substFrom_end [NEW_LINE; NEW_LINE_OR_SPACE] _ closing)
    by (startAt || exact Nc).
  clean [PAD] opening ltac:(exact No).
  clean [PAD] (str LF) ltac:(reflexivity).
  rewrite (pass_pieces [PAD] pad afterBreaks afterBreaks
             (fun _ => True) (pads_one pad) (fun _ _ _ => I) pieces _ C I).
  at_ [PAD] PAD.
  rewrite (substFrom_end [PAD] _ closing) by (startAt || exact Nc).
  clean [INDENT] opening ltac:(exact No).
  clean [INDENT] (str LF) ltac:(reflexivity).
  rewrite (pass_pieces [INDENT] (pad ++ indentOf co) afterBreaks
             (linePart (pad ++ indentOf co))
             (fun _ => True) (indents_one _) (fun _ _ _ => I) pieces _ C I).
  clean [INDENT] pad ltac:(exact Np).
  rewrite (substFrom_end [INDENT] _ closing) by (startAt || exact Nc).
  reflexivity.
Qed.

(** X9: when a limit is set, what [expandWhiteSpace] makes of the text a
    composite assembles from clean member texts: the members after one
    another between the delimiters, a comma and a space after each but the
    last, when that is no longer than the limit; otherwise each member on a
    line of its own after the pad and the indent, and the closing delimiter
    after the pad. *)
Theorem compaction_forms co pad limit opening closing pieces :
  Options.inlineCharacterLimit co = Some limit ->
  In (opening, closing) [("[", "]"); ("{", "}")] ->
  noAt pad = true -> noDollar pad = true ->
  noDollar (indentOf co) = true ->
  forallb cleanPiece pieces = true ->
  expandWhiteSpace co (tokensOf co pad) pad
    (assemble (tokensOf co pad) opening closing (map tokPart pieces))
  = if (Z.of_nat (String.length
                    (opening ++ join (map inlinePart pieces) ++ closing))
       <=? limit)%Z
    then opening ++ join (map inlinePart pieces) ++ closing
    else opening ++ str LF
         ++ join (map (linePart (pad ++ indentOf co)) pieces)
         ++ pad ++ closing.
Proof.
  intros L B Np Dp Di C. rewrite (tokensOf_limit _ _ _ L).
  unfold expandWhiteSpace. rewrite L.
  assert (S : noAt opening = true /\ noAt closing = true
              /\ safeHead closing = true).
  { cbn [In] in B. destruct B as [B | [B | []]]; inversion B; subst;
      repeat split; reflexivity. }
  destruct S as (No & Nc & Sc).
  rewrite (oneLined_pieces _ _ _ No Nc Sc C).
  now rewrite (multiLined_pieces co pad _ _ _ No Nc Sc Np Dp Di C).
Qed.

Lemma compaction_forms_witness :
  expandWhiteSpace (spread defaultOptions (withLimit 8))
    (tokensOf (spread defaultOptions (withLimit 8)) EmptyString) EmptyString
    (assemble (tokensOf (spread defaultOptions (withLimit 8)) EmptyString)
       "[" "]" (map tokPart [Some ("1", false); None; Some ("'a'", true)]))
  = "[1, 'a']".
Proof.
  exact (compaction_forms (spread defaultOptions (withLimit 8)) EmptyString 8
           "[" "]" [Some ("1", false); None; Some ("'a'", true)]
           eq_refl (or_introl eq_refl) eq_refl eq_refl eq_refl eq_refl).
Defined.

(** ** A limit too small to inline anything *)

Lemma allChars_escapeSingle P s :
  P BACKSLASH = true ->
  (allChars P s = true -> allChars P (escapeSingle s) = true)
  /\ (forall c, allChars P (String c s) = true ->
                allChars P (escapeSingle (String c s)) = true).
Proof.
  intros B. induction s as [| d s [IH1 IH2]].
  - split; [reflexivity |]. intros c H. rewrite escapeSingle_step.
    cbn [isPrefix]. rewrite andb_false_r.
    destruct (Ascii.eqb c SQUOTE) eqn:E; [| exact H].
    apply Ascii.eqb_eq in E. subst c. cbn [allChars] in *. now rewrite B.
  - split; [exact (IH2 d) |]. intros c H.
    cbn [allChars] in H. apply andb_prop in H. destruct H as [Hc Hd].
    rewrite escapeSingle_step.
    destruct (Ascii.eqb c BACKSLASH && isPrefix "'" (String d s)) eqn:E.
    + apply andb_prop in E. destruct E as [_ E].
      rewrite isPrefix_squote_cons in E. apply Ascii.eqb_eq in E. subst d.
      cbn [dropChars]. cbn [allChars] in Hd |- *.
      apply andb_prop in Hd. destruct Hd as [Hq Hs].
      rewrite Hc, Hq. cbn [andb]. now apply IH1.
    + destruct (Ascii.eqb c SQUOTE) eqn:E2.
      * apply Ascii.eqb_eq in E2. subst c. cbn [allChars].
        rewrite B, Hc. cbn [andb]. now apply IH2.
      * cbn [allChars]. rewrite Hc. cbn [andb]. now apply IH2.
Qed.

Lemma allChars_mapChars_if P g s :
  (forall c, P c = true -> allChars P (g c) = true) ->
  allChars P s = true -> allChars P (mapChars g s) = true.
Proof.
  intros H. induction s as [| c s IH]; intros A; [reflexivity |].
  cbn [allChars] in A. apply andb_prop in A. destruct A as [Ac As].
  cbn [mapChars]. now rewrite allChars_app, (H c Ac), IH.
Qed.

Lemma noAt_app x y : noAt (x ++ y) = noAt x && noAt y.
Proof. apply allChars_app. Qed.

Lemma noDollar_app x y : noDollar (x ++ y) = noDollar x && noDollar y.
Proof. apply allChars_app. Qed.

Lemma noAt_textFallback o s :
  noAt s = true -> noAt (textFallback o s) = true.
Proof.
  intros N.
  assert (L : noAt (mapChars escapeLine s) = true).
  { apply allChars_mapChars_if; [| exact N]. intros c Hc.
    unfold escapeLine. destruct (Ascii.eqb c CR); [reflexivity |].
    destruct (Ascii.eqb c LF); [reflexivity |]. cbn. now rewrite Hc. }
  destruct (singleQuotesOf o) eqn:Q.
  - rewrite (textFallback_single _ _ Q), !noAt_app.
    unfold noAt at 2.
    rewrite (proj1 (allChars_escapeSingle _ _ eq_refl) L). reflexivity.
  - rewrite (textFallback_double _ _ Q), !noAt_app.
    assert (X : noAt (mapChars (escapeQuote DQUOTE)
                        (mapChars escapeLine s)) = true).
    { apply allChars_mapChars_if; [| exact L]. intros c Hc.
      unfold escapeQuote. destruct (Ascii.eqb c DQUOTE); [reflexivity |].
      cbn. now rewrite Hc. }
    rewrite X. reflexivity.
Qed.

Lemma textFallback_odd o s :
  allChars coreChar (textFallback o s) = false.
Proof.
  destruct (singleQuotesOf o) eqn:Q.
  - now rewrite (textFallback_single _ _ Q).
  - now rewrite (textFallback_double _ _ Q).
Qed.

Lemma cleanBody_textFallback o s :
  noAt s = true -> cleanBody (textFallback o s) = true.
Proof.
  intros N. unfold cleanBody.
  rewrite (noAt_textFallback _ _ N), textFallback_odd.
  now rewrite orb_true_r.
Qed.

Lemma noAt_classic s : isClassicKey s = true -> noAt s = true.
Proof.
  intros H. destruct s as [| c s]; [discriminate |]. cbn in H.
  apply andb_prop in H. destruct H as [Hc Hs].
  assert (P : forall d, isPart d = true -> negb (Ascii.eqb d "@") = true).
  { intros d Hd. destruct (Ascii.eqb d "@") eqn:E; [| reflexivity].
    apply Ascii.eqb_eq in E. subst d. discriminate. }
  unfold noAt. cbn [allChars]. rewrite P.
  - cbn. rewrite allChars_spec in *. intros d Hd. apply P. now apply Hs.
  - unfold isPart. now rewrite Hc.
Qed.

Lemma noAt_keyOut co k : cleanKey k = true -> noAt (keyOut co k) = true.
Proof.
  unfold cleanKey. destruct k as [s | s]; cbn [keyOut keyString].
  - intros H. destruct (isClassicKey s); [exact H |].
    now apply noAt_textFallback.
  - auto.
Qed.

Lemma cleanHeap_slot h a elems v :
  cleanHeap h = true -> nth_error h a = Some (OArray elems) ->
  In (Some v) elems -> cleanValue v = true.
Proof.
  intros H E I. unfold cleanHeap in H. rewrite forallb_forall in H.
  specialize (H _ (nth_error_In _ _ E)). cbn in H.
  rewrite forallb_forall in H. exact (H _ I).
Qed.

Lemma cleanHeap_props h a props :
  cleanHeap h = true -> nth_error h a = Some (OObject props) ->
  (forall k, cleanValue (getProp props k) = true)
  /\ (forall k, In k (ownKeys props) -> cleanKey k = true).
Proof.
  intros H E. unfold cleanHeap in H. rewrite forallb_forall in H.
  specialize (H _ (nth_error_In _ _ E)). cbn in H.
  rewrite forallb_forall in H. split.
  - intros k. clear E. induction props as [| q ps IH]; [reflexivity |].
    cbn. destruct (key_eqb (name q) k).
    + specialize (H q (or_introl eq_refl)). now apply andb_prop in H.
    + apply IH. intros x Hx. apply H. now right.
  - intros k Hk.
    assert (P : exists q, In q props /\ name q = k).
    { unfold ownKeys in Hk. apply in_app_or in Hk. destruct Hk as [Hk | Hk].
      - apply in_map_iff in Hk. destruct Hk as (y & <- & Hin).
        unfold Object_keys in Hin. clear - Hin.
        induction props as [| q ps IH]; [destruct Hin |].
        cbn in Hin. destruct (name q) as [z | z] eqn:Eq.
        + destruct (enumerable q).
          * destruct Hin as [-> | Hin].
            -- exists q. split; [now left | auto].
            -- destruct (IH Hin) as (r & Hr & Er). exists r.
               split; [now right | auto].
          * destruct (IH Hin) as (r & Hr & Er). exists r.
            split; [now right | auto].
        + destruct (IH Hin) as (r & Hr & Er). exists r.
          split; [now right | auto].
      - apply in_map_iff in Hk. destruct Hk as (y & <- & Hin).
        unfold getOwnEnumPropSymbols in Hin.
        apply filter_In in Hin. destruct Hin as [Hin _].
        clear - Hin. induction props as [| q ps IH]; [destruct Hin |].
        cbn in Hin. destruct (name q) as [z | z] eqn:Eq.
        + destruct (IH Hin) as (r & Hr & Er). exists r.
          split; [now right | auto].
        + destruct Hin as [-> | Hin].
          * exists q. split; [now left | auto].
          * destruct (IH Hin) as (r & Hr & Er). exists r.
            split; [now right | auto]. }
    destruct P as (q & Hq & Eq). specialize (H q Hq).
    apply andb_prop in H. destruct H as [_ H]. now rewrite Eq in H.
Qed.

Lemma tiny_limit_lines co pad limit opening closing pieces :
  Options.inlineCharacterLimit co = Some limit -> (limit < 2)%Z ->
  In (opening, closing) [("[", "]"); ("{", "}")] ->
  noAt pad = true -> noDollar pad = true ->
  noDollar (indentOf co) = true ->
  forallb cleanPiece pieces = true ->
  expandWhiteSpace co (tokensOf co pad) pad
    (assemble (tokensOf co pad) opening closing (map tokPart pieces))
  = opening ++ str LF
    ++ join (map (linePart (pad ++ indentOf co)) pieces) ++ pad ++ closing.
Proof.
  intros L Lt B Np Dp Di C. rewrite (tokensOf_limit _ _ _ L).
  unfold expandWhiteSpace. rewrite L.
  assert (S : noAt opening = true /\ noAt closing = true
              /\ safeHead closing = true
              /\ String.length opening = 1 /\ String.length closing = 1).
  { cbn [In] in B. destruct B as [B | [B | []]]; inversion B; subst;
      repeat split; reflexivity. }
  destruct S as (No & Nc & Sc & Lo & Lc).
  rewrite (oneLined_pieces _ _ _ No Nc Sc C).
  rewrite (multiLined_pieces co pad _ _ _ No Nc Sc Np Dp Di C).
  rewrite !length_app, Lo, Lc.
  destruct (Z.leb_spec
              (Z.of_nat (1 + (String.length (join (map inlinePart pieces)) + 1)))
              limit) as [Hle | Hgt]; [lia | reflexivity].
Qed.

Lemma Forall2_pieces ind xs ys :
  Forall2 (partPair ind) xs ys ->
  exists pieces,
    forallb cleanPiece pieces = true
    /\ xs = map tokPart pieces /\ ys = map (linePart ind) pieces.
Proof.
  induction 1 as [| x y xs ys (p & Cp & -> & ->) _ (ps & Cs & -> & ->)].
  - exists []. repeat split.
  - exists (p :: ps). cbn [forallb map]. rewrite Cp, Cs. repeat split.
Qed.

Lemma noAt_lines ind pieces :
  noAt ind = true -> forallb cleanPiece pieces = true ->
  noAt (join (map (linePart ind) pieces)) = true.
Proof.
  intros Ni. induction pieces as [| p ps IH]; intros C; [reflexivity |].
  cbn [forallb] in C. apply andb_prop in C. destruct C as [Cp Cs].
  cbn [map]. rewrite join_cons, noAt_app, (IH Cs), andb_true_r.
  destruct p as [[b [|]] |]; cbn [linePart cleanPiece] in *;
    [| | reflexivity];
    rewrite !noAt_app, Ni, (cleanBody_noAt _ Cp); reflexivity.
Qed.

Lemma cleanBody_lines ind pad opening closing pieces :
  In (opening, closing) [("[", "]"); ("{", "}")] ->
  noAt ind = true -> noAt pad = true ->
  forallb cleanPiece pieces = true ->
  cleanBody (opening ++ str LF ++ join (map (linePart ind) pieces)
               ++ pad ++ closing) = true.
Proof.
  intros B Ni Np C. unfold cleanBody.
  rewrite !noAt_app, (noAt_lines _ _ Ni C), Np.
  cbn [In] in B. destruct B as [B | [B | []]]; inversion B; subst;
    reflexivity.
Qed.

Lemma carries_weaken {A} (R R' : A -> A -> Prop) (m m' : M A) :
  (forall x y, R x y -> R' x y) -> carries R m m' -> carries R' m m'.
Proof.
  intros W C s x s1 tr H. destruct (C _ _ _ _ H) as (y & E & Rxy).
  exists y. split; [exact E | now apply W].
Qed.

Lemma spread_withoutLimit o :
  spread defaultOptions (withoutLimit o)
  = withoutLimit (spread defaultOptions o).
Proof. reflexivity. Qed.

Lemma limit_off h limit fuel :
  cleanHeap h = true -> (limit < 2)%Z ->
  forall v o pad,
    Options.inlineCharacterLimit o = Some limit ->
    Options.transform o = None ->
    noAt (indentOf (spread defaultOptions o)) = true ->
    noDollar (indentOf (spread defaultOptions o)) = true ->
    noAt pad = true -> noDollar pad = true -> cleanValue v = true ->
    carries (fun t t' => t' = t /\ cleanBody t = true)
            (prettyPrint h fuel v o pad)
            (prettyPrint h fuel v (withoutLimit o) pad).
Proof.
  intros CH Lt. induction fuel as [| fuel IH];
    intros v o pad L T Ia Id Pa Pd CV;
    [intros s x s1 tr H; discriminate |].
  assert (L' : Options.inlineCharacterLimit (spread defaultOptions o)
               = Some limit) by now rewrite limit_spread.
  assert (T' : Options.transform (spread defaultOptions o) = None)
    by now rewrite transform_spread.
  assert (IHm : forall w q, noAt q = true -> noDollar q = true ->
                            cleanValue w = true ->
            carries (fun t t' => t' = t /\ cleanBody t = true)
              (prettyPrint h fuel w (spread defaultOptions o) q)
              (prettyPrint h fuel w
                 (withoutLimit (spread defaultOptions o)) q)).
  { intros w q Nq Dq Cw. apply IH; auto; now rewrite spread_idem. }
  assert (Nn : noAt (pad ++ indentOf (spread defaultOptions o)) = true)
    by now rewrite noAt_app, Pa, Ia.
  assert (Dn : noDollar (pad ++ indentOf (spread defaultOptions o)) = true)
    by now rewrite noDollar_app, Pd, Id.
  cbn [prettyPrint]. intros s t s1 tr H. unfold body in *.
  rewrite spread_withoutLimit.
  rewrite bind_getSeen in *.
  destruct (indexOf s v).
  { inversion H; subst. eexists. split; [reflexivity |]. now split. }
  destruct v as [a | [iso |] | a].
  - destruct (isPlain a) eqn:Pl.
    + inversion H; subst. eexists. split; [reflexivity |].
      split; [reflexivity |]. cbn in CV. now rewrite Pl in CV.
    + inversion H; subst. eexists. split; [reflexivity |].
      split; [reflexivity |]. cbn in CV. rewrite Pl in CV.
      now apply cleanBody_textFallback.
  - assert (N : cleanBody ("new Date('" ++ iso ++ "')") = true).
    { unfold cleanBody. cbn in CV. rewrite !noAt_app, CV. reflexivity. }
    inversion H; subst. eexists. split; [reflexivity |]. now split.
  - discriminate.
  - destruct (nth_error h a) as [[elems | props] |] eqn:Ha;
      [| | discriminate].
    + destruct (List.length elems =? 0)%nat.
      { inversion H; subst. eexists. split; [reflexivity |]. now split. }
      rewrite scoped_run in *.
      match type of H with
      | match ?X with _ => _ end = _ => destruct X as [[r s2] tr2] eqn:E
      end.
      destruct r; try discriminate. inversion H; subst. clear H.
      assert (C : carries
                (Forall2 (partPair (pad ++ indentOf (spread defaultOptions o))))
                (mapSlots (elementText (prettyPrint h fuel)
                             (spread defaultOptions o)
                             (tokensOf (spread defaultOptions o) pad) pad a
                             (List.length elems)) elems 0)
                (mapSlots (elementText (prettyPrint h fuel)
                             (withoutLimit (spread defaultOptions o))
                             (tokensOf (withoutLimit (spread defaultOptions o))
                                       pad)
                             pad a (List.length elems)) elems 0)).
      { apply carries_mapSlots.
        - exists None. repeat split.
        - intros w i Hw. unfold elementText.
          apply (carries_bind (fun t t' => t' = t /\ cleanBody t = true)).
          + apply IHm; auto. now apply (cleanHeap_slot h a elems).
          + intros x y [-> Cx]. intros s0 z s3 tr3 Hz.
            rewrite (transform_off_run _ _ _ _ _ _ T') in Hz.
            rewrite (transform_off_run
                       (withoutLimit (spread defaultOptions o)) _ _ _ _ _ T').
            inversion Hz; subst. eexists. split; [reflexivity |].
            exists (Some (x, (List.length elems - 1 =? i)%nat)).
            split; [exact Cx |]. split.
            * rewrite (tokensOf_limit _ _ _ L'). unfold eolOf.
              cbn [sentinels tok_indent tok_newLine tok_newLineOrSpace
                   tokPart].
              destruct (List.length elems - 1 =? i)%nat; reflexivity.
            * rewrite tokensOf_plain by reflexivity. unfold eolOf.
              cbn [tok_indent tok_newLine tok_newLineOrSpace linePart].
              destruct (List.length elems - 1 =? i)%nat; reflexivity. }
      destruct (C _ _ _ _ E) as (ys & E' & Rs). rewrite E'.
      eexists. split; [reflexivity |].
      destruct (Forall2_pieces _ _ _ Rs) as (pieces & Cp & -> & ->).
      pose proof (tiny_limit_lines (spread defaultOptions o) pad limit
                    "[" "]" pieces L' Lt (or_introl eq_refl) Pa Pd Id Cp)
        as EW.
      split.
      * etransitivity; [| symmetry; exact EW].
        rewrite expandWhiteSpace_off by reflexivity.
        rewrite tokensOf_plain by reflexivity. reflexivity.
      * refine (eq_trans (f_equal cleanBody EW) _).
        now apply (cleanBody_lines _ pad "[" "]");
          [left | | |].
    + destruct (cleanHeap_props h a props CH Ha) as [FP FK].
      change (objKeysOf (withoutLimit (spread defaultOptions o)) a props)
        with (objKeysOf (spread defaultOptions o) a props).
      destruct (objKeysOf (spread defaultOptions o) a props)
        as [keys | e] eqn:K; [| discriminate].
      cbn [call] in *. rewrite bind_ret in *.
      destruct (List.length keys =? 0)%nat.
      { inversion H; subst. eexists. split; [reflexivity |]. now split. }
      rewrite scoped_run in *.
      match type of H with
      | match ?X with _ => _ end = _ => destruct X as [[r s2] tr2] eqn:E
      end.
      destruct r; try discriminate. inversion H; subst. clear H.
      assert (C : carries
                (Forall2 (partPair (pad ++ indentOf (spread defaultOptions o))))
                (mapKeys (entryText (prettyPrint h fuel)
                            (spread defaultOptions o)
                            (tokensOf (spread defaultOptions o) pad) pad a
                            props (List.length keys)) keys 0)
                (mapKeys (entryText (prettyPrint h fuel)
                            (withoutLimit (spread defaultOptions o))
                            (tokensOf (withoutLimit (spread defaultOptions o))
                                      pad)
                            pad a props (List.length keys)) keys 0)).
      { apply carries_mapKeys. intros k i Hk. unfold entryText.
        apply (carries_bind (fun t t' => t' = t /\ noAt t = true)).
        - pose proof (FK k (objKeysOf_incl _ _ _ _ K k Hk)) as Ck.
          unfold cleanKey in Ck.
          destruct k as [x | x]; cbn [keyText keyString] in *.
          + destruct (isClassicKey x).
            * apply carries_ret. now split.
            * apply (carries_weaken
                       (fun t t' => t' = t /\ cleanBody t = true)).
              -- intros u u' [-> Cu]. split; [reflexivity |].
                 now apply cleanBody_noAt.
              -- now apply IHm.
          + apply carries_ret. now split.
        - intros key0 key0' [-> Nk].
          apply (carries_bind (fun t t' => t' = t /\ cleanBody t = true)).
          + apply IHm; auto.
          + intros x y [-> Cx]. intros s0 z s3 tr3 Hz.
            rewrite (transform_off_run _ _ _ _ _ _ T') in Hz.
            rewrite (transform_off_run
                       (withoutLimit (spread defaultOptions o)) _ _ _ _ _ T').
            inversion Hz; subst. eexists. split; [reflexivity |].
            exists (Some (key0 ++ ": " ++ x,
                          (List.length keys - 1 =? i)%nat)).
            split; [| split].
            * cbn [cleanPiece]. unfold cleanBody.
              rewrite !noAt_app, Nk, (cleanBody_noAt _ Cx).
              rewrite allChars_app.
              replace (allChars coreChar (": " ++ x)) with false
                by reflexivity.
              now rewrite andb_false_r, orb_true_r.
            * rewrite (tokensOf_limit _ _ _ L'). unfold eolOf.
              cbn [sentinels tok_indent tok_newLine tok_newLineOrSpace
                   tokPart].
              destruct (List.length keys - 1 =? i)%nat;
                rewrite !append_assoc; reflexivity.
            * rewrite tokensOf_plain by reflexivity. unfold eolOf.
              cbn [tok_indent tok_newLine tok_newLineOrSpace linePart].
              destruct (List.length keys - 1 =? i)%nat;
                rewrite !append_assoc; reflexivity. }
      destruct (C _ _ _ _ E) as (ys & E' & Rs). rewrite E'.
      eexists. split; [reflexivity |].
      destruct (Forall2_pieces _ _ _ Rs) as (pieces & Cp & -> & ->).
      pose proof (tiny_limit_lines (spread defaultOptions o) pad limit
                    "{" "}" pieces L' Lt (or_intror (or_introl eq_refl))
                    Pa Pd Id Cp) as EW.
      split.
      * etransitivity; [| symmetry; exact EW].
        rewrite expandWhiteSpace_off by reflexivity.
        rewrite tokensOf_plain by reflexivity. reflexivity.
      * refine (eq_trans (f_equal cleanBody EW) _).
        now apply (cleanBody_lines _ pad "{" "}");
          [right; left | | |].
Qed.

(** X10: a limit below 2 inlines nothing.  On a value graph whose texts
    hold no [@] and whose unquoted texts are not made of capital letters
    and underscores only, with no transform and no [@] or dollar in the
    indent and the pad, whatever text a call with such a limit returns,
    the call with no limit returns as well: the sentinels written at every
    depth are all turned back into the line breaks, pads and indents that
    are written directly when no limit is set. *)
Theorem tiny_limit_is_no_limit h fuel v o pad s limit t :
  cleanHeap h = true -> cleanValue v = true ->
  Options.inlineCharacterLimit o = Some limit -> (limit < 2)%Z ->
  Options.transform o = None ->
  noAt (indentOf (spread defaultOptions o)) = true ->
  noDollar (indentOf (spread defaultOptions o)) = true ->
  noAt pad = true -> noDollar pad = true ->
  rendersTo h fuel v o pad s t ->
  rendersTo h fuel v (withoutLimit o) pad s t.
Proof.
  intros CH CV L Lt T Ia Id Pa Pd [tr H].
  destruct (limit_off h limit fuel CH Lt v o pad L T Ia Id Pa Pd CV
              _ _ _ _ H) as (y & E & -> & _).
  now exists tr.
Qed.

Lemma tiny_limit_is_no_limit_witness :
  rendersTo heapNested 5 (VRef 0) (withoutLimit (withLimit 1)) EmptyString []
    ("{" ++ nl ++ tab ++ "arr: [" ++ nl
         ++ tab ++ tab ++ "1," ++ nl
         ++ tab ++ tab ++ "2," ++ nl
         ++ tab ++ tab ++ "3" ++ nl
         ++ tab ++ "]," ++ nl
         ++ tab ++ "nested: {" ++ nl
         ++ tab ++ tab ++ "hello: 'world'" ++ nl
         ++ tab ++ "}" ++ nl ++ "}").
Proof.
  apply (tiny_limit_is_no_limit heapNested 5 (VRef 0) (withLimit 1)
           EmptyString [] 1); try reflexivity.
  eexists. vm_compute. reflexivity.
Defined.
